(** * Coffee-shop finder: distance computation and nearest-five ranking

    A shallow embedding of the logic of [src/app/page.tsx] and of the two
    copies of the page in [src/unnamed/part_000]:

    - [calculateDistance], the haversine formula, in its two variants
      (metres converted to kilometres and rounded to two decimals in
      [page.tsx]; kilometres, unrounded, in [part_000]);
    - the ranking expression of [fetchCoffeeShops],
      [data.elements.map(...).sort((a, b) => a.distance - b.distance).slice(0, 5)];
    - the state updates of [fetchCoffeeShops] around it;
    - the other handlers ([getUserLocation], [requestLocation], the
      callbacks of [getCurrentPosition], the effects) and what is rendered
      under which condition, and each page as it runs: its state with
      the requests, effects and fetches that are under way, and the
      events that can happen to it.

    JavaScript numbers are IEEE 754 binary64 values: they are modelled by
    Rocq's primitive floats, whose [+ - * /] and [sqrt] are the operations
    of the source.  [Math.sin], [Math.cos] and [Math.atan2] are
    implementation-approximated in ECMAScript: they are taken from a
    [Host], and what a theorem assumes of them is among its hypotheses
    (sections [HostLaws] and [HostAccuracy]).  Where a claim is about how
    close a distance is to a decimal, the number is read as the real
    number it stands for ([value]). *)

From Stdlib Require Import Reals Lra Psatz ZArith Lia List Bool Floats String Sorted.
From Stdlib Require Uint63.
From stdpp Require Import base list.
Import ListNotations.

Local Open Scope Z_scope.

(** * JavaScript numbers *)

Abbreviation number := float.

(** [𝔽(n)] of ECMAScript for an integer [n]: the binary64 value nearest to [n]. *)
Definition number_of_Z (n : Z) : number :=
  SF2Prim (binary_normalize prec emax n 0 false).

(** An integer with the sign of the number it was rounded from, so that a
    negative number that rounds to zero gives [-0]. *)
Definition signed_integer (negative : bool) (n : Z) : number :=
  if (n =? 0)%Z then (if negative then neg_zero else zero) else number_of_Z n.

(** The larger of two numbers. *)
Definition number_max (x y : number) : number :=
  if (x <=? y)%float then y else x.

(** [x] and [y] differ by at most [tol] times the larger of their
    magnitudes. *)
Definition within_relative_tolerance (tol x y : number) : bool :=
  (abs (x - y) <=? tol * number_max (abs x) (abs y))%float.

(** A number that is a zero, or finite with an exponent of at most [E]
    (its magnitude is then below [2 ^ (E + 53)]). *)
Definition finite_below (E : Z) (f : spec_float) : Prop :=
  match f with
  | S754_zero _ => True
  | S754_finite _ _ e => (e <= E)%Z
  | _ => False
  end.

(** The place of a number in the order of the numbers: an integer that
    grows with it. *)
Definition rank (f : spec_float) : Z :=
  match f with
  | S754_finite s m e => cond_Zopp s (Zpos m * 2 ^ (e + 1074))
  | S754_infinity s => cond_Zopp s (2 ^ 2100)
  | _ => 0
  end.

(** A number with the sign [s], or NaN. *)
Definition signed (s : bool) (f : spec_float) : Prop :=
  match f with
  | S754_nan => True
  | S754_zero s' | S754_infinity s' | S754_finite s' _ _ => s' = s
  end.

(** ** The real number that a number stands for

    [m * 2 ^ e] with its sign for a finite number, and 0 for the others;
    the theorems that use it bound it away from 0. *)

(** [2 ^ e], for an exponent of either sign. *)
Definition pow2 (e : Z) : R :=
  if (0 <=? e)%Z then IZR (2 ^ e) else (/ IZR (2 ^ (- e)))%R.

Definition SF2R (f : spec_float) : R :=
  match f with
  | S754_finite s m e => (IZR (cond_Zopp s (Zpos m)) * pow2 e)%R
  | _ => 0%R
  end.

Definition value (x : number) : R := SF2R (Prim2SF x).

Definition safe (v : R) : Prop := (pow2 (-400) <= v <= pow2 400)%R.

(** * The host: [Math] and [Number.prototype.toString] *)

Class Host := {
  Math_sin : number -> number;
  Math_cos : number -> number;
  Math_atan2 : number -> number -> number;
  Number_toString : number -> string
}.

(** ** What is assumed of the host

    The first two are what ECMAScript says of [Math.sin] and [Math.atan2]
    at a zero.  The other two are not in the standard, which asks for
    approximations and no more; they hold of the [fdlibm] routines that
    the engines use. *)
Section HostLaws.
Context (host : Host).
Local Open Scope float_scope.

(** [Math.sin(+0)] is [+0]. *)
Definition sin_of_zero : Prop := Math_sin 0 = 0.

(** [Math.atan2(+0, x)] is [+0] for [x > 0]. *)
Definition atan2_of_zero : Prop :=
  forall x : number, (0 <? x) = true -> Math_atan2 0 x = 0.

(** The cosine of a finite number is between -1 and 1. *)
Definition cos_bounded : Prop :=
  forall x : number, is_finite x = true -> (abs (Math_cos x) <=? 1) = true.

(** The sine is odd. *)
Definition sin_odd : Prop :=
  forall x : number, Math_sin (- x) = - Math_sin x.

(** [Math.atan2(y, x)] is +0 or positive, or NaN, when [y] is. *)
Definition atan2_sign : Prop :=
  forall y x : number, get_sign y = false -> get_sign (Math_atan2 y x) = false.
End HostLaws.

(** [Math.PI] is the binary64 value nearest to pi, 3.141592653589793. *)
Definition Math_PI : number := 0x1.921fb54442d18p+1%float.

Definition Math_sqrt (x : number) : number := PrimFloat.sqrt x.

(** ** What is assumed of the host at particular angles *)

(** Half a degree in radians, [1 * (Math.PI / 180) / 2]. *)
Definition half_degree : number := (Math_PI / 180 / 2)%float.

(** Two and a half degrees and a right angle, in radians, as both pages
    compute them: [2.5 * (Math.PI / 180)], which is also
    [5 * Math.PI / 180 / 2], and [180 * (Math.PI / 180) / 2]. *)
Definition two_and_a_half_degrees : number := 0x1.657184ae74487p-5%float.

Definition right_angle : number := 0x1.921fb54442d18p+0%float.

Section HostAccuracy.
Context (host : Host).
Local Open Scope float_scope.

(** [Math.cos(+0)] is [1]. *)
Definition cos_of_zero : Prop := Math_cos 0 = 1.

(** [Math.sin] at half a degree, 0.0087265..., to five decimals. *)
Definition sin_at_half_degree : Prop :=
  (872 / 100000 <=? Math_sin half_degree) = true
  /\ (Math_sin half_degree <=? 873 / 100000) = true.

(** [Math.atan2(y, x)] for [y] near the sine of half a degree and [x] just
    below 1, to five decimals: the arc tangent of [y / x] is then between
    0.0086997 and 0.0087507. *)
Definition atan2_near_half_degree : Prop :=
  forall y x : number,
    (87 / 10000 <=? y) = true -> (y <=? 875 / 100000) = true ->
    (9999 / 10000 <=? x) = true -> (x <=? 1) = true ->
    (869 / 100000 <=? Math_atan2 y x) = true
    /\ (Math_atan2 y x <=? 876 / 100000) = true.

(** [Math.atan2(y, NaN)] is [NaN]. *)
Definition atan2_of_nan : Prop := forall y : number, Math_atan2 y nan = nan.

(** The sine and the cosine of two and a half degrees, 0.0436193873653360
    and 0.9990482215818578, rounded to the nearest number, and the sine of
    a right angle. *)
Definition sin_cos_at_two_and_a_half_degrees : Prop :=
  Math_sin two_and_a_half_degrees = 0x1.65547c4694e11p-5
  /\ Math_cos two_and_a_half_degrees = 0x1.ff833f9da45f7p-1
  /\ Math_cos (- two_and_a_half_degrees) = 0x1.ff833f9da45f7p-1
  /\ Math_sin right_angle = 1.
End HostAccuracy.

(** The haversine formula as the specification words it: on a sphere of
    radius [radius], with [radians] the conversion from degrees. *)
Section Haversine.
Context {host : Host}.
Variable radians : number -> number.
Variable radius : number.
Local Open Scope float_scope.

Definition haversine (lat1 lon1 lat2 lon2 : number) : number :=
  let a :=
    Math_sin (radians (lat2 - lat1) / 2) * Math_sin (radians (lat2 - lat1) / 2) +
    Math_cos (radians lat1) * Math_cos (radians lat2) *
    Math_sin (radians (lon2 - lon1) / 2) * Math_sin (radians (lon2 - lon1) / 2) in
  radius * (2 * Math_atan2 (Math_sqrt a) (Math_sqrt (1 - a))).
End Haversine.

(** [a] and [c] of the source for (0, 0) and (0, 1), once the sines and
    cosines at zero are replaced by their values. *)
Section OneDegree.
Context {host : Host}.
Local Open Scope float_scope.

Definition one_degree_a : number := 0 + 1 * Math_sin half_degree * Math_sin half_degree.

Definition one_degree_c : number :=
  2 * Math_atan2 (Math_sqrt one_degree_a) (Math_sqrt (1 - one_degree_a)).
End OneDegree.

(** [Math.round(x)]: the integral number closest to [x], the one closer to
    +Infinity when two are equally close; [x] itself when it is NaN, an
    infinity or a zero.  On a finite [x = (-1)^s * m * 2^e] this is
    [floor(x + 1/2)], computed on integers. *)
Definition round_half_up (s : bool) (m : positive) (e : Z) : Z :=
  if (0 <=? e)%Z then cond_Zopp s (Zpos m) * 2 ^ e
  else (2 * cond_Zopp s (Zpos m) + 2 ^ (- e)) / 2 ^ (1 - e).

Definition Math_round (x : number) : number :=
  match Prim2SF x with
  | S754_finite s m e => signed_integer s (round_half_up s m e)
  | _ => x
  end.

(** * Arrays: [sort] and [slice] *)

Section Arrays.
Context {A : Type}.

(** [SortCompare] of ECMAScript: a comparator result that is NaN counts as +0. *)
Definition SortCompare (comparefn : A -> A -> number) (x y : A) : number :=
  let v := comparefn x y in
  if is_nan v then zero else v.

(** [Array.prototype.sort] is required to be stable; for a consistent
    comparator its result is determined by that.  It is modelled by the
    stable insertion sort: an element goes after the sorted elements that
    compare strictly below it and before all others, and elements are
    inserted from the last to the first, so that of two elements that
    compare equal the one that came first stays first.  For a comparator
    that is not consistent, as [a.distance - b.distance] is when a
    distance is NaN, ECMAScript leaves the order to the implementation:
    the result is a permutation of the array and no more is known of it,
    so what is proved of the order it is in assumes that no distance is
    NaN. *)
Fixpoint sort_insert (comparefn : A -> A -> number) (x : A) (l : list A) : list A :=
  match l with
  | [] => [x]
  | y :: l' =>
      if (SortCompare comparefn y x <? 0)%float
      then y :: sort_insert comparefn x l'
      else x :: y :: l'
  end.

Fixpoint Array_sort (comparefn : A -> A -> number) (l : list A) : list A :=
  match l with
  | [] => []
  | x :: l' => sort_insert comparefn x (Array_sort comparefn l')
  end.

(** A relative index of [slice]: a negative one counts from the end. *)
Definition relative_index (len i : Z) : Z :=
  if (i <? 0)%Z then Z.max (len + i) 0 else Z.min i len.

(** [Array.prototype.slice(start, end)]. *)
Definition Array_slice (start end_ : Z) (l : list A) : list A :=
  let len := Z.of_nat (length l) in
  let k := relative_index len start in
  let final := relative_index len end_ in
  firstn (Z.to_nat (final - k)) (skipn (Z.to_nat k) l).
End Arrays.

(** A sequence of numbers in which no entry is above the next one. *)
Definition ascending (l : list number) : Prop :=
  forall (i : nat) (a b : number),
    l !! i = Some a -> l !! S i = Some b -> (a <=? b)%float = true.

(** [a] comes before [b] in [l]. *)
Definition before {A : Type} (a b : A) (l : list A) : Prop :=
  exists l1 l2 l3 : list A, l = l1 ++ a :: l2 ++ b :: l3.

(** * Data *)

(** [{ lat, lon }], the user's position. *)
Module Location.
Record t := { lat : number; lon : number }.
End Location.
Abbreviation Location := Location.t.

(** An element of the Overpass response,
    [{ id: number; lat: number; lon: number; tags: { name?: string } }]. *)
Record Element := {
  node_id : number;
  node_lat : number;
  node_lon : number;
  tags_name : option string
}.

(** [name || fallback]: the fallback when the name is missing or empty. *)
Definition or_default (name : option string) (fallback : string) : string :=
  match name with
  | Some s => if String.eqb s EmptyString then fallback else s
  | None => fallback
  end.

(** What the fetch of [fetchCoffeeShops] can come to: it throws, or it
    gives a response with its [ok] flag and a body that parses to the
    list [data.elements] or fails to. *)
Inductive FetchResult :=
  | FetchThrows
  | FetchResponse (ok : bool) (elements : option (list Element)).

(** * The ranking, for any record of ranked shops

    The three pages differ in the fields of [CoffeeShop] and in
    [calculateDistance]; the expression that ranks is the same. *)

Section Ranking.
Context {Shop : Type}.
Variable mk : Element -> Shop.
Variable distance : Shop -> number.

(** [(a, b) => a.distance - b.distance] *)
Definition by_distance (a b : Shop) : number := (distance a - distance b)%float.

(** [data.elements.map(mk).sort(by_distance).slice(0, k)]; the source
    writes the literal [5] for [k]. *)
Definition nearest_of (elements : list Element) (k : Z) : list Shop :=
  Array_slice 0 k (Array_sort by_distance (map mk elements)).

(** The entries of [l] at distance [d], in their order. *)
Definition at_distance (d : number) (l : list Shop) : list Shop :=
  List.filter (fun s => (distance s =? d)%float) l.

(** ** The same expression on the heap

    [map] and [slice] allocate a new array, [sort] sorts the array it is
    called on in place and returns it. *)
Inductive object :=
  | LocationObject (l : Location)
  | ElementArray (es : list Element)
  | ShopArray (ss : list Shop).

#[local] Abbreviation heap := (list object).
#[local] Abbreviation ref := nat.

(** A computation on the heap that may get stuck (a [TypeError]). *)
Definition Heap (T : Type) : Type := heap -> option (T * heap).

Definition ret {T} (x : T) : Heap T := fun h => Some (x, h).
Definition bind {T U} (c : Heap T) (f : T -> Heap U) : Heap U :=
  fun h => match c h with
           | Some (x, h') => f x h'
           | None => None
           end.
Definition alloc (o : object) : Heap ref := fun h => Some (length h, h ++ [o]).

Definition map_array (f : Element -> Shop) (r : ref) : Heap ref :=
  fun h => match h !! r with
           | Some (ElementArray es) => alloc (ShopArray (map f es)) h
           | _ => None
           end.

Definition sort_array (comparefn : Shop -> Shop -> number) (r : ref) : Heap ref :=
  fun h => match h !! r with
           | Some (ShopArray ss) => Some (r, <[r := ShopArray (Array_sort comparefn ss)]> h)
           | _ => None
           end.

Definition slice_array (start end_ : Z) (r : ref) : Heap ref :=
  fun h => match h !! r with
           | Some (ShopArray ss) => alloc (ShopArray (Array_slice start end_ ss)) h
           | _ => None
           end.

Definition read_location (r : ref) : Heap Location :=
  fun h => match h !! r with
           | Some (LocationObject l) => Some (l, h)
           | _ => None
           end.

(** Every object of [h] is in [h'], under the same reference and with
    the same content. *)
Definition preserved (h h' : heap) : Prop :=
  forall (r : ref) (o : object), h !! r = Some o -> h' !! r = Some o.
End Ranking.

Arguments object : clear implicits.
Arguments Heap : clear implicits.

(** A heap is the list of its objects, a reference an index in it. *)
Abbreviation heap Shop := (list (object Shop)).
Abbreviation ref := nat.

Notation "'let*' x := c 'in' k" := (bind c (fun x => k))
  (at level 10, x name, c at level 100, k at level 200).

(** * [src/app/page.tsx] *)

Module Page.
Section WithHost.
Context {host : Host}.
Local Open Scope float_scope.

Record CoffeeShop := {
  id : string;
  name : string;
  lat : number;
  lon : number;
  distance : number
}.

(** The haversine angle [c] between two points, in radians. *)
Definition central_angle (lat1 lon1 lat2 lon2 : number) : number :=
  let φ1 := (lat1 * Math_PI) / 180 in
  let φ2 := (lat2 * Math_PI) / 180 in
  let Δφ := ((lat2 - lat1) * Math_PI) / 180 in
  let Δλ := ((lon2 - lon1) * Math_PI) / 180 in
  let a :=
    Math_sin (Δφ / 2) * Math_sin (Δφ / 2) +
    Math_cos φ1 * Math_cos φ2 * Math_sin (Δλ / 2) * Math_sin (Δλ / 2) in
  2 * Math_atan2 (Math_sqrt a) (Math_sqrt (1 - a)).

(** Earth's radius in metres. *)
Definition R : number := 6371e3.


Definition calculateDistance (lat1 lon1 lat2 lon2 : number) : number :=
  let c := central_angle lat1 lon1 lat2 lon2 in
  Math_round ((R * c) / 1000 * 100) / 100.

(** The callback of [map]. *)
Definition shop_of (location : Location) (node : Element) : CoffeeShop :=
  {| id := Number_toString (node_id node);
     name := or_default (tags_name node) "Unnamed Coffee Shop";
     lat := node_lat node;
     lon := node_lon node;
     distance :=
       calculateDistance (Location.lat location) (Location.lon location)
                         (node_lat node) (node_lon node) |}.

(** The spec's [nearest(origin, candidates, k)]. *)
Definition nearest (origin : Location) (candidates : list Element) (k : Z)
  : list CoffeeShop :=
  nearest_of (shop_of origin) distance candidates k.

(** [const shops = data.elements.map(...).sort(...).slice(0, 5)] *)
Definition shops (location : Location) (elements : list Element) : list CoffeeShop :=
  nearest location elements 5.

(** The same, run on the heap. *)
Definition shops_on_heap (location elements : ref) : Heap CoffeeShop ref :=
  let* l := read_location location in
  let* mapped := map_array (shop_of l) elements in
  let* sorted := sort_array (by_distance distance) mapped in
  slice_array 0 5 sorted.

(** The state of the component. *)
Record State := {
  location : option Location;
  coffeeShops : list CoffeeShop;
  loading : bool;
  error : option string
}.

(** [fetchCoffeeShops], from the position it closes over and what
    the fetch came to.  The response's [ok] flag is not looked at. *)
Definition fetchCoffeeShops (here : Location) (r : FetchResult) (st : State) : State :=
  match r with
  | FetchResponse _ (Some elements) =>
      {| location := location st;
         coffeeShops := shops here elements;
         loading := false;
         error := error st |}
  | _ =>
      {| location := location st;
         coffeeShops := coffeeShops st;
         loading := false;
         error := Some "Failed to fetch coffee shops."%string |}
  end.

(** ** The handlers and the page as it runs *)

(** [useState(null)], [useState([])], [useState(false)], [useState(null)]. *)
Definition initial : State :=
  {| location := None; coffeeShops := []; loading := false; error := None |}.

(** [getUserLocation], with whether [navigator.geolocation] is there.
    The position that it asks for comes later, to one of the two
    callbacks below. *)
Definition getUserLocation (geolocation : bool) (st : State) : State :=
  if geolocation then
    {| location := location st;
       coffeeShops := coffeeShops st;
       loading := true;
       error := error st |}
  else
    {| location := location st;
       coffeeShops := coffeeShops st;
       loading := loading st;
       error := Some "Geolocation is not supported by your browser."%string |}.

(** [(position) => { setLocation({ lat: ..., lon: ... }) }] *)
Definition positionFound (latitude longitude : number) (st : State) : State :=
  {| location := Some {| Location.lat := latitude; Location.lon := longitude |};
     coffeeShops := coffeeShops st;
     loading := loading st;
     error := error st |}.

(** [(err) => { setError(...); setLoading(false) }] *)
Definition positionRefused (st : State) : State :=
  {| location := location st;
     coffeeShops := coffeeShops st;
     loading := false;
     error := Some "Unable to retrieve location. Please allow location access."%string |}.

(** The effect on [location] up to its [await]: [if (!location) return],
    then [setLoading(true)] and the fetch is on its way. *)
Definition fetchStarted (st : State) : State :=
  match location st with
  | None => st
  | Some _ =>
      {| location := location st;
         coffeeShops := coffeeShops st;
         loading := true;
         error := error st |}
  end.

(** What is on the screen: the button, the error, [Loading...] and the
    list, each under its condition.  An empty string is falsy, as [null]
    is, and an empty list is not rendered. *)
Record View := {
  button : bool;
  errorText : option string;
  loadingText : bool;
  listed : list CoffeeShop
}.

Definition truthy (s : option string) : option string :=
  match s with
  | Some t => if String.eqb t EmptyString then None else Some t
  | None => None
  end.

Definition render (st : State) : View :=
  {| button := match location st with None => true | Some _ => false end;
     errorText := truthy (error st);
     loadingText := loading st;
     listed := if (0 <? length (coffeeShops st))%nat then coffeeShops st else [] |}.

(** The page with what is under way: the calls of [getCurrentPosition]
    that have not been answered, whether the effect on [location] is due
    (it is after the first render and after each [setLocation]), and the
    positions of the fetches that have not settled. *)
Record System := {
  state : State;
  requests : nat;
  effectDue : bool;
  fetches : list Location
}.

Definition boot : System :=
  {| state := initial; requests := 0; effectDue := true; fetches := [] |}.

Inductive Event :=
  | Click (geolocation : bool)
  | PositionFound (latitude longitude : number)
  | PositionRefused
  | EffectRuns
  | FetchSettles (i : nat) (r : FetchResult).

(** One event, when it can happen: the button is there to click while no
    position is known, a callback answers a request, the effect runs
    when it is due, and a fetch that is on its way settles. *)
Definition handle (ev : Event) (sys : System) : option System :=
  match ev with
  | Click geolocation =>
      if button (render (state sys)) then
        Some {| state := getUserLocation geolocation (state sys);
                requests := if geolocation then S (requests sys) else requests sys;
                effectDue := effectDue sys;
                fetches := fetches sys |}
      else None
  | PositionFound latitude longitude =>
      match requests sys with
      | S n => Some {| state := positionFound latitude longitude (state sys);
                       requests := n;
                       effectDue := true;
                       fetches := fetches sys |}
      | O => None
      end
  | PositionRefused =>
      match requests sys with
      | S n => Some {| state := positionRefused (state sys);
                       requests := n;
                       effectDue := effectDue sys;
                       fetches := fetches sys |}
      | O => None
      end
  | EffectRuns =>
      if effectDue sys then
        Some {| state := fetchStarted (state sys);
                requests := requests sys;
                effectDue := false;
                fetches := match location (state sys) with
                           | Some here => fetches sys ++ [here]
                           | None => fetches sys
                           end |}
      else None
  | FetchSettles i r =>
      match fetches sys !! i with
      | Some here => Some {| state := fetchCoffeeShops here r (state sys);
                             requests := requests sys;
                             effectDue := effectDue sys;
                             fetches := delete i (fetches sys) |}
      | None => None
      end
  end.

(** A sequence of events, from the first; [None] when one of them cannot
    happen where it stands. *)
Fixpoint run (evs : list Event) (sys : System) : option System :=
  match evs with
  | [] => Some sys
  | ev :: evs' =>
      match handle ev sys with
      | Some sys' => run evs' sys'
      | None => None
      end
  end.
End WithHost.
End Page.

(** * [src/unnamed/part_000]

    The file holds two copies of the page; they differ in how the position
    is asked for and in styling, and are the same in everything below. *)

Module Part0.
Section WithHost.
Context {host : Host}.
Local Open Scope float_scope.

Record CoffeeShop := {
  id : number;
  lat : number;
  lon : number;
  name : string;
  distance : number
}.

Definition central_angle (lat1 lon1 lat2 lon2 : number) : number :=
  let dLat := (lat2 - lat1) * (Math_PI / 180) in
  let dLon := (lon2 - lon1) * (Math_PI / 180) in
  let a :=
    Math_sin (dLat / 2) * Math_sin (dLat / 2) +
    Math_cos (lat1 * (Math_PI / 180)) * Math_cos (lat2 * (Math_PI / 180)) *
    Math_sin (dLon / 2) * Math_sin (dLon / 2) in
  2 * Math_atan2 (Math_sqrt a) (Math_sqrt (1 - a)).

(** Earth's radius in kilometres. *)
Definition R : number := 6371.

Definition calculateDistance (lat1 lon1 lat2 lon2 : number) : number :=
  let c := central_angle lat1 lon1 lat2 lon2 in
  R * c.

Definition shop_of (location : Location) (element : Element) : CoffeeShop :=
  let distance :=
    calculateDistance (Location.lat location) (Location.lon location)
                      (node_lat element) (node_lon element) in
  {| id := node_id element;
     lat := node_lat element;
     lon := node_lon element;
     name := or_default (tags_name element) "Unknown";
     distance := distance |}.

Definition nearest (origin : Location) (candidates : list Element) (k : Z)
  : list CoffeeShop :=
  nearest_of (shop_of origin) distance candidates k.

(** [const sortedShops = shops.sort(...).slice(0, 5)] *)
Definition sortedShops (location : Location) (elements : list Element) : list CoffeeShop :=
  nearest location elements 5.

Definition shops_on_heap (location elements : ref) : Heap CoffeeShop ref :=
  let* l := read_location location in
  let* shops := map_array (shop_of l) elements in
  let* sorted := sort_array (by_distance distance) shops in
  slice_array 0 5 sorted.

Record State := {
  coffeeShops : list CoffeeShop;
  loading : bool;
  error : option string;
  location : option Location
}.

(** [fetchCoffeeShops]: a response that is not [ok] throws, as the
    fetch and the parse of the body do. *)
Definition fetchCoffeeShops (here : Location) (r : FetchResult) (st : State) : State :=
  match r with
  | FetchResponse true (Some elements) =>
      {| coffeeShops := sortedShops here elements;
         loading := false;
         error := error st;
         location := location st |}
  | _ =>
      {| coffeeShops := coffeeShops st;
         loading := false;
         error := Some "Failed to fetch coffee shops"%string;
         location := location st |}
  end.
End WithHost.

(** ** The handlers and the two pages as they run *)

(** What both pages of the file show, each under its condition; the
    second page has the button as well. *)
Record View := {
  button : bool;
  loadingText : bool;
  errorText : option string;
  emptyText : bool;
  listed : list CoffeeShop
}.

Definition truthy (s : option string) : bool :=
  match s with
  | Some t => negb (String.eqb t EmptyString)
  | None => false
  end.

(** [(position) => { const { latitude, longitude } = position.coords;
    setLocation({ lat: latitude, lon: longitude }) }], in both pages. *)
Definition positionFound (latitude longitude : number) (st : State) : State :=
  {| coffeeShops := coffeeShops st;
     loading := loading st;
     error := error st;
     location := Some {| Location.lat := latitude; Location.lon := longitude |} |}.

(** [setError('Unable to retrieve your location'); setLoading(false)], in
    both pages. *)
Definition positionRefused (st : State) : State :=
  {| coffeeShops := coffeeShops st;
     loading := false;
     error := Some "Unable to retrieve your location"%string;
     location := location st |}.

(** *** The first page: the position is asked for when the page mounts *)
Module First.

(** [useState([])], [useState(true)], [useState(null)], [useState(null)]. *)
Definition initial : State :=
  {| coffeeShops := []; loading := true; error := None; location := None |}.

(** The effect that runs once, with whether [navigator.geolocation] is
    there. *)
Definition mounted (geolocation : bool) (st : State) : State :=
  if geolocation then st
  else
    {| coffeeShops := coffeeShops st;
       loading := false;
       error := Some "Geolocation is not supported by your browser"%string;
       location := location st |}.

Definition render (st : State) : View :=
  {| button := false;
     loadingText := loading st;
     errorText := if truthy (error st) then error st else None;
     emptyText := negb (loading st) && negb (truthy (error st))
                  && (length (coffeeShops st) =? 0)%nat;
     listed := if (0 <? length (coffeeShops st))%nat then coffeeShops st else [] |}.

(** The page with what is under way: whether the effect of mounting and
    the effect on [location] are due, the calls of [getCurrentPosition]
    that have not been answered, and the positions of the fetches that
    have not settled. *)
Record System := {
  state : State;
  mountDue : bool;
  requests : nat;
  effectDue : bool;
  fetches : list Location
}.

Definition boot : System :=
  {| state := initial; mountDue := true; requests := 0; effectDue := true; fetches := [] |}.

Inductive Event :=
  | Mount (geolocation : bool)
  | PositionFound (latitude longitude : number)
  | PositionRefused
  | EffectRuns
  | FetchSettles (i : nat) (r : FetchResult).

Section WithHost.
Context {host : Host}.

Definition handle (ev : Event) (sys : System) : option System :=
  match ev with
  | Mount geolocation =>
      if mountDue sys then
        Some {| state := mounted geolocation (state sys);
                mountDue := false;
                requests := if geolocation then S (requests sys) else requests sys;
                effectDue := effectDue sys;
                fetches := fetches sys |}
      else None
  | PositionFound latitude longitude =>
      match requests sys with
      | S n => Some {| state := positionFound latitude longitude (state sys);
                       mountDue := mountDue sys;
                       requests := n;
                       effectDue := true;
                       fetches := fetches sys |}
      | O => None
      end
  | PositionRefused =>
      match requests sys with
      | S n => Some {| state := positionRefused (state sys);
                       mountDue := mountDue sys;
                       requests := n;
                       effectDue := effectDue sys;
                       fetches := fetches sys |}
      | O => None
      end
  | EffectRuns =>
      if effectDue sys then
        Some {| state := state sys;
                mountDue := mountDue sys;
                requests := requests sys;
                effectDue := false;
                fetches := match location (state sys) with
                           | Some here => fetches sys ++ [here]
                           | None => fetches sys
                           end |}
      else None
  | FetchSettles i r =>
      match fetches sys !! i with
      | Some here => Some {| state := fetchCoffeeShops here r (state sys);
                             mountDue := mountDue sys;
                             requests := requests sys;
                             effectDue := effectDue sys;
                             fetches := delete i (fetches sys) |}
      | None => None
      end
  end.

Fixpoint run (evs : list Event) (sys : System) : option System :=
  match evs with
  | [] => Some sys
  | ev :: evs' =>
      match handle ev sys with
      | Some sys' => run evs' sys'
      | None => None
      end
  end.
End WithHost.
End First.

(** *** The second page: the position is asked for with a button *)
Module Second.

(** The state of the first page and [isLocationRequested]; [loading]
    starts as [false]. *)
Record State2 := {
  page : State;
  isLocationRequested : bool
}.

Definition initial : State2 :=
  {| page := {| coffeeShops := []; loading := false; error := None; location := None |};
     isLocationRequested := false |}.

(** [requestLocation], with whether [navigator.geolocation] is there. *)
Definition requestLocation (geolocation : bool) (st : State2) : State2 :=
  if geolocation then
    {| page := {| coffeeShops := coffeeShops (page st);
                  loading := true;
                  error := error (page st);
                  location := location (page st) |};
       isLocationRequested := true |}
  else
    {| page := {| coffeeShops := coffeeShops (page st);
                  loading := loading (page st);
                  error := Some "Geolocation is not supported by your browser"%string;
                  location := location (page st) |};
       isLocationRequested := isLocationRequested st |}.

(** The error callback also has [setIsLocationRequested(false)]. *)
Definition positionRefused2 (st : State2) : State2 :=
  {| page := positionRefused (page st); isLocationRequested := false |}.

Definition render (st : State2) : View :=
  {| button := negb (isLocationRequested st);
     loadingText := loading (page st);
     errorText := if truthy (error (page st)) then error (page st) else None;
     emptyText := negb (loading (page st)) && negb (truthy (error (page st)))
                  && (length (coffeeShops (page st)) =? 0)%nat
                  && match location (page st) with Some _ => true | None => false end;
     listed := if (0 <? length (coffeeShops (page st)))%nat
               then coffeeShops (page st) else [] |}.

(** The page with what is under way: whether the effect on
    [isLocationRequested] is due (it is after the first render and each
    time the flag changes) and the effect on [location], then as in the
    first page. *)
Record System := {
  state : State2;
  requestDue : bool;
  requests : nat;
  effectDue : bool;
  fetches : list Location
}.

Definition boot : System :=
  {| state := initial; requestDue := true; requests := 0; effectDue := true; fetches := [] |}.

Inductive Event :=
  | Click (geolocation : bool)
  | RequestRuns
  | PositionFound (latitude longitude : number)
  | PositionRefused
  | EffectRuns
  | FetchSettles (i : nat) (r : FetchResult).

Section WithHost.
Context {host : Host}.

Definition handle (ev : Event) (sys : System) : option System :=
  match ev with
  | Click geolocation =>
      if button (render (state sys)) then
        Some {| state := requestLocation geolocation (state sys);
                requestDue := if geolocation then true else requestDue sys;
                requests := requests sys;
                effectDue := effectDue sys;
                fetches := fetches sys |}
      else None
  | RequestRuns =>
      if requestDue sys then
        Some {| state := state sys;
                requestDue := false;
                requests := if isLocationRequested (state sys)
                            then S (requests sys) else requests sys;
                effectDue := effectDue sys;
                fetches := fetches sys |}
      else None
  | PositionFound latitude longitude =>
      match requests sys with
      | S n => Some {| state := {| page := positionFound latitude longitude (page (state sys));
                                   isLocationRequested := isLocationRequested (state sys) |};
                       requestDue := requestDue sys;
                       requests := n;
                       effectDue := true;
                       fetches := fetches sys |}
      | O => None
      end
  | PositionRefused =>
      match requests sys with
      | S n => Some {| state := positionRefused2 (state sys);
                       requestDue := if isLocationRequested (state sys)
                                     then true else requestDue sys;
                       requests := n;
                       effectDue := effectDue sys;
                       fetches := fetches sys |}
      | O => None
      end
  | EffectRuns =>
      if effectDue sys then
        Some {| state := state sys;
                requestDue := requestDue sys;
                requests := requests sys;
                effectDue := false;
                fetches := match location (page (state sys)) with
                           | Some here => fetches sys ++ [here]
                           | None => fetches sys
                           end |}
      else None
  | FetchSettles i r =>
      match fetches sys !! i with
      | Some here => Some {| state := {| page := fetchCoffeeShops here r (page (state sys));
                                         isLocationRequested := isLocationRequested (state sys) |};
                             requestDue := requestDue sys;
                             requests := requests sys;
                             effectDue := effectDue sys;
                             fetches := delete i (fetches sys) |}
      | None => None
      end
  end.

Fixpoint run (evs : list Event) (sys : System) : option System :=
  match evs with
  | [] => Some sys
  | ev :: evs' =>
      match handle ev sys with
      | Some sys' => run evs' sys'
      | None => None
      end
  end.
End WithHost.
End Second.
End Part0.

(** The events in which a fetch settles. *)
Definition First_settles (ev : Part0.First.Event) : bool :=
  match ev with Part0.First.FetchSettles _ _ => true | _ => false end.

Definition Second_settles (ev : Part0.Second.Event) : bool :=
  match ev with Part0.Second.FetchSettles _ _ => true | _ => false end.

(** The quotients [n / 100] that [page.tsx] can return for one degree. *)
Definition hundredth_near_111 (n : Z) : bool :=
  ((1107 / 10 <=? signed_integer false n / 100)
   && (signed_integer false n / 100 <=? 11165 / 100))%float.

(** * A host to compute with

    Small-angle approximations: enough to run the pages on the few
    kilometres around a position that the query asks for. *)

#[local] Open Scope float_scope.

Definition small_angle_sin (x : number) : number := x * (1 - x * x / 6).

Definition small_angle_cos (x : number) : number :=
  let c := 1 - x * x / 2 in
  if abs c <=? 1 then c else 1.

Definition small_angle_atan2 (y x : number) : number := y / x.

Definition small_angle_host : Host :=
  {| Math_sin := small_angle_sin;
     Math_cos := small_angle_cos;
     Math_atan2 := small_angle_atan2;
     Number_toString := fun _ => "node"%string |}.

(** Alexanderplatz and four cafes around it; the first and the third are
    at the same place. *)
Definition berlin : Location := {| Location.lat := 52.5; Location.lon := 13.5 |}.

Definition cafe (i la lo : number) (n : option string) : Element :=
  {| node_id := i; node_lat := la; node_lon := lo; tags_name := n |}.

Definition cafes : list Element :=
  [ cafe 1 52.5625 13.5 (Some "Kaffee Eins"%string);
    cafe 2 52.5 13.5 None;
    cafe 3 52.5625 13.5 (Some EmptyString);
    cafe 4 52.53125 13.5 (Some "Vier"%string) ].

(** A second host, closer to what the engines run: the polynomials of
    [fdlibm] for the sine and the cosine of an angle of at most 45 degrees
    ([__kernel_sin], and [__kernel_cos] as it is below 0.3, both without
    the tail of the argument); beyond 45 degrees the one is reduced to
    the other. *)
Definition kernel_sin (x : number) : number :=
  let z := x * x in
  let v := z * x in
  let r := 0x1.111111110f8a6p-7 + z * (-0x1.a01a019c161d5p-13 + z * (0x1.71de357b1fe7dp-19
             + z * (-0x1.ae5e68a2b9cebp-26 + z * 0x1.5d93a5acfd57cp-33))) in
  x + v * (-0x1.5555555555549p-3 + z * r).

Definition kernel_cos (x : number) : number :=
  let z := x * x in
  let r := z * (0x1.555555555554cp-5 + z * (-0x1.6c16c16c15177p-10 + z * (0x1.a01a019cb1590p-16
             + z * (-0x1.27e4f809c52adp-22 + z * (0x1.1ee9ebdb4b1c4p-29
             + z * -0x1.8fae9be8838d4p-37))))) in
  1 - (0.5 * z - z * r).

Definition kernel_host : Host :=
  {| Math_sin := fun x =>
       if abs x <=? Math_PI / 4 then kernel_sin x
       else if 0 <? x then kernel_cos (x - Math_PI / 2)
       else - kernel_cos (x + Math_PI / 2);
     Math_cos := fun x =>
       if abs x <=? Math_PI / 4 then kernel_cos x
       else kernel_sin (Math_PI / 2 - abs x);
     Math_atan2 := fun y x => y / x;
     Number_toString := fun _ => "node"%string |}.

(** A third host, whose arc tangent has the sign of [y]. *)
Definition quadrant_atan2 (y x : number) : number :=
  (if get_sign y then - abs (y / x) else abs (y / x))%float.

Definition quadrant_host : Host :=
  {| Math_sin := small_angle_sin;
     Math_cos := small_angle_cos;
     Math_atan2 := quadrant_atan2;
     Number_toString := fun _ => "node"%string |}.

(** Three cafes at three distances. *)
Definition cafes_apart : list Element :=
  [ cafe 1 52.5625 13.5 (Some "Kaffee Eins"%string);
    cafe 2 52.5 13.5 None;
    cafe 4 52.53125 13.5 (Some "Vier"%string) ].

(** What happens to the pages in a visit that goes well, and in one where
    the position is refused. *)
Definition a_visit : list Page.Event :=
  [Page.EffectRuns; Page.Click true; Page.PositionFound 52.5 13.5; Page.EffectRuns;
   Page.FetchSettles 0 (FetchResponse true (Some cafes))].

Definition a_refusal : list Page.Event :=
  [Page.EffectRuns; Page.Click true; Page.PositionRefused].

Definition a_first_visit : list Part0.First.Event :=
  [Part0.First.Mount true; Part0.First.EffectRuns; Part0.First.PositionFound 52.5 13.5;
   Part0.First.EffectRuns; Part0.First.FetchSettles 0 (FetchResponse true (Some []))].

Definition a_second_visit : list Part0.Second.Event :=
  [Part0.Second.RequestRuns; Part0.Second.EffectRuns; Part0.Second.Click true;
   Part0.Second.RequestRuns; Part0.Second.PositionFound 52.5 13.5;
   Part0.Second.EffectRuns; Part0.Second.FetchSettles 0 (FetchResponse true (Some []))].

Definition a_first_refusal : list Part0.First.Event :=
  [Part0.First.Mount true; Part0.First.PositionRefused].

Definition a_second_refusal : list Part0.Second.Event :=
  [Part0.Second.Click true; Part0.Second.RequestRuns; Part0.Second.PositionRefused].

(** The same visits to the pages of [part_000], with seven cafes in the
    response. *)
Definition a_first_visit_with_cafes : list Part0.First.Event :=
  [Part0.First.Mount true; Part0.First.EffectRuns; Part0.First.PositionFound 52.5 13.5;
   Part0.First.EffectRuns;
   Part0.First.FetchSettles 0 (FetchResponse true (Some (cafes ++ cafes_apart)))].

Definition a_second_visit_with_cafes : list Part0.Second.Event :=
  [Part0.Second.RequestRuns; Part0.Second.EffectRuns; Part0.Second.Click true;
   Part0.Second.RequestRuns; Part0.Second.PositionFound 52.5 13.5;
   Part0.Second.EffectRuns;
   Part0.Second.FetchSettles 0 (FetchResponse true (Some (cafes ++ cafes_apart)))].

(** A position, and a cafe on the other side of the globe. *)
Definition south : Location := {| Location.lat := -2.5; Location.lon := 0 |}.

Definition north_cafe : Element := cafe 9 2.5 180 (Some "Nord"%string).

#[local] Close Scope float_scope.


(** * The binary64 format

    Facts about the specification of the primitive floats, [SpecFloat]:
    what a valid number looks like, how the shift to the format's exponent
    acts on a mantissa, and what rounding can give. *)

Section SpecFloatFacts.
Implicit Types (m : positive) (e : Z) (s : bool) (f : spec_float).

Lemma fexp_eq e : fexp prec emax e = Z.max (e - 53) (-1074).
Proof. reflexivity. Qed.

Lemma digits2_pos_bounds m :
  2 ^ (Zpos (digits2_pos m) - 1) <= Zpos m < 2 ^ Zpos (digits2_pos m).
Proof.
  induction m as [m IH|m IH|]; simpl digits2_pos.
  - rewrite Pos2Z.inj_succ, Z.pow_succ_r by lia.
    replace (Z.succ (Zpos (digits2_pos m)) - 1) with (Z.succ (Zpos (digits2_pos m) - 1)) by lia.
    rewrite Z.pow_succ_r by lia. lia.
  - rewrite Pos2Z.inj_succ, Z.pow_succ_r by lia.
    replace (Z.succ (Zpos (digits2_pos m)) - 1) with (Z.succ (Zpos (digits2_pos m) - 1)) by lia.
    rewrite Z.pow_succ_r by lia. lia.
  - simpl. lia.
Qed.

Lemma Zdigits2_bounds (n : Z) :
  0 < n -> 2 ^ (Zdigits2 n - 1) <= n < 2 ^ Zdigits2 n.
Proof. destruct n; try lia. intros _. apply digits2_pos_bounds. Qed.

Lemma iter_xO m d : Zpos (Pos.iter xO m d) = Zpos m * 2 ^ Zpos d.
Proof.
  induction d as [|d IH] using Pos.peano_ind.
  - simpl. lia.
  - rewrite Pos.iter_succ, Pos2Z.inj_succ, Z.pow_succ_r by lia.
    rewrite Pos2Z.inj_xO, IH. lia.
Qed.

Lemma shl_align_fst m e e' :
  e' <= e -> Zpos (fst (shl_align m e e')) = Zpos m * 2 ^ (e - e').
Proof.
  intros He. unfold shl_align.
  destruct (e' - e) as [|p|p] eqn:E; try lia; simpl fst.
  - replace (e - e') with 0 by lia. lia.
  - rewrite iter_xO. f_equal. f_equal. lia.
Qed.

Lemma shl_align_snd m e e' : snd (shl_align m e e') = Z.min e e'.
Proof.
  unfold shl_align. destruct (e' - e) as [|p|p] eqn:E; simpl snd; lia.
Qed.

(** What a valid finite number looks like. *)
Lemma valid_finite s m e :
  valid_binary (S754_finite s m e) = true ->
  -1074 <= e <= 971 /\ Zpos m < 2 ^ 53 /\ (-1074 < e -> 2 ^ 52 <= Zpos m).
Proof.
  unfold SpecFloat.valid_binary, bounded, canonical_mantissa.
  rewrite andb_true_iff, Z.eqb_eq, Z.leb_le, fexp_eq.
  change (emax - prec) with 971.
  intros [Hc He].
  pose proof (digits2_pos_bounds m) as [Hlo Hhi].
  assert (Hd : Zpos (digits2_pos m) <= 53) by lia.
  split; [lia|]. split.
  - eapply Z.lt_le_trans; [exact Hhi|]. apply Z.pow_le_mono_r; lia.
  - intros Hne. replace (Zpos (digits2_pos m)) with 53 in Hlo by lia. exact Hlo.
Qed.

Lemma shr_1_m (mrs : shr_record) :
  0 <= shr_m mrs -> shr_m (shr_1 mrs) = shr_m mrs / 2.
Proof.
  destruct mrs as [n r t]. simpl shr_m. intros Hn.
  destruct n as [|[p|p|]|p]; simpl shr_m; try reflexivity; try lia.
  - apply Z.div_unique with 1; lia.
  - apply Z.div_unique with 0; lia.
Qed.

Lemma iter_shr_1_m p (mrs : shr_record) :
  0 <= shr_m mrs -> shr_m (SpecFloat.iter_pos shr_1 p mrs) = shr_m mrs / 2 ^ Zpos p.
Proof.
  revert mrs. induction p as [p IH|p IH|]; intros mrs Hm; simpl SpecFloat.iter_pos.
  - assert (H1 : 0 <= shr_m (shr_1 mrs)) by (rewrite shr_1_m by lia; apply Z.div_pos; lia).
    assert (H2 : 0 <= shr_m (SpecFloat.iter_pos shr_1 p (shr_1 mrs)))
      by (rewrite IH by lia; apply Z.div_pos; lia).
    rewrite IH, IH, shr_1_m by assumption.
    rewrite !Z.div_div by lia. f_equal.
    replace (Zpos p~1) with (1 + Zpos p + Zpos p) by lia.
    rewrite !Z.pow_add_r by lia. change (2 ^ 1) with 2. lia.
  - assert (H2 : 0 <= shr_m (SpecFloat.iter_pos shr_1 p mrs))
      by (rewrite IH by lia; apply Z.div_pos; lia).
    rewrite IH, IH by assumption.
    rewrite !Z.div_div by lia. f_equal.
    replace (Zpos p~0) with (Zpos p + Zpos p) by lia.
    rewrite !Z.pow_add_r by lia. lia.
  - rewrite shr_1_m by lia. reflexivity.
Qed.

Lemma shr_fexp_spec (n : Z) e (l : location) :
  0 <= n ->
  snd (shr_fexp prec emax n e l) = Z.max e (fexp prec emax (Zdigits2 n + e))
  /\ shr_m (fst (shr_fexp prec emax n e l))
     = n / 2 ^ (snd (shr_fexp prec emax n e l) - e).
Proof.
  intros Hn. unfold shr_fexp, shr.
  assert (Hrec : shr_m (shr_record_of_loc n l) = n) by (now destruct l as [|[]]).
  destruct (fexp prec emax (Zdigits2 n + e) - e) as [|p|p] eqn:E; simpl fst; simpl snd.
  - split; [lia|]. rewrite Z.sub_diag, Z.div_1_r. exact Hrec.
  - split; [lia|]. rewrite iter_shr_1_m by lia. rewrite Hrec. f_equal. f_equal. lia.
  - split; [lia|]. rewrite Z.sub_diag, Z.div_1_r. exact Hrec.
Qed.

(** Shifting to the format's exponent leaves a positive mantissa positive
    when the exponent is not below the least one: nothing underflows to zero. *)
Lemma shr_fexp_pos (n : Z) e (l : location) :
  0 < n -> -1074 <= e ->
  0 < shr_m (fst (shr_fexp prec emax n e l))
  /\ -1074 <= snd (shr_fexp prec emax n e l).
Proof.
  intros Hn He.
  destruct (shr_fexp_spec n e l) as [He' Hm]; [lia|].
  rewrite Hm, He', fexp_eq. split; [|lia].
  pose proof (Zdigits2_bounds n Hn) as [Hlo _].
  assert (1 <= Zdigits2 n) by (destruct n; simpl; lia).
  apply Z.div_str_pos. split; [apply Z.pow_pos_nonneg; lia|].
  eapply Z.le_trans; [|exact Hlo].
  apply Z.pow_le_mono_r; lia.
Qed.

Lemma round_nearest_even_ge (n : Z) (l : location) : n <= round_nearest_even n l.
Proof. destruct l as [|[]]; simpl; try lia. destruct (Z.even n); lia. Qed.

Lemma round_nearest_even_le (n : Z) (l : location) : round_nearest_even n l <= n + 1.
Proof. destruct l as [|[]]; simpl; try lia. destruct (Z.even n); lia. Qed.

(** Rounding a positive mantissa at an exponent that is not below the least
    one gives a number of the sign asked for that is not zero. *)
Lemma binary_round_aux_sign s (n : Z) e (l : location) :
  0 < n -> -1074 <= e ->
  (exists m' e', binary_round_aux prec emax s n e l = S754_finite s m' e')
  \/ binary_round_aux prec emax s n e l = S754_infinity s.
Proof.
  intros Hn He. unfold binary_round_aux.
  destruct (shr_fexp_pos n e l Hn He) as [Hm1 He1].
  destruct (shr_fexp prec emax n e l) as [mrs' e'] eqn:E1. simpl fst in Hm1. simpl snd in He1.
  pose proof (round_nearest_even_ge (shr_m mrs') (loc_of_shr_record mrs')) as Hr.
  destruct (shr_fexp_pos (round_nearest_even (shr_m mrs') (loc_of_shr_record mrs')) e' loc_Exact)
    as [Hm2 He2]; [lia|lia|].
  destruct (shr_fexp prec emax _ e' loc_Exact) as [mrs'' e''] eqn:E2. simpl fst in Hm2.
  destruct (shr_m mrs'') as [|m'|m']; try lia.
  destruct (e'' <=? emax - prec); [left; eauto|right; reflexivity].
Qed.

Lemma binary_round_sign s m e :
  -1074 <= e ->
  (exists m' e', binary_round prec emax s m e = S754_finite s m' e')
  \/ binary_round prec emax s m e = S754_infinity s.
Proof.
  intros He. unfold binary_round.
  pose proof (shl_align_snd m e (fexp prec emax (Zpos (digits2_pos m) + e))) as Hs.
  destruct (shl_align m e _) as [mz ez]. simpl snd in Hs.
  apply binary_round_aux_sign; [lia|]. rewrite Hs, fexp_eq. lia.
Qed.

(** The order of two valid finite numbers is that of their mantissas
    brought to the smaller of the two exponents. *)
Lemma SFcompare_finite sx mx ex sy my ey :
  valid_binary (S754_finite sx mx ex) = true ->
  valid_binary (S754_finite sy my ey) = true ->
  SFcompare (S754_finite sx mx ex) (S754_finite sy my ey)
  = Some (cond_Zopp sx (Zpos mx * 2 ^ (ex - Z.min ex ey))
          ?= cond_Zopp sy (Zpos my * 2 ^ (ey - Z.min ex ey))).
Proof.
  intros (Hex & Hmx & Hnx)%valid_finite (Hey & Hmy & Hny)%valid_finite.
  unfold SFcompare. f_equal.
  assert (Hpx : 0 < Zpos mx * 2 ^ (ex - Z.min ex ey))
    by (apply Z.mul_pos_pos; [lia|apply Z.pow_pos_nonneg; lia]).
  assert (Hpy : 0 < Zpos my * 2 ^ (ey - Z.min ex ey))
    by (apply Z.mul_pos_pos; [lia|apply Z.pow_pos_nonneg; lia]).
  assert (Hlt : forall m1 e1 m2 e2,
             Zpos m1 < 2 ^ 53 -> 2 ^ 52 <= Zpos m2 -> e1 < e2 ->
             Zpos m1 * 2 ^ (e1 - Z.min e1 e2) < Zpos m2 * 2 ^ (e2 - Z.min e1 e2)).
  { intros m1 e1 m2 e2 H1 H2 H12.
    rewrite Z.min_l, Z.sub_diag, Z.pow_0_r, Z.mul_1_r by lia.
    assert (2 ^ 1 <= 2 ^ (e2 - e1)) by (apply Z.pow_le_mono_r; lia).
    change (2 ^ 1) with 2 in *. change (2 ^ 53) with (2 * 2 ^ 52) in H1. nia. }
  assert (Hgt : forall m1 e1 m2 e2,
             Zpos m2 < 2 ^ 53 -> 2 ^ 52 <= Zpos m1 -> e2 < e1 ->
             Zpos m2 * 2 ^ (e2 - Z.min e1 e2) < Zpos m1 * 2 ^ (e1 - Z.min e1 e2)).
  { intros m1 e1 m2 e2 H1 H2 H12.
    rewrite Z.min_r, Z.sub_diag, Z.pow_0_r, Z.mul_1_r by lia.
    assert (2 ^ 1 <= 2 ^ (e1 - e2)) by (apply Z.pow_le_mono_r; lia).
    change (2 ^ 1) with 2 in *. change (2 ^ 53) with (2 * 2 ^ 52) in H1. nia. }
  destruct sx, sy; cbv beta iota delta [cond_Zopp].
  - rewrite Z.compare_opp.
    destruct (Z.compare_spec ex ey) as [->|Hlt'|Hgt'].
    + rewrite Z.min_id, Z.sub_diag, Z.pow_0_r, !Z.mul_1_r.
      symmetry. apply (Pos.compare_antisym mx my).
    + symmetry. apply Z.compare_gt_iff. apply Hlt; [lia | apply Hny; lia | lia].
    + symmetry. apply Z.compare_lt_iff. apply Hgt; [lia | apply Hnx; lia | lia].
  - symmetry. apply Z.compare_lt_iff. lia.
  - symmetry. apply Z.compare_gt_iff. lia.
  - destruct (Z.compare_spec ex ey) as [->|Hlt'|Hgt'].
    + rewrite Z.min_id, Z.sub_diag, Z.pow_0_r, !Z.mul_1_r. reflexivity.
    + symmetry. apply Z.compare_lt_iff. apply Hlt; [lia | apply Hny; lia | lia].
    + symmetry. apply Z.compare_gt_iff. apply Hgt; [lia | apply Hnx; lia | lia].
Qed.


(** ** Rounding does not overflow when the exponent is far from the largest *)

Lemma Zdigits2_le_of_lt (n k : Z) : 0 <= n < 2 ^ k -> 0 <= k -> Zdigits2 n <= k.
Proof.
  intros [Hn Hk] Hk0. destruct (Z.eq_dec n 0) as [->|Hne]; [exact Hk0|].
  destruct (Zdigits2_bounds n) as [Hlo _]; [lia|].
  assert (H : 2 ^ (Zdigits2 n - 1) < 2 ^ k) by lia.
  apply Z.pow_lt_mono_r_iff in H; lia.
Qed.

Lemma Zdigits2_nonneg (n : Z) : 0 <= Zdigits2 n.
Proof. destruct n; simpl; lia. Qed.

Lemma finite_below_le E E' f : E <= E' -> finite_below E f -> finite_below E' f.
Proof. destruct f; simpl; auto; lia. Qed.

Lemma binary_round_aux_finite s (n : Z) e (l : location) :
  0 <= n < 2 ^ 120 -> e <= 700 ->
  finite_below (Z.max e (-1074) + 140) (binary_round_aux prec emax s n e l).
Proof.
  intros Hn He. unfold binary_round_aux.
  destruct (shr_fexp_spec n e l) as [He1 Hm1]; [lia|].
  destruct (shr_fexp prec emax n e l) as [mrs' e'] eqn:E1.
  simpl fst in Hm1. simpl snd in He1, Hm1.
  set (n1 := round_nearest_even (shr_m mrs') (loc_of_shr_record mrs')).
  pose proof (round_nearest_even_ge (shr_m mrs') (loc_of_shr_record mrs')) as Hge.
  pose proof (round_nearest_even_le (shr_m mrs') (loc_of_shr_record mrs')) as Hle.
  fold n1 in Hge, Hle.
  assert (H0 : 0 <= shr_m mrs') by (rewrite Hm1; apply Z.div_pos; [lia|apply Z.pow_pos_nonneg; lia]).
  assert (H1 : shr_m mrs' <= n).
  { rewrite Hm1. apply Z.div_le_upper_bound; [apply Z.pow_pos_nonneg; lia|].
    assert (0 < 2 ^ (e' - e)) by (apply Z.pow_pos_nonneg; lia). nia. }
  assert (Hd : Zdigits2 n <= 120) by (apply Zdigits2_le_of_lt; lia).
  assert (Hd1 : Zdigits2 n1 <= 121).
  { apply Zdigits2_le_of_lt; [|lia]. change (2 ^ 121) with (2 * 2 ^ 120). lia. }
  pose proof (Zdigits2_nonneg n) as Hdn. pose proof (Zdigits2_nonneg n1) as Hdn1.
  destruct (shr_fexp_spec n1 e' loc_Exact) as [He2 Hm2]; [lia|].
  destruct (shr_fexp prec emax n1 e' loc_Exact) as [mrs'' e''] eqn:E2.
  simpl fst in Hm2. simpl snd in He2, Hm2.
  assert (H2 : 0 <= shr_m mrs'') by (rewrite Hm2; apply Z.div_pos; [lia|apply Z.pow_pos_nonneg; lia]).
  rewrite fexp_eq in He1, He2.
  destruct (shr_m mrs'') as [|m|m]; [exact I| |lia].
  change (emax - prec) with 971.
  destruct (Z.leb_spec e'' 971); simpl; lia.
Qed.

Lemma SFmul_finite E1 E2 fx fy :
  valid_binary fx = true -> valid_binary fy = true ->
  finite_below E1 fx -> finite_below E2 fy -> E1 + E2 <= 700 ->
  finite_below (Z.max (E1 + E2) (-1074) + 140) (SF64mul fx fy).
Proof.
  intros Vx Vy Hx Hy HE.
  destruct fx as [sx|sx| |sx mx ex], fy as [sy|sy| |sy my ey];
    simpl in Hx, Hy; try contradiction; try exact I.
  destruct (valid_finite _ _ _ Vx) as (_ & Hmx & _), (valid_finite _ _ _ Vy) as (_ & Hmy & _).
  unfold SF64mul, SFmul.
  eapply finite_below_le; [|apply binary_round_aux_finite]; [lia| |lia].
  rewrite Pos2Z.inj_mul. split; [lia|].
  change (2 ^ 120) with (2 ^ 53 * 2 ^ 53 * 2 ^ 14). nia.
Qed.

Lemma SFdiv_finite E1 fx sy my ey :
  valid_binary fx = true -> valid_binary (S754_finite sy my ey) = true ->
  finite_below E1 fx -> E1 - ey <= 700 ->
  finite_below (Z.max (E1 - ey) (-1074) + 140) (SF64div fx (S754_finite sy my ey)).
Proof.
  intros Vx Vy Hx HE.
  destruct fx as [sx|sx| |sx mx ex]; simpl in Hx; try contradiction; try exact I.
  destruct (valid_finite _ _ _ Vx) as (_ & Hmx & _), (valid_finite _ _ _ Vy) as (_ & Hmy & _).
  unfold SF64div, SFdiv, SFdiv_core_binary.
  set (d1 := Zdigits2 (Zpos mx)). set (d2 := Zdigits2 (Zpos my)).
  set (e' := Z.min (fexp prec emax (d1 + ex - (d2 + ey))) (ex - ey)).
  set (m' := match ex - ey - e' with
             | 0 => Zpos mx
             | Zpos _ => Z.shiftl (Zpos mx) (ex - ey - e')
             | Zneg _ => 0
             end).
  assert (Hd1 : Zpos mx < 2 ^ d1) by apply digits2_pos_bounds.
  assert (Hd2 : d2 <= 53) by (apply Zdigits2_le_of_lt; lia).
  assert (Hd1' : 1 <= d1 <= 53)
    by (split; [unfold d1; simpl; lia | apply Zdigits2_le_of_lt; lia]).
  assert (Hd2' : 0 <= d2) by apply Zdigits2_nonneg.
  assert (He' : e' <= ex - ey) by (unfold e'; lia).
  assert (Hs : ex - ey - e' <= d2 - d1 + 53) by (unfold e'; rewrite fexp_eq; lia).
  assert (Hm' : 0 <= m' < 2 ^ 120).
  { unfold m'. destruct (ex - ey - e') as [|p|p] eqn:Es.
    - split; [lia|]. eapply Z.lt_le_trans; [exact Hd1|]. apply Z.pow_le_mono_r; lia.
    - rewrite Z.shiftl_mul_pow2 by lia. split; [apply Z.mul_nonneg_nonneg; lia|].
      eapply Z.lt_le_trans with (2 ^ d1 * 2 ^ Zpos p).
      + apply Z.mul_lt_mono_pos_r; [apply Z.pow_pos_nonneg; lia|exact Hd1].
      + rewrite <- Z.pow_add_r by lia. apply Z.pow_le_mono_r; lia.
    - split; [lia|]. apply Z.pow_pos_nonneg; lia. }
  pose proof (Z_div_mod m' (Zpos my) ltac:(lia)) as Hdm.
  destruct (Z.div_eucl m' (Zpos my)) as [q r] eqn:Eq.
  eapply finite_below_le; [|apply binary_round_aux_finite]; [lia| |lia].
  destruct Hdm as [Hdm Hr]. nia.
Qed.

Lemma SFmul_zero_r E fx s :
  finite_below E fx -> exists s', SF64mul fx (S754_zero s) = S754_zero s'.
Proof. destruct fx; simpl; try contradiction; eauto. Qed.

(** A finite number minus itself is +0. *)
Lemma SFsub_diag E fx : finite_below E fx -> SF64sub fx fx = S754_zero false.
Proof.
  destruct fx as [[]| | |s m e]; try contradiction; try reflexivity.
  intros _. unfold SF64sub, SFsub, shl_align.
  rewrite Z.min_id, !Z.sub_diag. reflexivity.
Qed.

(** Between [-b] and [b] the exponent is at most that of [b]. *)
Lemma SFleb_finite_below fx mb eb :
  SFleb (S754_finite true mb eb) fx = true ->
  SFleb fx (S754_finite false mb eb) = true ->
  finite_below eb fx.
Proof.
  unfold SFleb. destruct fx as [s|[]| |[] m e]; simpl; try discriminate; auto.
  - intros H _. destruct (Z.compare_spec eb e); try discriminate; lia.
  - intros _ H. destruct (Z.compare_spec e eb); try discriminate; lia.
Qed.

(** ** Signs

    Rounding never looks at the sign: negating an operand of a product or
    of a quotient negates the result, and the two differences of two
    numbers are opposite, or both +0. *)

Lemma binary_round_aux_opp s (n : Z) e (l : location) :
  0 <= n ->
  binary_round_aux prec emax (negb s) n e l = SFopp (binary_round_aux prec emax s n e l).
Proof.
  intros Hn. unfold binary_round_aux.
  destruct (shr_fexp_spec n e l Hn) as [He1 Hm1].
  destruct (shr_fexp prec emax n e l) as [mrs' e']. simpl fst in Hm1. simpl snd in He1, Hm1.
  assert (H0 : 0 <= shr_m mrs')
    by (rewrite Hm1; apply Z.div_pos; [lia|apply Z.pow_pos_nonneg; lia]).
  pose proof (round_nearest_even_ge (shr_m mrs') (loc_of_shr_record mrs')) as Hge.
  destruct (shr_fexp_spec (round_nearest_even (shr_m mrs') (loc_of_shr_record mrs')) e' loc_Exact)
    as [He2 Hm2]; [lia|].
  destruct (shr_fexp prec emax _ e' loc_Exact) as [mrs'' e'']. simpl fst in Hm2. simpl snd in He2, Hm2.
  assert (H2 : 0 <= shr_m mrs'')
    by (rewrite Hm2; apply Z.div_pos; [lia|apply Z.pow_pos_nonneg; lia]).
  destruct (shr_m mrs'') as [|m|m]; [reflexivity| |lia].
  now destruct (e'' <=? emax - prec).
Qed.

Lemma binary_round_opp s m e :
  binary_round prec emax (negb s) m e = SFopp (binary_round prec emax s m e).
Proof.
  unfold binary_round. destruct (shl_align m e _) as [mz ez].
  apply binary_round_aux_opp. lia.
Qed.

Lemma SFopp_involutive f : SFopp (SFopp f) = f.
Proof. destruct f as [s|s| |s m e]; simpl; now rewrite ?negb_involutive. Qed.

Lemma SFmul_opp_l fx fy : SF64mul (SFopp fx) fy = SFopp (SF64mul fx fy).
Proof.
  destruct fx as [sx|sx| |sx mx ex], fy as [sy|sy| |sy my ey]; simpl;
    try reflexivity; try (now destruct sx, sy).
  rewrite <- binary_round_aux_opp by lia. f_equal. now destruct sx, sy.
Qed.

Lemma SFmul_comm fx fy : SF64mul fx fy = SF64mul fy fx.
Proof.
  destruct fx as [sx|sx| |sx mx ex], fy as [sy|sy| |sy my ey]; simpl;
    try reflexivity; try (now destruct sx, sy).
  now rewrite (xorb_comm sx sy), (Pos.mul_comm mx my), (Z.add_comm ex ey).
Qed.

Lemma SFdiv_opp_l fx fy : SF64div (SFopp fx) fy = SFopp (SF64div fx fy).
Proof.
  destruct fx as [sx|sx| |sx mx ex], fy as [sy|sy| |sy my ey];
    try reflexivity; try (now destruct sx, sy).
  unfold SF64div, SFopp, SFdiv.
  pose proof (fun q r => Z_div_mod q (Zpos my) r) as Hdm.
  unfold SFdiv_core_binary.
  set (m' := match _ with 0 => Zpos mx | Zpos _ => Z.shiftl (Zpos mx) _ | Zneg _ => 0 end).
  assert (Hm' : 0 <= m').
  { unfold m'. destruct (_ - _ - _); [lia| |lia]. apply Z.shiftl_nonneg. lia. }
  specialize (Hdm m' ltac:(lia)).
  destruct (Z.div_eucl m' (Zpos my)) as [q r].
  replace (xorb (negb sx) sy) with (negb (xorb sx sy)) by (now destruct sx, sy).
  apply binary_round_aux_opp. nia.
Qed.

Lemma SFsub_antisym fx fy :
  SF64sub fy fx = SFopp (SF64sub fx fy)
  \/ (SF64sub fx fy = S754_zero false /\ SF64sub fy fx = S754_zero false).
Proof.
  destruct fx as [sx|sx| |sx mx ex], fy as [sy|sy| |sy my ey];
    try (now left); try (destruct sx, sy; simpl; now auto).
  unfold SF64sub, SFsub. rewrite (Z.min_comm ey ex).
  set (X := cond_Zopp sx (Zpos (fst (shl_align mx ex (Z.min ex ey))))).
  set (Y := cond_Zopp sy (Zpos (fst (shl_align my ey (Z.min ex ey))))).
  destruct (X - Y) as [|p|p] eqn:E.
  - right. replace (Y - X) with 0 by lia. now split.
  - left. replace (Y - X) with (Zneg p) by lia. simpl binary_normalize.
    apply (binary_round_opp false).
  - left. replace (Y - X) with (Zpos p) by lia. simpl binary_normalize.
    rewrite <- (binary_round_opp true). reflexivity.
Qed.

Lemma binary_round_aux_nonneg (n : Z) e (l : location) :
  0 <= n -> SFleb (S754_zero false) (binary_round_aux prec emax false n e l) = true.
Proof.
  intros Hn. unfold binary_round_aux.
  destruct (shr_fexp_spec n e l Hn) as [He1 Hm1].
  destruct (shr_fexp prec emax n e l) as [mrs' e']. simpl fst in Hm1. simpl snd in He1, Hm1.
  assert (H0 : 0 <= shr_m mrs')
    by (rewrite Hm1; apply Z.div_pos; [lia|apply Z.pow_pos_nonneg; lia]).
  pose proof (round_nearest_even_ge (shr_m mrs') (loc_of_shr_record mrs')) as Hge.
  destruct (shr_fexp_spec (round_nearest_even (shr_m mrs') (loc_of_shr_record mrs')) e' loc_Exact)
    as [He2 Hm2]; [lia|].
  destruct (shr_fexp prec emax _ e' loc_Exact) as [mrs'' e'']. simpl fst in Hm2. simpl snd in He2, Hm2.
  assert (H2 : 0 <= shr_m mrs'')
    by (rewrite Hm2; apply Z.div_pos; [lia|apply Z.pow_pos_nonneg; lia]).
  destruct (shr_m mrs'') as [|m|m]; [reflexivity| |lia].
  now destruct (e'' <=? emax - prec).
Qed.

(** A positive finite number times a magnitude that is finite is not negative. *)
Lemma SFmul_abs_nonneg mt et fx :
  match fx with S754_nan | S754_infinity _ => False | _ => True end ->
  SFleb (S754_zero false) (SF64mul (S754_finite false mt et) (SFabs fx)) = true.
Proof.
  destruct fx as [s|s| |s m e]; simpl; try contradiction; intros _; [reflexivity|].
  apply binary_round_aux_nonneg. lia.
Qed.

Lemma SFcompare_refl f : f <> S754_nan -> SFcompare f f = Some Eq.
Proof.
  destruct f as [[]|[]| |[] m e]; intros Hf; try reflexivity; try congruence;
    simpl; rewrite Z.compare_refl; fold (Pos.compare m m);
    now rewrite Pos.compare_refl.
Qed.

Lemma SFcompare_antisym f1 f2 :
  SFcompare f2 f1 = option_map CompOpp (SFcompare f1 f2).
Proof.
  destruct f1 as [[]|[]| |[] m1 e1], f2 as [[]|[]| |[] m2 e2]; try reflexivity;
    simpl; rewrite (Z.compare_antisym e1 e2);
    destruct (e1 ?= e2); simpl; try reflexivity;
    fold (Pos.compare m1 m2); fold (Pos.compare m2 m1);
    rewrite (Pos.compare_antisym m1 m2); now destruct (Pos.compare m1 m2).
Qed.

Lemma SFcompare_Eq_inv f1 f2 :
  SFcompare f1 f2 = Some Eq ->
  f1 = f2 \/ (exists s1 s2, f1 = S754_zero s1 /\ f2 = S754_zero s2).
Proof.
  destruct f1 as [s1|[]| |[] m1 e1], f2 as [s2|[]| |[] m2 e2];
    simpl; try discriminate; try (now left); try (right; now eauto);
    destruct (Z.compare_spec e1 e2) as [->| |]; try discriminate;
    fold (Pos.compare m1 m2);
    destruct (Pos.compare_spec m1 m2) as [->| |]; try discriminate; now left.
Qed.

Lemma SFcompare_Eq_trans f1 f2 f3 :
  SFcompare f1 f3 = Some Eq -> SFcompare f2 f3 = Some Eq ->
  SFcompare f2 f1 = Some Eq.
Proof.
  intros H1 H2.
  destruct (SFcompare_Eq_inv _ _ H1) as [->|(s1 & s3 & -> & ->)]; [exact H2|].
  destruct (SFcompare_Eq_inv _ _ H2) as [->|(s2 & s4 & -> & _)]; reflexivity.
Qed.

(** The sign of a difference is the order of its operands: rounding a
    difference that is not zero never gives zero. *)
Lemma SFltb_SFsub_0 fx fy :
  valid_binary fx = true -> valid_binary fy = true ->
  fx <> S754_nan -> fy <> S754_nan ->
  SFltb (SF64sub fx fy) (S754_zero false) = SFltb fx fy.
Proof.
  intros Vx Vy Nx Ny.
  destruct fx as [sx|sx| |sx mx ex], fy as [sy|sy| |sy my ey]; try congruence;
    try (now destruct sx, sy).
  unfold SFltb. rewrite SFcompare_finite by assumption.
  unfold SF64sub, SFsub.
  destruct (valid_finite _ _ _ Vx) as (Hex & _), (valid_finite _ _ _ Vy) as (Hey & _).
  rewrite !shl_align_fst by lia.
  set (X := cond_Zopp sx (Zpos mx * 2 ^ (ex - Z.min ex ey))).
  set (Y := cond_Zopp sy (Zpos my * 2 ^ (ey - Z.min ex ey))).
  replace (cond_Zopp sx (Zpos mx * 2 ^ (ex - Z.min ex ey))
           - cond_Zopp sy (Zpos my * 2 ^ (ey - Z.min ex ey))) with (X - Y) by reflexivity.
  destruct (Z.compare_spec X Y) as [HXY|HXY|HXY];
    destruct (X - Y) as [|p|p] eqn:E; try lia; unfold binary_normalize.
  - reflexivity.
  - destruct (binary_round_sign true p (Z.min ex ey)) as [(m' & e' & ->)| ->];
      [lia|reflexivity|reflexivity].
  - destruct (binary_round_sign false p (Z.min ex ey)) as [(m' & e' & ->)| ->];
      [lia|reflexivity|reflexivity].
Qed.
End SpecFloatFacts.

(** * Numbers *)

Section NumberFacts.
Implicit Types (x y : number).
Local Open Scope float_scope.

Lemma is_nan_Prim2SF x : is_nan x = true <-> Prim2SF x = S754_nan.
Proof.
  unfold is_nan. rewrite FloatAxioms.eqb_spec, negb_true_iff. unfold SFeqb.
  split.
  - intros H. destruct (Prim2SF x) eqn:E; try reflexivity;
      rewrite SFcompare_refl in H by congruence; discriminate H.
  - now intros ->.
Qed.

Lemma not_nan_Prim2SF x : is_nan x = false -> Prim2SF x <> S754_nan.
Proof. intros H E%is_nan_Prim2SF. congruence. Qed.

(** [x - y < 0] is [x < y], for numbers that are not NaN. *)
Lemma ltb_sub_0 x y :
  is_nan x = false -> is_nan y = false -> (x - y <? 0) = (x <? y).
Proof.
  intros Hx Hy. rewrite !ltb_spec, FloatAxioms.sub_spec.
  change (Prim2SF 0) with (S754_zero false).
  apply SFltb_SFsub_0; auto using Prim2SF_valid, not_nan_Prim2SF.
Qed.

Lemma ltb_irrefl x : (x <? x) = false.
Proof.
  rewrite FloatAxioms.ltb_spec. unfold SFltb.
  destruct (Prim2SF x) eqn:E; try reflexivity;
    now rewrite SFcompare_refl by congruence.
Qed.

Lemma leb_not_ltb x y :
  is_nan x = false -> is_nan y = false -> (x <=? y) = negb (y <? x).
Proof.
  intros Hx%not_nan_Prim2SF Hy%not_nan_Prim2SF.
  rewrite FloatAxioms.leb_spec, FloatAxioms.ltb_spec. unfold SFleb, SFltb.
  rewrite (SFcompare_antisym (Prim2SF x) (Prim2SF y)).
  destruct (SFcompare (Prim2SF x) (Prim2SF y)) as [[]|] eqn:E; try reflexivity.
  exfalso. destruct (Prim2SF x), (Prim2SF y); try discriminate E; congruence.
Qed.

Lemma eqb_not_ltb x y : (x =? y) = true -> (x <? y) = false.
Proof.
  rewrite FloatAxioms.eqb_spec, FloatAxioms.ltb_spec. unfold SFeqb, SFltb.
  now destruct (SFcompare (Prim2SF x) (Prim2SF y)) as [[]|].
Qed.

Lemma ltb_nan_l x y : is_nan x = true -> (x <? y) = false.
Proof.
  intros E%is_nan_Prim2SF. rewrite FloatAxioms.ltb_spec, E. reflexivity.
Qed.

Lemma ltb_asym x y : (x <? y) = true -> (y <? x) = false.
Proof.
  rewrite !FloatAxioms.ltb_spec. unfold SFltb.
  rewrite (SFcompare_antisym (Prim2SF x) (Prim2SF y)).
  now destruct (SFcompare (Prim2SF x) (Prim2SF y)) as [[]|].
Qed.

(** Two numbers equal to a third are not one below the other. *)
Lemma eqb_eqb_not_ltb x y d :
  (x =? d) = true -> (y =? d) = true -> (y <? x) = false.
Proof.
  rewrite !FloatAxioms.eqb_spec, FloatAxioms.ltb_spec. unfold SFeqb, SFltb.
  intros Hx Hy.
  rewrite (SFcompare_Eq_trans (Prim2SF x) (Prim2SF y) (Prim2SF d)); [reflexivity| |].
  - now destruct (SFcompare (Prim2SF x) (Prim2SF d)) as [[]|].
  - now destruct (SFcompare (Prim2SF y) (Prim2SF d)) as [[]|].
Qed.

Lemma eqb_not_nan x y : (x =? y) = true -> is_nan x = false /\ is_nan y = false.
Proof.
  rewrite FloatAxioms.eqb_spec. unfold SFeqb. intros H.
  split; apply not_true_is_false; intros E%is_nan_Prim2SF; rewrite E in H;
    [|destruct (Prim2SF x)]; discriminate H.
Qed.
(** A number is finite when it is a zero or has a mantissa and an exponent. *)
Lemma is_finite_Prim2SF x :
  is_finite x = match Prim2SF x with
                | S754_nan | S754_infinity _ => false
                | _ => true
                end.
Proof.
  unfold is_finite, is_nan, is_infinity.
  rewrite !FloatAxioms.eqb_spec, abs_spec.
  change (Prim2SF infinity) with (S754_infinity false). unfold SFeqb.
  destruct (Prim2SF x) as [[]|[]| |s m e] eqn:E; try reflexivity.
  rewrite SFcompare_refl by discriminate. reflexivity.
Qed.

Lemma Prim2SF_zero x s :
  Prim2SF x = S754_zero s -> x = if s then neg_zero else zero.
Proof.
  intros E. rewrite <- (SF2Prim_Prim2SF x), E. now destruct s.
Qed.

(** [Math.round] gives an integer, with the sign of its argument when
    that integer is zero, or passes on what is not finite. *)
Lemma Math_round_integer x :
  (exists (negative : bool) (n : Z), Math_round x = signed_integer negative n)
  \/ (is_finite x = false /\ Math_round x = x).
Proof.
  unfold Math_round. rewrite is_finite_Prim2SF.
  destruct (Prim2SF x) as [s|s| |s m e] eqn:E.
  - left. exists s, 0%Z. now apply Prim2SF_zero.
  - now right.
  - now right.
  - left. eauto.
Qed.
Lemma finite_below_is_finite E x : finite_below E (Prim2SF x) -> is_finite x = true.
Proof. rewrite is_finite_Prim2SF. now destruct (Prim2SF x). Qed.

Lemma between_finite_below x b mb eb :
  Prim2SF b = S754_finite false mb eb ->
  (- b <=? x) = true -> (x <=? b) = true -> finite_below eb (Prim2SF x).
Proof.
  intros Hb. rewrite !FloatAxioms.leb_spec, opp_spec, Hb. apply SFleb_finite_below.
Qed.

Lemma abs_leb_finite_below x b mb eb :
  Prim2SF b = S754_finite false mb eb ->
  (abs x <=? b) = true -> finite_below eb (Prim2SF x).
Proof.
  intros Hb. rewrite FloatAxioms.leb_spec, abs_spec, Hb. unfold SFleb.
  destruct (Prim2SF x) as [s|[]| |s m e]; simpl; try discriminate; auto.
  intros H. destruct (Z.compare_spec e eb); try discriminate; lia.
Qed.

Lemma mul_finite_below E1 E2 x y :
  finite_below E1 (Prim2SF x) -> finite_below E2 (Prim2SF y) ->
  (E1 + E2 <= 700)%Z ->
  finite_below (Z.max (E1 + E2) (-1074) + 140) (Prim2SF (x * y)).
Proof. rewrite mul_spec. apply SFmul_finite; apply Prim2SF_valid. Qed.

Lemma div_finite_below E1 x y sy my ey :
  Prim2SF y = S754_finite sy my ey ->
  finite_below E1 (Prim2SF x) -> (E1 - ey <= 700)%Z ->
  finite_below (Z.max (E1 - ey) (-1074) + 140) (Prim2SF (x / y)).
Proof.
  intros Hy. rewrite div_spec, Hy.
  apply SFdiv_finite; [apply Prim2SF_valid|rewrite <- Hy; apply Prim2SF_valid].
Qed.

Lemma sub_diag E x : finite_below E (Prim2SF x) -> x - x = 0.
Proof.
  intros Hx. apply Prim2SF_inj. rewrite FloatAxioms.sub_spec.
  now rewrite (SFsub_diag E).
Qed.

Lemma mul_zero_r E x :
  finite_below E (Prim2SF x) -> exists s, Prim2SF (x * 0) = S754_zero s.
Proof.
  intros Hx. rewrite mul_spec. change (Prim2SF 0) with (S754_zero false).
  now apply (SFmul_zero_r E).
Qed.

Lemma add_zero_zero z s : Prim2SF z = S754_zero s -> 0 + z = 0.
Proof.
  intros Hz. apply Prim2SF_inj. rewrite add_spec, Hz. now destruct s.
Qed.

(** The sum under the square roots of the haversine formula, when the
    two sines are zero and the cosines are at most one in magnitude. *)
Lemma haversine_sum_zero c1 c2 :
  (abs c1 <=? 1) = true -> (abs c2 <=? 1) = true ->
  0 * 0 + c1 * c2 * 0 * 0 = 0.
Proof.
  intros H1 H2.
  apply (abs_leb_finite_below _ 1 4503599627370496 (-52) eq_refl) in H1, H2.
  pose proof (mul_finite_below _ _ _ _ H1 H2 ltac:(lia)) as H12.
  destruct (mul_zero_r _ _ H12) as [s1 Hz1].
  destruct (mul_zero_r 0 (c1 * c2 * 0)) as [s2 Hz2]; [now rewrite Hz1|].
  change (0 * 0) with 0 at 1. now apply (add_zero_zero _ s2).
Qed.
Lemma zero_div_positive x : (0 <? x) = true -> 0 / x = 0.
Proof.
  rewrite FloatAxioms.ltb_spec. change (Prim2SF 0) with (S754_zero false).
  intros H. apply Prim2SF_inj. rewrite div_spec.
  change (Prim2SF 0) with (S754_zero false).
  now destruct (Prim2SF x) as [[]|[]| |[] m e].
Qed.
Lemma opp_involutive x : - - x = x.
Proof. apply Prim2SF_inj. now rewrite !opp_spec, SFopp_involutive. Qed.

Lemma mul_opp_l x y : - x * y = - (x * y).
Proof. apply Prim2SF_inj. now rewrite opp_spec, !mul_spec, opp_spec, SFmul_opp_l. Qed.

Lemma mul_comm x y : x * y = y * x.
Proof. apply Prim2SF_inj. rewrite !mul_spec. apply SFmul_comm. Qed.

Lemma mul_opp_opp x y : - x * - y = x * y.
Proof.
  now rewrite mul_opp_l, (mul_comm x (- y)), mul_opp_l, opp_involutive, mul_comm.
Qed.

Lemma div_opp_l x y : - x / y = - (x / y).
Proof. apply Prim2SF_inj. now rewrite opp_spec, !div_spec, opp_spec, SFdiv_opp_l. Qed.

Lemma sub_antisym x y : y - x = - (x - y) \/ (x - y = 0 /\ y - x = 0).
Proof.
  destruct (SFsub_antisym (Prim2SF x) (Prim2SF y)) as [H|[H1 H2]].
  - left. apply Prim2SF_inj. now rewrite opp_spec, !FloatAxioms.sub_spec.
  - right. split; apply Prim2SF_inj; now rewrite FloatAxioms.sub_spec.
Qed.
Lemma mul_opp_r x y : x * - y = - (x * y).
Proof. now rewrite (mul_comm x (- y)), mul_opp_l, mul_comm. Qed.

Lemma number_max_diag x : number_max x x = x.
Proof. unfold number_max. now destruct (x <=? x). Qed.

(** A finite number is within any tolerance of itself. *)
Lemma within_relative_tolerance_refl tol mt et x :
  Prim2SF tol = S754_finite false mt et ->
  is_finite x = true -> within_relative_tolerance tol x x = true.
Proof.
  intros Htol Hx. unfold within_relative_tolerance.
  rewrite number_max_diag.
  rewrite is_finite_Prim2SF in Hx.
  assert (Hfin : finite_below (match Prim2SF x with S754_finite _ _ e => e | _ => 0%Z end)
                   (Prim2SF x))
    by (destruct (Prim2SF x); simpl; try discriminate; auto; lia).
  rewrite (sub_diag _ x Hfin). change (abs 0) with 0.
  rewrite FloatAxioms.leb_spec, mul_spec, abs_spec, Htol.
  change (Prim2SF 0) with (S754_zero false).
  apply SFmul_abs_nonneg. now destruct (Prim2SF x).
Qed.
End NumberFacts.

(** * The order of the numbers, and their signs

    The comparisons of two numbers that are not NaN are those of their
    ranks, so that [<=?] is a total preorder on them; and how the sign of
    a result follows from the signs of the operands. *)

Section Order.
Implicit Types (f : spec_float) (x y z : number).

Lemma rank_finite_bound s m e :
  valid_binary (S754_finite s m e) = true ->
  0 < Zpos m * 2 ^ (e + 1074) < 2 ^ 2100.
Proof.
  intros (He & Hm & _)%valid_finite.
  assert (0 < 2 ^ (e + 1074)) by (apply Z.pow_pos_nonneg; lia).
  split; [lia|].
  apply Z.lt_le_trans with (2 ^ 53 * 2 ^ (e + 1074)).
  - apply Z.mul_lt_mono_pos_r; lia.
  - rewrite <- Z.pow_add_r by lia. apply Z.pow_le_mono_r; lia.
Qed.

Lemma Z_mul_compare_r (a b p : Z) : 0 < p -> (a * p ?= b * p) = (a ?= b).
Proof.
  intros Hp. destruct (Z.compare_spec a b) as [->|H|H].
  - apply Z.compare_refl.
  - apply Z.compare_lt_iff. now apply Z.mul_lt_mono_pos_r.
  - apply Z.compare_gt_iff. now apply Z.mul_lt_mono_pos_r.
Qed.

Lemma SFcompare_rank f1 f2 :
  valid_binary f1 = true -> valid_binary f2 = true ->
  f1 <> S754_nan -> f2 <> S754_nan ->
  SFcompare f1 f2 = Some (rank f1 ?= rank f2).
Proof.
  intros V1 V2 N1 N2.
  destruct f1 as [s1|s1| |s1 m1 e1], f2 as [s2|s2| |s2 m2 e2]; try congruence;
    try (pose proof (rank_finite_bound _ _ _ V1) as H1);
    try (pose proof (rank_finite_bound _ _ _ V2) as H2);
    try (unfold SFcompare, rank, cond_Zopp;
         try destruct s1; try destruct s2; f_equal; symmetry;
         first [ apply Z.compare_eq_iff; lia
               | apply Z.compare_gt_iff; lia
               | apply Z.compare_lt_iff; lia ]).
  - rewrite SFcompare_finite by assumption. f_equal.
    destruct (valid_finite _ _ _ V1) as (He1 & _), (valid_finite _ _ _ V2) as (He2 & _).
    set (e0 := Z.min e1 e2).
    assert (Hp : 0 < 2 ^ (e0 + 1074)) by (apply Z.pow_pos_nonneg; lia).
    unfold rank.
    replace (e1 + 1074) with ((e1 - e0) + (e0 + 1074)) by lia.
    replace (e2 + 1074) with ((e2 - e0) + (e0 + 1074)) by lia.
    assert (He0 : e0 <= e1 /\ e0 <= e2 /\ -1074 <= e0) by (unfold e0; lia).
    rewrite (Z.pow_add_r 2 (e1 - e0)), (Z.pow_add_r 2 (e2 - e0)) by lia.
    rewrite !Z.mul_assoc.
    assert (Hs : forall s a, cond_Zopp s (a * 2 ^ (e0 + 1074))
                             = cond_Zopp s a * 2 ^ (e0 + 1074))
      by (intros [] a; simpl; lia).
    rewrite !Hs. symmetry. apply Z_mul_compare_r. exact Hp.
Qed.

Lemma compare_rank x y :
  is_nan x = false -> is_nan y = false ->
  SFcompare (Prim2SF x) (Prim2SF y) = Some (rank (Prim2SF x) ?= rank (Prim2SF y)).
Proof.
  intros Hx Hy. apply SFcompare_rank; auto using Prim2SF_valid, not_nan_Prim2SF.
Qed.

Lemma leb_not_nan x y : (x <=? y)%float = true -> is_nan x = false /\ is_nan y = false.
Proof.
  rewrite FloatAxioms.leb_spec. unfold SFleb.
  destruct (is_nan x) eqn:Ex, (is_nan y) eqn:Ey; auto.
  - apply is_nan_Prim2SF in Ex. rewrite Ex. discriminate.
  - apply is_nan_Prim2SF in Ex. rewrite Ex. discriminate.
  - apply is_nan_Prim2SF in Ey. rewrite Ey. destruct (Prim2SF x); discriminate.
Qed.

Lemma leb_rank x y :
  (x <=? y)%float = true
  <-> is_nan x = false /\ is_nan y = false /\ rank (Prim2SF x) <= rank (Prim2SF y).
Proof.
  split.
  - intros H. destruct (leb_not_nan _ _ H) as [Hx Hy]. split; [|split]; auto.
    rewrite FloatAxioms.leb_spec in H. unfold SFleb in H.
    rewrite compare_rank in H by assumption.
    destruct (Z.compare_spec (rank (Prim2SF x)) (rank (Prim2SF y))); try lia; discriminate.
  - intros (Hx & Hy & H). rewrite FloatAxioms.leb_spec. unfold SFleb.
    rewrite compare_rank by assumption.
    destruct (Z.compare_spec (rank (Prim2SF x)) (rank (Prim2SF y))); auto; lia.
Qed.

Lemma ltb_rank x y :
  (x <? y)%float = true
  <-> is_nan x = false /\ is_nan y = false /\ rank (Prim2SF x) < rank (Prim2SF y).
Proof.
  rewrite FloatAxioms.ltb_spec. unfold SFltb. split.
  - intros H.
    assert (Hx : is_nan x = false).
    { destruct (is_nan x) eqn:E; auto. apply is_nan_Prim2SF in E. rewrite E in H. discriminate. }
    assert (Hy : is_nan y = false).
    { destruct (is_nan y) eqn:E; auto. apply is_nan_Prim2SF in E. rewrite E in H.
      destruct (Prim2SF x); discriminate. }
    split; [|split]; auto. rewrite compare_rank in H by assumption.
    destruct (Z.compare_spec (rank (Prim2SF x)) (rank (Prim2SF y))); try lia; discriminate.
  - intros (Hx & Hy & H). rewrite compare_rank by assumption.
    destruct (Z.compare_spec (rank (Prim2SF x)) (rank (Prim2SF y))); auto; lia.
Qed.

Lemma eqb_rank x y :
  (x =? y)%float = true
  <-> is_nan x = false /\ is_nan y = false /\ rank (Prim2SF x) = rank (Prim2SF y).
Proof.
  rewrite FloatAxioms.eqb_spec. unfold SFeqb. split.
  - intros H.
    assert (Hx : is_nan x = false).
    { destruct (is_nan x) eqn:E; auto. apply is_nan_Prim2SF in E. rewrite E in H. discriminate. }
    assert (Hy : is_nan y = false).
    { destruct (is_nan y) eqn:E; auto. apply is_nan_Prim2SF in E. rewrite E in H.
      destruct (Prim2SF x); discriminate. }
    split; [|split]; auto. rewrite compare_rank in H by assumption.
    destruct (Z.compare_spec (rank (Prim2SF x)) (rank (Prim2SF y))); try lia; discriminate.
  - intros (Hx & Hy & H). rewrite compare_rank by assumption.
    destruct (Z.compare_spec (rank (Prim2SF x)) (rank (Prim2SF y))); auto; lia.
Qed.

Lemma leb_trans x y z :
  (x <=? y)%float = true -> (y <=? z)%float = true -> (x <=? z)%float = true.
Proof. rewrite !leb_rank. intros (? & ? & ?) (? & ? & ?). repeat split; auto; lia. Qed.

Lemma leb_total x y :
  is_nan x = false -> is_nan y = false ->
  (x <=? y)%float = true \/ (y <=? x)%float = true.
Proof.
  intros Hx Hy. rewrite !leb_rank.
  destruct (Z.le_ge_cases (rank (Prim2SF x)) (rank (Prim2SF y))); auto.
Qed.

Lemma leb_antisym x y :
  (x <=? y)%float = true -> (y <=? x)%float = true -> (x =? y)%float = true.
Proof. rewrite !leb_rank, eqb_rank. intros (? & ? & ?) (? & ? & ?). repeat split; auto; lia. Qed.
End Order.

Section Signs.
Implicit Types (f : spec_float) (x y : number) (s : bool).

Lemma binary_round_aux_signed s (n : Z) e (l : location) :
  signed s (binary_round_aux prec emax s n e l).
Proof.
  unfold binary_round_aux.
  destruct (shr_fexp prec emax n e l) as [mrs' e'].
  destruct (shr_fexp prec emax _ e' loc_Exact) as [mrs'' e''].
  destruct (shr_m mrs''); simpl; auto.
  destruct (e'' <=? emax - prec); reflexivity.
Qed.

Lemma binary_round_signed s m e : signed s (binary_round prec emax s m e).
Proof.
  unfold binary_round. destruct (shl_align m e _).
  apply binary_round_aux_signed.
Qed.

Lemma binary_normalize_signed (n : Z) e :
  0 <= n -> signed false (binary_normalize prec emax n e false).
Proof.
  intros Hn. destruct n as [|p|p]; simpl; [reflexivity| |lia].
  apply binary_round_signed.
Qed.

Lemma SFmul_signed s1 s2 f1 f2 :
  signed s1 f1 -> signed s2 f2 -> signed (xorb s1 s2) (SF64mul f1 f2).
Proof.
  unfold SF64mul, SFmul.
  destruct f1 as [s|s| |s m e], f2 as [s'|s'| |s' m' e']; simpl; try tauto;
    try (intros -> ->; reflexivity).
  intros -> ->. apply binary_round_aux_signed.
Qed.

Lemma SFdiv_signed s1 s2 f1 f2 :
  signed s1 f1 -> signed s2 f2 -> signed (xorb s1 s2) (SF64div f1 f2).
Proof.
  unfold SF64div, SFdiv.
  destruct f1 as [s|s| |s m e], f2 as [s'|s'| |s' m' e']; simpl; try tauto;
    try (intros -> ->; reflexivity).
  intros -> ->.
  destruct (SFdiv_core_binary prec emax (Z.pos m) e (Z.pos m') e') as [[mz ez] lz].
  apply binary_round_aux_signed.
Qed.

(** A sum with a term that is not negative is not [-0]. *)
Lemma SFadd_not_neg_zero f1 f2 :
  valid_binary f1 = true -> valid_binary f2 = true ->
  signed false f1 -> SF64add f1 f2 <> S754_zero true.
Proof.
  unfold SF64add, SFadd. intros V1 V2.
  destruct f1 as [s|s| |s m e], f2 as [s'|s'| |s' m' e']; simpl; try discriminate;
    try (intros ->; try destruct s'; discriminate).
  intros ->.
  destruct (valid_finite _ _ _ V1) as (He & _), (valid_finite _ _ _ V2) as (He' & _).
  set (n := _ + _). unfold binary_normalize.
  destruct n as [|p|p]; [discriminate| |].
  - destruct (binary_round_sign false p (Z.min e e')) as [(m1 & e1 & ->)| ->];
      [lia|discriminate|discriminate].
  - destruct (binary_round_sign true p (Z.min e e')) as [(m1 & e1 & ->)| ->];
      [lia|discriminate|discriminate].
Qed.

Lemma SFsqrt_signed f : f <> S754_zero true -> signed false (SF64sqrt f).
Proof.
  unfold SF64sqrt, SFsqrt. destruct f as [[]|[]| |[] m e]; simpl; try tauto.
  intros _. destruct (SFsqrt_core_binary prec emax (Z.pos m) e) as [[mz ez] lz].
  apply binary_round_aux_signed.
Qed.

Lemma get_sign_Prim2SF x :
  get_sign x = match Prim2SF x with
               | S754_nan => false
               | S754_zero s | S754_infinity s | S754_finite s _ _ => s
               end.
Proof.
  unfold get_sign, is_zero.
  rewrite FloatAxioms.eqb_spec.
  change (Prim2SF zero) with (S754_zero false).
  destruct (Prim2SF x) as [s|s| |s m e] eqn:E.
  - change (SFeqb (S754_zero s) (S754_zero false)) with true. cbv iota.
    rewrite FloatAxioms.ltb_spec, div_spec, E.
    change (Prim2SF one) with (S754_finite false 4503599627370496 (-52)).
    change (Prim2SF zero) with (S754_zero false).
    now destruct s.
  - replace (SFeqb (S754_infinity s) (S754_zero false)) with false by now destruct s.
    rewrite FloatAxioms.ltb_spec, E. change (Prim2SF zero) with (S754_zero false).
    now destruct s.
  - change (SFeqb S754_nan (S754_zero false)) with false. cbv iota.
    rewrite FloatAxioms.ltb_spec, E. reflexivity.
  - replace (SFeqb (S754_finite s m e) (S754_zero false)) with false by now destruct s.
    rewrite FloatAxioms.ltb_spec, E. change (Prim2SF zero) with (S754_zero false).
    now destruct s.
Qed.

Lemma get_sign_signed x : get_sign x = false <-> signed false (Prim2SF x).
Proof. rewrite get_sign_Prim2SF. destruct (Prim2SF x); simpl; tauto. Qed.

Lemma get_sign_not_below_0 x : get_sign x = false -> (x <? 0)%float = false.
Proof.
  rewrite get_sign_Prim2SF, FloatAxioms.ltb_spec.
  change (Prim2SF 0) with (S754_zero false).
  destruct (Prim2SF x) as [s|s| |s m e]; try (intros ->); reflexivity.
Qed.

Lemma SF2Prim_signed f : signed false f -> signed false (Prim2SF (SF2Prim f)).
Proof.
  destruct f as [s|s| |s m e]; simpl; try (intros ->); try reflexivity.
  rewrite Z_ldexp_spec, of_uint63_spec.
  pose proof (Uint63.to_Z_bounded (Uint63.of_Z (Z.pos m))) as [Hb _].
  pose proof (binary_normalize_signed _ 0 Hb) as Hs.
  destruct (binary_normalize prec emax _ 0 false) as [s'|s'| |s' m' e']; simpl in *; auto.
  subst s'. apply binary_round_signed.
Qed.

Lemma round_half_up_nonneg m e : 0 <= round_half_up false m e.
Proof.
  unfold round_half_up. simpl cond_Zopp. destruct (0 <=? e) eqn:E.
  - apply Z.leb_le in E. apply Z.mul_nonneg_nonneg; [lia|]. now apply Z.pow_nonneg.
  - apply Z.leb_gt in E. apply Z.div_pos.
    + assert (0 < 2 ^ (- e)) by (apply Z.pow_pos_nonneg; lia). lia.
    + apply Z.pow_pos_nonneg; lia.
Qed.

Lemma Math_round_sign x : get_sign x = false -> get_sign (Math_round x) = false.
Proof.
  intros Hx. unfold Math_round.
  destruct (Prim2SF x) as [s|s| |s m e] eqn:E; try exact Hx.
  assert (s = false) as -> by (rewrite get_sign_Prim2SF, E in Hx; exact Hx).
  unfold signed_integer. destruct (round_half_up false m e =? 0); [reflexivity|].
  apply get_sign_signed. unfold number_of_Z.
  apply SF2Prim_signed, binary_normalize_signed, round_half_up_nonneg.
Qed.

Lemma mul_sign x y : get_sign x = false -> get_sign y = false -> get_sign (x * y) = false.
Proof.
  rewrite !get_sign_signed, mul_spec. apply (SFmul_signed false false).
Qed.

Lemma div_sign x y : get_sign x = false -> get_sign y = false -> get_sign (x / y) = false.
Proof.
  rewrite !get_sign_signed, div_spec. apply (SFdiv_signed false false).
Qed.

Lemma square_sign x : get_sign (x * x) = false.
Proof.
  rewrite get_sign_signed, mul_spec.
  destruct (Prim2SF x) as [s|s| |s m e] eqn:E.
  - replace false with (xorb s s) by now destruct s.
    now apply SFmul_signed.
  - replace false with (xorb s s) by now destruct s.
    now apply SFmul_signed.
  - reflexivity.
  - replace false with (xorb s s) by now destruct s.
    now apply SFmul_signed.
Qed.

(** The square root of [a = x * x + q] has no sign. *)
Lemma sqrt_haversine_sign x q : get_sign (Math_sqrt (x * x + q)) = false.
Proof.
  unfold Math_sqrt. rewrite get_sign_signed, sqrt_spec, add_spec.
  apply SFsqrt_signed, SFadd_not_neg_zero; try apply Prim2SF_valid.
  apply get_sign_signed, square_sign.
Qed.
End Signs.

(** ** NaN *)

Section NaN.
Local Open Scope float_scope.

Lemma leb_nan_l (x y : number) : is_nan x = true -> (x <=? y) = false.
Proof.
  intros H. destruct (x <=? y) eqn:E; [|reflexivity].
  apply leb_not_nan in E as [E _]. congruence.
Qed.

Lemma leb_nan_r (x y : number) : is_nan y = true -> (x <=? y) = false.
Proof.
  intros H. destruct (x <=? y) eqn:E; [|reflexivity].
  apply leb_not_nan in E as [_ E]. congruence.
Qed.

(** NaN is within no tolerance of any number. *)
Lemma within_relative_tolerance_nan (tol y : number) :
  within_relative_tolerance tol nan y = false.
Proof.
  unfold within_relative_tolerance. apply leb_nan_l.
  apply is_nan_Prim2SF. rewrite abs_spec, FloatAxioms.sub_spec.
  change (Prim2SF nan) with S754_nan. reflexivity.
Qed.
End NaN.
(** * Arrays *)

Section ArrayFacts.
Context {A : Type}.
Implicit Types (l : list A) (comparefn : A -> A -> number).

Lemma sort_insert_Permutation comparefn x l :
  Permutation (sort_insert comparefn x l) (x :: l).
Proof.
  induction l as [|y l IH]; simpl; [reflexivity|].
  destruct (_ <? _)%float; [|reflexivity].
  rewrite IH. apply perm_swap.
Qed.

Lemma Array_sort_Permutation comparefn l :
  Permutation (Array_sort comparefn l) l.
Proof.
  induction l as [|x l IH]; simpl; [reflexivity|].
  rewrite sort_insert_Permutation. now constructor.
Qed.

Lemma Array_sort_length comparefn l :
  length (Array_sort comparefn l) = length l.
Proof. apply Permutation_length, Array_sort_Permutation. Qed.

Lemma firstn_min_length n l : firstn (Nat.min n (length l)) l = firstn n l.
Proof.
  destruct (Nat.le_gt_cases n (length l)) as [Hn|Hn].
  - now rewrite Nat.min_l.
  - rewrite Nat.min_r by lia. rewrite firstn_all.
    symmetry. apply firstn_all2. lia.
Qed.

(** [slice(0, k)] keeps the first [k] entries when [k] is not negative... *)
Lemma Array_slice_first k l :
  (0 <= k)%Z -> Array_slice 0 k l = firstn (Z.to_nat k) l.
Proof.
  intros Hk. unfold Array_slice, relative_index.
  destruct (Z.ltb_spec k 0); [lia|]. simpl (0 <? 0)%Z. cbv iota.
  rewrite (Z.min_l 0) by lia. simpl (Z.to_nat 0). rewrite skipn_O, Z.sub_0_r.
  rewrite <- (firstn_min_length (Z.to_nat k)). f_equal. lia.
Qed.

(** ... and drops the last [-k] entries when it is. *)
Lemma Array_slice_drop_last k l :
  (k < 0)%Z -> Array_slice 0 k l = firstn (length l - Z.to_nat (- k)) l.
Proof.
  intros Hk. unfold Array_slice, relative_index.
  destruct (Z.ltb_spec k 0); [|lia]. simpl (0 <? 0)%Z. cbv iota.
  rewrite (Z.min_l 0) by lia. simpl (Z.to_nat 0). rewrite skipn_O, Z.sub_0_r.
  f_equal. lia.
Qed.

Lemma Array_slice_length_le start end_ l :
  (length (Array_slice start end_ l) <= length l)%nat.
Proof.
  unfold Array_slice. rewrite length_firstn, length_skipn. lia.
Qed.

Lemma Array_slice_nil start end_ : Array_slice start end_ (@nil A) = [].
Proof. unfold Array_slice. simpl. now rewrite skipn_nil, firstn_nil. Qed.
End ArrayFacts.

(** * The ranking *)

Section RankingFacts.
Context {Shop : Type}.
Variable mk : Element -> Shop.
Variable distance : Shop -> number.

Let sorted (elements : list Element) : list Shop :=
  Array_sort (by_distance distance) (map mk elements).

Lemma sorted_length elements : length (sorted elements) = length elements.
Proof. unfold sorted. now rewrite Array_sort_length, length_map. Qed.

Lemma nearest_of_first elements k :
  (0 <= k)%Z ->
  nearest_of mk distance elements k = firstn (Z.to_nat k) (sorted elements).
Proof. intros Hk. unfold nearest_of. now apply Array_slice_first. Qed.

Lemma nearest_of_length elements k :
  (0 <= k)%Z ->
  Z.of_nat (length (nearest_of mk distance elements k))
  = Z.min k (Z.of_nat (length elements)).
Proof.
  intros Hk. rewrite nearest_of_first by assumption.
  rewrite length_firstn, sorted_length. lia.
Qed.

Lemma nearest_of_length_le elements k :
  (length (nearest_of mk distance elements k) <= length elements)%nat.
Proof.
  unfold nearest_of.
  etransitivity; [apply Array_slice_length_le|].
  fold (sorted elements). now rewrite sorted_length.
Qed.

Lemma nearest_of_nil k : nearest_of mk distance [] k = [].
Proof. unfold nearest_of. simpl. apply Array_slice_nil. Qed.

(** With no guard on [k], a negative [k] is an index from the end. *)
Lemma nearest_of_nonpositive elements k :
  (k <= 0)%Z ->
  nearest_of mk distance elements k = []
  <-> (k = 0 \/ Z.of_nat (length elements) <= - k)%Z.
Proof.
  intros Hk. unfold nearest_of. fold (sorted elements).
  destruct (Z.eq_dec k 0) as [->|Hne].
  - rewrite Array_slice_first by lia. simpl. split; [now left|reflexivity].
  - rewrite Array_slice_drop_last by lia.
    rewrite <- (sorted_length elements).
    generalize (sorted elements). intros l.
    split.
    + intros E. apply (f_equal (@length _)) in E.
      rewrite length_firstn in E. simpl in E. lia.
    + intros Hl. replace (length l - Z.to_nat (- k))%nat with 0%nat by lia.
      reflexivity.
Qed.
End RankingFacts.

(** * Sorting by distance *)

Ltac reassociate :=
  repeat (rewrite <- app_assoc || rewrite <- app_comm_cons); reflexivity.

Section ListFacts.
Context {A : Type}.
Implicit Types (l : list A) (P : A -> bool).

Lemma filter_app_inv P l f1 f2 :
  List.filter P l = f1 ++ f2 ->
  exists l1 l2, l = l1 ++ l2 /\ List.filter P l1 = f1 /\ List.filter P l2 = f2.
Proof.
  revert f1. induction l as [|x l IH]; intros f1 E; simpl in E.
  - symmetry in E. apply app_eq_nil in E as [-> ->]. now exists [], [].
  - destruct (P x) eqn:Px.
    + destruct f1 as [|y f1]; simpl in E.
      * exists [], (x :: l). simpl. now rewrite Px.
      * injection E as <- E. destruct (IH _ E) as (l1 & l2 & -> & H1 & H2).
        exists (x :: l1), l2. simpl. rewrite Px, H1. auto.
    + destruct (IH _ E) as (l1 & l2 & -> & H1 & H2).
      exists (x :: l1), l2. simpl. rewrite Px. auto.
Qed.

Lemma before_filter_inv P a b l : before a b (List.filter P l) -> before a b l.
Proof.
  intros (f1 & f2 & f3 & E).
  apply filter_app_inv in E as (l1 & r1 & -> & _ & E).
  apply (filter_app_inv P r1 [a]) in E as (k1 & r2 & -> & Ha & E).
  apply filter_app_inv in E as (l2 & r3 & -> & _ & E).
  apply (filter_app_inv P r3 [b]) in E as (k2 & l3 & -> & Hb & _).
  assert (Hin : forall c k, List.filter P k = [c] -> exists k' k'', k = k' ++ c :: k'').
  { intros c k Hk. apply in_split. apply (filter_In P). rewrite Hk. now left. }
  destruct (Hin _ _ Ha) as (p1 & p2 & ->), (Hin _ _ Hb) as (q1 & q2 & ->).
  exists (l1 ++ p1), (p2 ++ l2 ++ q1), (q2 ++ l3).
  reassociate.
Qed.

Lemma before_filter P a b l :
  P a = true -> P b = true -> before a b l -> before a b (List.filter P l).
Proof.
  intros Pa Pb (l1 & l2 & l3 & ->).
  exists (List.filter P l1), (List.filter P l2), (List.filter P l3).
  rewrite List.filter_app. simpl. rewrite Pa, List.filter_app. simpl. now rewrite Pb.
Qed.

Lemma before_prefix a b l l' : l `prefix_of` l' -> before a b l -> before a b l'.
Proof.
  intros [r ->] (l1 & l2 & l3 & ->).
  exists l1, l2, (l3 ++ r). reassociate.
Qed.

Lemma filter_firstn_prefix P n l :
  List.filter P (firstn n l) `prefix_of` List.filter P l.
Proof.
  exists (List.filter P (skipn n l)).
  now rewrite <- List.filter_app, firstn_skipn.
Qed.

(** [slice(0, k)] is a prefix, whatever [k] is. *)
Lemma Array_slice_0_firstn k l :
  Array_slice 0 k l
  = firstn (Z.to_nat (relative_index (Z.of_nat (length l)) k)) l.
Proof.
  unfold Array_slice.
  replace (relative_index (Z.of_nat (length l)) 0) with 0%Z
    by (unfold relative_index; simpl; lia).
  now rewrite Z.sub_0_r.
Qed.
End ListFacts.

Section SortFacts.
Context {Shop : Type}.
Variable distance : Shop -> number.
Implicit Types (a b x y : Shop) (l : list Shop) (d : number).
Local Open Scope float_scope.

Let ordered (a b : Shop) : Prop := (distance a <=? distance b) = true.
Let not_nan (a : Shop) : Prop := is_nan (distance a) = false.

(** What [sort] asks of the comparator: is [a] strictly below [b]? *)
Lemma SortCompare_by_distance a b :
  not_nan a -> not_nan b ->
  (SortCompare (by_distance distance) a b <? 0) = (distance a <? distance b).
Proof.
  intros Ha Hb. unfold SortCompare, by_distance.
  rewrite <- (ltb_sub_0 (distance a) (distance b)) by assumption.
  destruct (is_nan (distance a - distance b)) eqn:E; [|reflexivity].
  now rewrite (ltb_nan_l (distance a - distance b)) by assumption.
Qed.

Lemma sort_insert_HdRel a x l :
  ordered a x -> HdRel ordered a l ->
  HdRel ordered a (sort_insert (by_distance distance) x l).
Proof.
  intros Hax Hl. destruct l as [|y l]; simpl; [now constructor|].
  destruct (_ <? _); constructor; [now inversion Hl | assumption].
Qed.

Lemma sort_insert_Sorted x l :
  not_nan x -> Forall not_nan l ->
  Sorted ordered l -> Sorted ordered (sort_insert (by_distance distance) x l).
Proof.
  intros Hx Hl Hs. induction l as [|y l IH]; simpl.
  - repeat constructor.
  - apply Forall_cons_iff in Hl as [Hy Hl]. apply Sorted_inv in Hs as [Hs Hhd].
    rewrite SortCompare_by_distance by assumption.
    destruct (distance y <? distance x) eqn:E.
    + constructor; [now apply IH|].
      apply sort_insert_HdRel; [|assumption].
      unfold ordered. rewrite leb_not_ltb by assumption.
      now rewrite (ltb_asym _ _ E).
    + constructor; [now constructor|]. constructor.
      unfold ordered. rewrite leb_not_ltb by assumption. now rewrite E.
Qed.

Lemma Array_sort_Sorted l :
  Forall not_nan l -> Sorted ordered (Array_sort (by_distance distance) l).
Proof.
  induction l as [|x l IH]; intros Hl; simpl; [constructor|].
  apply Forall_cons_iff in Hl as [Hx Hl].
  apply sort_insert_Sorted; [assumption| |now apply IH].
  eapply Permutation_Forall; [|exact Hl].
  symmetry. apply Array_sort_Permutation.
Qed.

Lemma Sorted_ascending l : Sorted ordered l -> ascending (map distance l).
Proof.
  intros Hs i. revert l Hs. induction i as [|i IH]; intros l Hs a b Ha Hb.
  - destruct l as [|x [|y l]]; try discriminate. simpl in Ha, Hb.
    injection Ha as <-. injection Hb as <-.
    apply Sorted_inv in Hs as [_ Hhd]. now inversion Hhd.
  - destruct l as [|x l]; [discriminate|].
    apply Sorted_inv in Hs as [Hs _]. exact (IH l Hs a b Ha Hb).
Qed.

Lemma ascending_firstn n (l : list number) : ascending l -> ascending (firstn n l).
Proof.
  intros Hl i a b Ha Hb.
  apply lookup_take_Some in Ha as [Ha _]. apply lookup_take_Some in Hb as [Hb _].
  exact (Hl i a b Ha Hb).
Qed.

(** Stability: inserting does not change the order among the entries at
    one distance. *)
Lemma sort_insert_at_distance d x l :
  at_distance distance d (sort_insert (by_distance distance) x l)
  = at_distance distance d (x :: l).
Proof.
  unfold at_distance. induction l as [|y l IH]; [reflexivity|].
  simpl sort_insert.
  destruct (SortCompare (by_distance distance) y x <? 0) eqn:E; [|reflexivity].
  simpl List.filter in *. rewrite IH.
  destruct (distance x =? d) eqn:Ex, (distance y =? d) eqn:Ey; try reflexivity.
  exfalso.
  destruct (eqb_not_nan _ _ Ex) as [Hx _], (eqb_not_nan _ _ Ey) as [Hy _].
  rewrite SortCompare_by_distance in E by assumption.
  rewrite (eqb_eqb_not_ltb _ _ _ Ex Ey) in E. discriminate E.
Qed.

Lemma Array_sort_at_distance d l :
  at_distance distance d (Array_sort (by_distance distance) l)
  = at_distance distance d l.
Proof.
  induction l as [|x l IH]; [reflexivity|].
  simpl Array_sort. rewrite sort_insert_at_distance.
  unfold at_distance in *. simpl. now rewrite IH.
Qed.

Variable mk : Element -> Shop.

Lemma nearest_of_ascending elements k :
  Forall (fun c => is_nan (distance (mk c)) = false) elements ->
  ascending (map distance (nearest_of mk distance elements k)).
Proof.
  intros Hn. unfold nearest_of. rewrite Array_slice_0_firstn, <- firstn_map.
  apply ascending_firstn, Sorted_ascending, Array_sort_Sorted.
  now apply Forall_map.
Qed.

Lemma nearest_of_at_distance elements k d :
  at_distance distance d (nearest_of mk distance elements k)
  `prefix_of` at_distance distance d (map mk elements).
Proof.
  unfold nearest_of. rewrite Array_slice_0_firstn.
  rewrite <- (Array_sort_at_distance d (map mk elements)).
  apply filter_firstn_prefix.
Qed.

Lemma nearest_of_stable elements k a b :
  (distance a =? distance b) = true ->
  before a b (nearest_of mk distance elements k) ->
  before a b (map mk elements).
Proof.
  intros E Hb.
  destruct (eqb_not_nan _ _ E) as [_ Hnb].
  apply (before_filter_inv (fun s => distance s =? distance b)).
  eapply before_prefix; [apply (nearest_of_at_distance elements k)|].
  apply before_filter; [exact E| |exact Hb].
  unfold is_nan in Hnb. now apply negb_false_iff in Hnb.
Qed.
End SortFacts.

(** * The ranked shops among the candidates *)

Section NearestFacts.
Context {Shop : Type}.
Variable mk : Element -> Shop.
Variable distance : Shop -> number.
Implicit Types (a b : Shop) (l : list Shop).
Local Open Scope float_scope.

Let ordered (a b : Shop) : Prop := (distance a <=? distance b) = true.
Let nearer (a b : Shop) : Prop := (distance a <? distance b) = true.
Let apart (a b : Shop) : Prop := (distance a =? distance b) = false.

(** The candidates, sorted, are the ranked ones followed by the others. *)
Lemma nearest_of_rest elements k :
  (0 <= k)%Z ->
  Array_sort (by_distance distance) (map mk elements)
  = nearest_of mk distance elements k
    ++ skipn (Z.to_nat k) (Array_sort (by_distance distance) (map mk elements)).
Proof.
  intros Hk. rewrite nearest_of_first by assumption. symmetry. apply firstn_skipn.
Qed.

Lemma nearest_of_Permutation elements k :
  (0 <= k)%Z ->
  exists rest, Permutation (map mk elements) (nearest_of mk distance elements k ++ rest).
Proof.
  intros Hk. eexists. rewrite <- nearest_of_rest by assumption.
  symmetry. apply Array_sort_Permutation.
Qed.

Lemma ordered_trans a b c : ordered a b -> ordered b c -> ordered a c.
Proof. apply leb_trans. Qed.

Lemma Sorted_ordered_app l1 l2 a b :
  Sorted ordered (l1 ++ l2) -> In a l1 -> In b l2 -> ordered a b.
Proof.
  intros Hs%Sorted_StronglySorted; [|exact ordered_trans].
  induction l1 as [|x l1 IH]; simpl in *; [tauto|].
  apply StronglySorted_inv in Hs as [Hs Hx].
  intros [->|Ha] Hb.
  - rewrite List.Forall_forall in Hx. apply Hx, in_or_app. now right.
  - now apply IH.
Qed.

Lemma nearest_of_nearest elements k :
  (0 <= k)%Z ->
  Forall (fun c => is_nan (distance (mk c)) = false) elements ->
  exists rest,
    Permutation (map mk elements) (nearest_of mk distance elements k ++ rest)
    /\ forall a b, In a (nearest_of mk distance elements k) -> In b rest ->
                   (distance a <=? distance b) = true.
Proof.
  intros Hk Hnan.
  exists (skipn (Z.to_nat k) (Array_sort (by_distance distance) (map mk elements))).
  split.
  - rewrite <- nearest_of_rest by assumption. symmetry. apply Array_sort_Permutation.
  - intros a b. apply Sorted_ordered_app.
    rewrite <- nearest_of_rest by assumption.
    apply Array_sort_Sorted. now rewrite List.Forall_map.
Qed.

(** ** Without ties the order of the candidates does not matter *)

Lemma apart_sym a b : apart a b -> apart b a.
Proof.
  unfold apart. intros H. destruct (distance b =? distance a) eqn:E; [|reflexivity].
  apply eqb_rank in E as (? & ? & E). rewrite <- H. symmetry. apply eqb_rank. auto.
Qed.

Lemma ForallOrdPairs_Forall l a :
  ForallOrdPairs apart (a :: l) -> Forall (apart a) l.
Proof. intros H. now inversion H. Qed.

Lemma ForallOrdPairs_Permutation l l' :
  Permutation l l' -> ForallOrdPairs apart l -> ForallOrdPairs apart l'.
Proof.
  induction 1 as [|x l l' Hp IH|x y l|l l' l'' _ IH1 _ IH2]; intros H.
  - constructor.
  - inversion H as [|? ? Hx Hl]; subst. constructor; [|now apply IH].
    eapply Permutation_Forall; eassumption.
  - inversion H as [|? ? Hy Hl]; subst. inversion Hl as [|? ? Hx Hl']; subst.
    inversion Hy as [|? ? Hyx Hyl]; subst.
    constructor; [constructor; [now apply apart_sym|assumption]|].
    constructor; assumption.
  - auto.
Qed.

Lemma ordered_apart_nearer a b : ordered a b -> apart a b -> nearer a b.
Proof.
  unfold ordered, apart, nearer. intros Hle Hne.
  apply leb_rank in Hle as (Ha & Hb & Hle).
  apply ltb_rank. repeat split; auto.
  destruct (Z.eq_dec (rank (Prim2SF (distance a))) (rank (Prim2SF (distance b)))) as [E|E];
    [|lia].
  assert (Heq : (distance a =? distance b) = true) by (apply eqb_rank; auto).
  congruence.
Qed.

Lemma StronglySorted_nearer l :
  Sorted ordered l -> ForallOrdPairs apart l -> StronglySorted nearer l.
Proof.
  intros Hs%Sorted_StronglySorted; [|exact ordered_trans].
  induction Hs as [|a l Hs IH Ha]; intros Hp; constructor.
  - apply IH. now inversion Hp.
  - apply ForallOrdPairs_Forall in Hp.
    rewrite List.Forall_forall in *. intros b Hb.
    apply ordered_apart_nearer; auto.
Qed.

Lemma nearer_asym a b : nearer a b -> nearer b a -> False.
Proof.
  unfold nearer. intros (_ & _ & H1)%ltb_rank (_ & _ & H2)%ltb_rank. lia.
Qed.

Lemma StronglySorted_nearer_unique l l' :
  StronglySorted nearer l -> StronglySorted nearer l' -> Permutation l l' -> l = l'.
Proof.
  intros Hl. revert l'. induction Hl as [|a l Hl IH Ha]; intros l' Hl' Hp.
  - now apply Permutation_nil in Hp.
  - destruct Hl' as [|b l' Hl' Hb].
    + symmetry in Hp. now apply Permutation_nil in Hp.
    + assert (E : a = b).
      { assert (Ia : In a (b :: l')) by (eapply Permutation_in; [exact Hp|now left]).
        assert (Ib : In b (a :: l)).
        { eapply Permutation_in; [symmetry; exact Hp|now left]. }
        destruct Ia as [->|Ia]; [reflexivity|].
        destruct Ib as [->|Ib]; [reflexivity|].
        rewrite List.Forall_forall in Ha, Hb.
        destruct (nearer_asym a b); auto. }
      subst b. f_equal. apply IH; [assumption|].
      now apply Permutation_cons_inv in Hp.
Qed.

Lemma nearest_of_order_free elements elements' k :
  Permutation elements elements' ->
  Forall (fun c => is_nan (distance (mk c)) = false) elements ->
  ForallOrdPairs (fun c c' => (distance (mk c) =? distance (mk c')) = false) elements ->
  nearest_of mk distance elements k = nearest_of mk distance elements' k.
Proof.
  intros Hp Hnan Hap. unfold nearest_of. f_equal.
  assert (Hm : Permutation (map mk elements) (map mk elements')) by now apply Permutation_map.
  assert (Hap' : ForallOrdPairs apart (map mk elements)).
  { clear -Hap. induction Hap as [|c l Hc Hl IH]; simpl; constructor; [|assumption].
    now rewrite List.Forall_map. }
  assert (Hnan' : Forall (fun s => is_nan (distance s) = false) (map mk elements))
    by now rewrite List.Forall_map.
  apply StronglySorted_nearer_unique.
  - apply StronglySorted_nearer; [now apply Array_sort_Sorted|].
    eapply ForallOrdPairs_Permutation; [|exact Hap']. symmetry. apply Array_sort_Permutation.
  - apply StronglySorted_nearer.
    + apply Array_sort_Sorted. eapply Permutation_Forall; eassumption.
    + eapply ForallOrdPairs_Permutation; [|exact Hap'].
      rewrite Hm. symmetry. apply Array_sort_Permutation.
  - rewrite !Array_sort_Permutation. exact Hm.
Qed.
End NearestFacts.

Section TwoShops.
Context {Shop : Type}.

(** Two numbers of which one is NaN are in ascending order in neither
    order. *)
Lemma not_ascending_nan (distance : Shop -> number) (a b : Shop) (l : list Shop) :
  is_nan (distance a) = true -> Permutation l [a; b] ->
  ~ ascending (map distance l).
Proof.
  intros Hnan Hp Hasc. symmetry in Hp.
  apply Permutation_length_2_inv in Hp as [->| ->].
  - specialize (Hasc 0%nat (distance a) (distance b) eq_refl eq_refl).
    now rewrite leb_nan_l in Hasc.
  - specialize (Hasc 0%nat (distance b) (distance a) eq_refl eq_refl).
    now rewrite leb_nan_r in Hasc.
Qed.

(** Two shops are both listed, in the order that [sort] leaves them in. *)
Lemma nearest_of_two (mk : Element -> Shop) (distance : Shop -> number)
    (c1 c2 : Element) :
  Permutation (nearest_of mk distance [c1; c2] 5) [mk c1; mk c2].
Proof.
  rewrite nearest_of_first by lia.
  rewrite firstn_all2 by (rewrite Array_sort_length; simpl; lia).
  apply Array_sort_Permutation.
Qed.
End TwoShops.

(** * The heap *)

Section HeapFacts.
Context {Shop : Type}.
Implicit Types (h : heap Shop) (o : object Shop) (ss : list Shop).

Lemma preserved_app h h' : preserved h (h ++ h').
Proof. intros r o Hr. now apply lookup_app_l_Some. Qed.

Lemma lookup_new h o h' : (h ++ o :: h') !! length h = Some o.
Proof. now apply list_lookup_middle. Qed.

Lemma lookup_old_is_not_new h r o : h !! r = Some o -> r <> length h.
Proof. intros Hr%lookup_lt_Some. lia. Qed.

Lemma map_array_run (f : Element -> Shop) r es h :
  h !! r = Some (ElementArray es) ->
  map_array f r h = Some (length h, h ++ [ShopArray (map f es)]).
Proof. intros Hr. unfold map_array. now rewrite Hr. Qed.

(** Sorting the array that was allocated last touches nothing else. *)
Lemma sort_array_run_last comparefn ss h :
  sort_array comparefn (length h) (h ++ [ShopArray ss])
  = Some (length h, h ++ [ShopArray (Array_sort comparefn ss)]).
Proof.
  unfold sort_array. rewrite lookup_new.
  rewrite insert_app_r_alt by lia.
  now rewrite Nat.sub_diag.
Qed.

Lemma slice_array_run start end_ r ss h :
  h !! r = Some (ShopArray ss) ->
  slice_array start end_ r h
  = Some (length h, h ++ [ShopArray (Array_slice start end_ ss)]).
Proof. intros Hr. unfold slice_array. now rewrite Hr. Qed.

(** The ranking expression on the heap: it leaves two new arrays, the
    mapped one, sorted in place, and the slice it returns. *)
Lemma ranking_on_heap (mk : Location -> Element -> Shop) (distance : Shop -> number)
    (k : Z) (rl re : ref) (l : Location) (es : list Element) h :
  h !! rl = Some (LocationObject l) ->
  h !! re = Some (ElementArray es) ->
  (let* here := read_location rl in
   let* mapped := map_array (mk here) re in
   let* sorted := sort_array (by_distance distance) mapped in
   slice_array 0 k sorted) h
  = Some (S (length h),
          h ++ [ShopArray (Array_sort (by_distance distance) (map (mk l) es));
                ShopArray (nearest_of (mk l) distance es k)]).
Proof.
  intros Hl He. unfold bind, read_location. rewrite Hl.
  rewrite (map_array_run _ _ es) by assumption.
  rewrite sort_array_run_last.
  rewrite (slice_array_run _ _ _ (Array_sort (by_distance distance) (map (mk l) es)))
    by apply lookup_new.
  rewrite length_app, Nat.add_1_r, <- app_assoc. reflexivity.
Qed.
End HeapFacts.

(** * Numbers as real numbers

    How a number is rounded to the format, and from that the error of
    [*], [-], [/] and [Math.sqrt] relative to the real result: at most
    [2 ^ -52] of it, for operands between [2 ^ -400] and [2 ^ 400]. *)

Section RoundingSpec.
Implicit Types (m : positive) (e : Z) (s : bool) (f : spec_float).

Lemma Zdigits2_le_53 (n : Z) : 0 <= n <= 2 ^ 53 -> Zdigits2 n <= 54.
Proof.
  intros Hn. apply Zdigits2_le_of_lt; [|lia].
  change (2 ^ 54) with (2 * 2 ^ 53). lia.
Qed.

Lemma shr_fexp_no_shift (n : Z) e (l : location) :
  fexp prec emax (Zdigits2 n + e) <= e ->
  shr_fexp prec emax n e l = (shr_record_of_loc n l, e).
Proof.
  intros H. unfold shr_fexp, shr.
  destruct (fexp prec emax (Zdigits2 n + e) - e) eqn:E; try reflexivity; lia.
Qed.

Lemma round_nearest_even_Exact (n : Z) :
  round_nearest_even (shr_m (shr_record_of_loc n loc_Exact))
    (loc_of_shr_record (shr_record_of_loc n loc_Exact)) = n.
Proof. reflexivity. Qed.

(** The second shift of [binary_round_aux]: a mantissa of at most 53 bits
    stays, and [2 ^ 53] becomes [2 ^ 52] with the exponent one up. *)
Lemma shr_fexp_again (n : Z) e :
  0 < n <= 2 ^ 53 -> -1074 <= e ->
  exists (mrs : shr_record) (e' : Z), shr_fexp prec emax n e loc_Exact = (mrs, e')
    /\ 0 < shr_m mrs /\ e <= e' <= e + 1 /\ shr_m mrs * 2 ^ (e' - e) = n.
Proof.
  intros Hn He.
  destruct (shr_fexp_spec n e loc_Exact) as [He' Hm]; [lia|].
  destruct (shr_fexp prec emax n e loc_Exact) as [mrs e'].
  simpl fst in Hm. simpl snd in He', Hm. rewrite fexp_eq in He'.
  exists mrs, e'. split; [reflexivity|].
  pose proof (Zdigits2_le_53 n ltac:(lia)) as Hd.
  destruct (Z.eq_dec (Zdigits2 n) 54%Z) as [E|E].
  - assert (n = 2 ^ 53).
    { destruct (Zdigits2_bounds n) as [Hlo _]; [lia|].
      rewrite E in Hlo. change (2 ^ (54 - 1)) with (2 ^ 53) in Hlo. lia. }
    subst n. replace e' with (e + 1) in * by lia.
    replace (e + 1 - e) with 1 in * by lia. rewrite Hm.
    change (2 ^ 53 / 2 ^ 1) with (2 ^ 52). change (2 ^ 52 * 2 ^ 1) with (2 ^ 53).
    repeat split; lia.
  - replace e' with e in * by lia. rewrite Z.sub_diag in *.
    rewrite Hm. change (2 ^ 0) with 1. rewrite Z.div_1_r.
    repeat split; lia.
Qed.

(** What rounding gives, for a mantissa [n] at an exponent [e] that is
    neither below the least exponent nor near the largest: a number
    [m * 2 ^ e'] of the sign asked for, with [m * 2 ^ (e' - e)] one of the
    two multiples of [2 ^ t] around [n], where [t] is the number of bits
    dropped.  Nothing is dropped from a mantissa of at most 53 bits. *)
Lemma binary_round_aux_spec s (n : Z) e (l : location) :
  0 < n -> -1074 <= e <= 900 -> Zdigits2 n + e <= 1000 ->
  exists m e' t,
    binary_round_aux prec emax s n e l = S754_finite s m e'
    /\ t = Z.max 0 (Zdigits2 n - 53)
    /\ e + t <= e' <= e + t + 1
    /\ n / 2 ^ t * 2 ^ t <= Zpos m * 2 ^ (e' - e) <= (n / 2 ^ t + 1) * 2 ^ t
    /\ (0 < t -> 2 ^ 52 <= n / 2 ^ t)
    /\ (l = loc_Exact -> t = 0 -> Zpos m * 2 ^ (e' - e) = n).
Proof.
  intros Hn He Hd. unfold binary_round_aux.
  set (d := Zdigits2 n) in *.
  destruct (Zdigits2_bounds n Hn) as [Hlo Hhi]. fold d in Hlo, Hhi.
  assert (Hd1 : 1 <= d) by (unfold d; destruct n; simpl; lia).
  set (t := Z.max 0 (d - 53)).
  destruct (shr_fexp_spec n e l) as [He1 Hm1]; [lia|]. fold d in He1.
  rewrite fexp_eq in He1.
  assert (Ht : snd (shr_fexp prec emax n e l) = e + t) by (unfold t; lia).
  assert (Hn1 : 0 < n / 2 ^ t < 2 ^ 53 /\ (0 < t -> 2 ^ 52 <= n / 2 ^ t)).
  { destruct (Z.eq_dec t 0%Z) as [E|E].
    - rewrite E. change (2 ^ 0) with 1. rewrite Z.div_1_r.
      split; [|lia]. split; [lia|].
      eapply Z.lt_le_trans; [exact Hhi|]. apply Z.pow_le_mono_r; lia.
    - assert (Et : t = d - 53) by lia.
      assert (Hp : 0 < 2 ^ t) by (apply Z.pow_pos_nonneg; lia).
      assert (H52 : 2 ^ 52 <= n / 2 ^ t).
      { apply Z.div_le_lower_bound; [lia|].
        rewrite <- Z.pow_add_r by lia. replace (t + 52) with (d - 1) by lia. exact Hlo. }
      split; [|intros _; exact H52]. split; [lia|].
      apply Z.div_lt_upper_bound; [lia|].
      rewrite <- Z.pow_add_r by lia. replace (t + 53) with d by lia. exact Hhi. }
  destruct Hn1 as [Hn1 H52].
  assert (Hloc : l = loc_Exact -> t = 0 ->
                 round_nearest_even (shr_m (fst (shr_fexp prec emax n e l)))
                   (loc_of_shr_record (fst (shr_fexp prec emax n e l))) = n).
  { intros -> Et. rewrite shr_fexp_no_shift; [reflexivity|].
    fold d. rewrite fexp_eq. lia. }
  destruct (shr_fexp prec emax n e l) as [mrs' e1]. simpl fst in *. simpl snd in *.
  clear He1. subst e1. replace (e + t - e) with t in Hm1 by lia. cbv beta iota.
  set (n1 := round_nearest_even (shr_m mrs') (loc_of_shr_record mrs')) in *.
  pose proof (round_nearest_even_ge (shr_m mrs') (loc_of_shr_record mrs')) as Hge.
  pose proof (round_nearest_even_le (shr_m mrs') (loc_of_shr_record mrs')) as Hle.
  fold n1 in Hge, Hle. rewrite Hm1 in Hge, Hle.
  destruct (shr_fexp_again n1 (e + t)) as (mrs'' & e2 & -> & Hpos & He2 & Hv); [lia|lia|].
  destruct (shr_m mrs'') as [|m|m] eqn:Em; try lia.
  assert (Hov : (e2 <=? emax - prec) = true)
    by (apply Z.leb_le; change (emax - prec) with 971; unfold t in *; lia).
  rewrite Hov. exists m, e2, t.
  assert (Hp : 0 < 2 ^ t) by (apply Z.pow_pos_nonneg; unfold t; lia).
  assert (HV : Zpos m * 2 ^ (e2 - e) = n1 * 2 ^ t).
  { replace (e2 - e) with ((e2 - (e + t)) + t) by lia.
    rewrite Z.pow_add_r by (unfold t; lia). rewrite Z.mul_assoc, Hv. reflexivity. }
  rewrite HV.
  split; [reflexivity|]. split; [reflexivity|]. split; [lia|].
  split; [split; apply Z.mul_le_mono_nonneg_r; lia|].
  split; [exact H52|].
  intros Hl Et. rewrite (Hloc Hl Et), Et. change (2 ^ 0) with 1. lia.
Qed.
End RoundingSpec.

Section Pow2.
Local Open Scope R_scope.

Lemma IZR_pow2_pos (k : Z) : (0 <= k)%Z -> 0 < IZR (2 ^ k).
Proof. intros Hk. apply IZR_lt. apply Z.pow_pos_nonneg; lia. Qed.

Lemma pow2_powerRZ (e : Z) : pow2 e = powerRZ 2 e.
Proof.
  unfold pow2. destruct e as [|p|p]; simpl Z.leb; cbv iota.
  - simpl. lra.
  - unfold powerRZ. now rewrite pow_IZR, positive_nat_Z.
  - unfold powerRZ. simpl Z.opp. now rewrite pow_IZR, positive_nat_Z.
Qed.

Lemma pow2_pos (e : Z) : 0 < pow2 e.
Proof. rewrite pow2_powerRZ. apply powerRZ_lt. lra. Qed.

Lemma pow2_add (a b : Z) : pow2 (a + b) = pow2 a * pow2 b.
Proof. rewrite !pow2_powerRZ. apply powerRZ_add. lra. Qed.

Lemma pow2_IZR (e : Z) : (0 <= e)%Z -> pow2 e = IZR (2 ^ e).
Proof. intros He. unfold pow2. now destruct (Z.leb_spec 0 e); [|lia]. Qed.

Lemma pow2_le (a b : Z) : (a <= b)%Z -> pow2 a <= pow2 b.
Proof.
  intros Hab. replace b with (a + (b - a))%Z by lia.
  rewrite pow2_add, (pow2_IZR (b - a)) by lia.
  assert (1 <= IZR (2 ^ (b - a))).
  { apply IZR_le. assert (0 < 2 ^ (b - a))%Z by (apply Z.pow_pos_nonneg; lia). lia. }
  pose proof (pow2_pos a). nra.
Qed.

Lemma pow2_lt (a b : Z) : (a < b)%Z -> pow2 a < pow2 b.
Proof.
  intros Hab. replace b with (a + (b - a))%Z by lia.
  rewrite pow2_add, (pow2_IZR (b - a)) by lia.
  assert (2 <= IZR (2 ^ (b - a))).
  { apply IZR_le. change 2%Z with (2 ^ 1)%Z at 1. apply Z.pow_le_mono_r; lia. }
  pose proof (pow2_pos a). nra.
Qed.

(** A mantissa at a lower exponent. *)
Lemma IZR_scale (n e e' : Z) :
  (e <= e')%Z -> IZR (n * 2 ^ (e' - e)) * pow2 e = IZR n * pow2 e'.
Proof.
  intros He. replace e' with ((e' - e) + e)%Z at 2 by lia.
  rewrite pow2_add, (pow2_IZR (e' - e)), mult_IZR by lia. ring.
Qed.
End Pow2.

Section Values.
Local Open Scope R_scope.
Implicit Types (x y : number).

(** A safe value is that of a positive finite number, away from the ends
    of the format. *)
Lemma safe_finite x :
  safe (value x) ->
  exists m e, Prim2SF x = S754_finite false m e
    /\ (-453 <= e <= 400)%Z /\ (Zpos m < 2 ^ 53)%Z
    /\ value x = IZR (Zpos m) * pow2 e.
Proof.
  unfold safe, value. pose proof (Prim2SF_valid x) as Hv.
  pose proof (pow2_pos (-400)) as Hp.
  destruct (Prim2SF x) as [s|s| |[] m e]; simpl SF2R; intros [Hlo Hhi]; try lra.
  - exfalso. pose proof (pow2_pos e) as He.
    change (cond_Zopp true (Zpos m)) with (- Zpos m)%Z in Hlo.
    rewrite opp_IZR in Hlo.
    assert (H1 : 1 <= IZR (Zpos m)) by (apply IZR_le; lia).
    remember (IZR (Zpos m)) as M. nra.
  - change (cond_Zopp false (Zpos m)) with (Zpos m) in *.
    destruct (valid_finite _ _ _ Hv) as (He & Hm & _).
    exists m, e. split; [reflexivity|]. split; [|split; [exact Hm|reflexivity]].
    assert (H1 : 1 <= IZR (Zpos m)) by (apply IZR_le; lia).
    assert (H2 : IZR (Zpos m) < pow2 53) by (rewrite pow2_IZR by lia; now apply IZR_lt).
    pose proof (pow2_pos e) as He0.
    remember (IZR (Zpos m)) as M.
    split.
    + destruct (Z.le_gt_cases (-453) e) as [|Hlt]; [assumption|exfalso].
      assert (pow2 (53 + e) <= pow2 (-401)) by (apply pow2_le; lia).
      assert (pow2 (-401) < pow2 (-400)) by (apply pow2_lt; lia).
      rewrite pow2_add in *. nra.
    + destruct (Z.le_gt_cases e 400) as [|Hgt]; [assumption|exfalso].
      assert (pow2 400 < pow2 e) by (apply pow2_lt; lia). nra.
Qed.

Lemma leb_value x y :
  safe (value x) -> safe (value y) ->
  (x <=? y)%float = true <-> value x <= value y.
Proof.
  intros Hx Hy.
  destruct (safe_finite x Hx) as (mx & ex & Ex & _ & _ & Vx).
  destruct (safe_finite y Hy) as (my & ey & Ey & _ & _ & Vy).
  rewrite FloatAxioms.leb_spec. unfold SFleb.
  pose proof (Prim2SF_valid x) as Hvx. pose proof (Prim2SF_valid y) as Hvy.
  rewrite Ex in *. rewrite Ey in *.
  rewrite SFcompare_finite by assumption.
  change (cond_Zopp false ?z) with z.
  rewrite Vx, Vy.
  rewrite <- (IZR_scale (Zpos mx) (Z.min ex ey) ex) by lia.
  rewrite <- (IZR_scale (Zpos my) (Z.min ex ey) ey) by lia.
  pose proof (pow2_pos (Z.min ex ey)) as Hp.
  generalize (Zpos mx * 2 ^ (ex - Z.min ex ey))%Z (Zpos my * 2 ^ (ey - Z.min ex ey))%Z.
  intros X Y.
  destruct (Z.compare_spec X Y) as [E|E|E].
  - split; [intros _|reflexivity]. rewrite E. lra.
  - split; [intros _|reflexivity]. apply IZR_lt in E. nra.
  - split; [discriminate|]. intros H. apply IZR_lt in E. nra.
Qed.

(** From the integers to the reals: a mantissa within [n / 2 ^ 52] of [n]. *)
Lemma IZR_relative (V n : Z) :
  (0 < n)%Z -> (2 ^ 52 * (V - n) <= n)%Z -> (2 ^ 52 * (n - V) <= n)%Z ->
  (1 - pow2 (-52)) * IZR n <= IZR V <= (1 + pow2 (-52)) * IZR n.
Proof.
  intros Hn H1 H2. apply IZR_le in H1, H2. apply IZR_lt in Hn.
  rewrite mult_IZR, minus_IZR in H1, H2.
  change (pow2 (-52)) with (/ IZR (2 ^ 52)).
  change (IZR (2 ^ 52)) with 4503599627370496 in *.
  generalize dependent (IZR V). generalize dependent (IZR n). intros. lra.
Qed.

(** Of the two multiples of [2 ^ t] around [n], each is within
    [n / 2 ^ 52] of [n] when [n / 2 ^ t] has 53 bits. *)
Lemma round_interval_relative (V n t : Z) :
  (0 <= t)%Z ->
  (n / 2 ^ t * 2 ^ t <= V <= (n / 2 ^ t + 1) * 2 ^ t)%Z ->
  (2 ^ 52 <= n / 2 ^ t)%Z ->
  (2 ^ 52 * (V - n) <= n)%Z /\ (2 ^ 52 * (n - V) <= n)%Z.
Proof.
  intros Ht HV H52.
  assert (Hw : (0 < 2 ^ t)%Z) by (apply Z.pow_pos_nonneg; lia).
  pose proof (Z.mul_div_le n (2 ^ t) Hw) as Hlo.
  pose proof (Z.mul_succ_div_gt n (2 ^ t) Hw) as Hhi.
  assert (H : (2 ^ 52 * 2 ^ t <= n / 2 ^ t * 2 ^ t)%Z)
    by (apply Z.mul_le_mono_nonneg_r; lia).
  rewrite Z.mul_add_distr_r, Z.mul_1_l in HV.
  rewrite (Z.mul_comm (2 ^ t)) in Hlo.
  replace (2 ^ t * Z.succ (n / 2 ^ t))%Z with (n / 2 ^ t * 2 ^ t + 2 ^ t)%Z in Hhi by ring.
  revert HV Hlo Hhi H. generalize (n / 2 ^ t * 2 ^ t)%Z (2 ^ t)%Z. intros P W.
  change (2 ^ 52)%Z with 4503599627370496%Z. lia.
Qed.

(** Rounding an exact mantissa has a relative error of at most [2 ^ -52]. *)
Lemma binary_round_aux_value (n e : Z) :
  (0 < n)%Z -> (-1074 <= e <= 900)%Z -> (Zdigits2 n + e <= 1000)%Z ->
  (1 - pow2 (-52)) * (IZR n * pow2 e)
  <= SF2R (binary_round_aux prec emax false n e loc_Exact)
  <= (1 + pow2 (-52)) * (IZR n * pow2 e).
Proof.
  intros Hn He Hd.
  destruct (binary_round_aux_spec false n e loc_Exact Hn He Hd)
    as (m & e' & t & -> & Et & He' & HV & H52 & Hex0).
  unfold SF2R. change (cond_Zopp false ?z) with z.
  rewrite <- (IZR_scale (Zpos m) e e') by lia.
  pose proof (pow2_pos e) as Hp.
  assert (Hrel : (1 - pow2 (-52)) * IZR n <= IZR (Zpos m * 2 ^ (e' - e))
                 <= (1 + pow2 (-52)) * IZR n).
  { apply IZR_relative; [lia| |];
      (destruct (Z.eq_dec t 0%Z) as [E0|E0]; [rewrite (Hex0 eq_refl E0); lia|]);
      apply (round_interval_relative _ _ t); auto; lia. }
  replace ((1 - pow2 (-52)) * (IZR n * pow2 e))
    with ((1 - pow2 (-52)) * IZR n * pow2 e) by ring.
  replace ((1 + pow2 (-52)) * (IZR n * pow2 e))
    with ((1 + pow2 (-52)) * IZR n * pow2 e) by ring.
  split; apply Rmult_le_compat_r; lra.
Qed.

(** A product is rounded with a relative error of at most [2 ^ -52]. *)
Lemma mul_value x y :
  safe (value x) -> safe (value y) ->
  (1 - pow2 (-52)) * (value x * value y) <= value (x * y)
  <= (1 + pow2 (-52)) * (value x * value y).
Proof.
  intros Hx Hy.
  destruct (safe_finite x Hx) as (mx & ex & Ex & Hex & Hmx & Vx).
  destruct (safe_finite y Hy) as (my & ey & Ey & Hey & Hmy & Vy).
  rewrite Vx, Vy. unfold value. rewrite mul_spec, Ex, Ey.
  unfold SF64mul, SFmul. simpl xorb.
  replace (IZR (Zpos mx) * pow2 ex * (IZR (Zpos my) * pow2 ey))
    with (IZR (Zpos (mx * my)) * pow2 (ex + ey))
    by (rewrite pow2_add, Pos2Z.inj_mul, mult_IZR; ring).
  apply binary_round_aux_value; [lia|lia|].
  assert (Zdigits2 (Zpos (mx * my)) <= 106)%Z; [|lia].
  apply Zdigits2_le_of_lt; [|lia]. rewrite Pos2Z.inj_mul.
  change (2 ^ 106)%Z with (2 ^ 53 * 2 ^ 53)%Z.
  split; [lia|]. apply Z.mul_lt_mono_nonneg; lia.
Qed.

Lemma shl_align_value (m : positive) (e e' : Z) :
  Zpos (fst (shl_align m e e')) = (Zpos m * 2 ^ (e - Z.min e e'))%Z.
Proof.
  destruct (Z.le_gt_cases e' e) as [H|H].
  - rewrite shl_align_fst by assumption. now rewrite Z.min_r.
  - unfold shl_align. destruct (e' - e)%Z eqn:E; try lia;
      simpl fst; rewrite Z.min_l, Z.sub_diag by lia; simpl; lia.
Qed.

(** So has normalising a positive mantissa. *)
Lemma binary_round_value (p : positive) (e : Z) :
  (-500 <= e <= 500)%Z -> (Zdigits2 (Zpos p) + e <= 1000)%Z ->
  (1 - pow2 (-52)) * (IZR (Zpos p) * pow2 e)
  <= SF2R (binary_round prec emax false p e)
  <= (1 + pow2 (-52)) * (IZR (Zpos p) * pow2 e).
Proof.
  intros He Hd. unfold binary_round.
  pose proof (shl_align_value p e (fexp prec emax (Zpos (digits2_pos p) + e))) as Hf.
  pose proof (shl_align_snd p e (fexp prec emax (Zpos (digits2_pos p) + e))) as Hs.
  rewrite fexp_eq in Hf, Hs.
  destruct (shl_align p e _) as [mz ez]. simpl fst in Hf. simpl snd in Hs.
  rewrite <- (IZR_scale (Zpos p) ez e) by lia.
  replace (Z.min e (Z.max (Zpos (digits2_pos p) + e - 53) (-1074))) with ez in Hf by lia.
  rewrite <- Hf.
  apply binary_round_aux_value; [lia|lia|].
  destruct (Zdigits2_bounds (Zpos p)) as [_ Hhi]; [lia|].
  assert (Zdigits2 (Zpos mz) <= Zdigits2 (Zpos p) + (e - ez))%Z; [|lia].
  apply Zdigits2_le_of_lt; [|simpl; lia].
  rewrite Hf, Z.pow_add_r by (simpl; lia).
  split; [lia|]. apply Z.mul_lt_mono_pos_r; [apply Z.pow_pos_nonneg; lia|exact Hhi].
Qed.

(** A difference that is positive is rounded with a relative error of at
    most [2 ^ -52]. *)
Lemma sub_value x y :
  safe (value x) -> safe (value y) -> value y < value x ->
  (1 - pow2 (-52)) * (value x - value y) <= value (x - y)
  <= (1 + pow2 (-52)) * (value x - value y).
Proof.
  intros Hx Hy Hlt.
  destruct (safe_finite x Hx) as (mx & ex & Ex & Hex & Hmx & Vx).
  destruct (safe_finite y Hy) as (my & ey & Ey & Hey & Hmy & Vy).
  rewrite Vx, Vy in *. unfold value. rewrite FloatAxioms.sub_spec, Ex, Ey.
  unfold SF64sub, SFsub. rewrite !shl_align_value.
  change (cond_Zopp false ?z) with z.
  set (ez := Z.min ex ey).
  rewrite (Z.min_r ex ez), (Z.min_r ey ez) by (unfold ez; lia).
  rewrite <- (IZR_scale (Zpos mx) ez ex) in * by (unfold ez; lia).
  rewrite <- (IZR_scale (Zpos my) ez ey) in * by (unfold ez; lia).
  set (X := (Zpos mx * 2 ^ (ex - ez))%Z) in *.
  set (Y := (Zpos my * 2 ^ (ey - ez))%Z) in *.
  pose proof (pow2_pos ez) as Hp.
  assert (HXY : (Y < X)%Z).
  { apply lt_IZR. generalize dependent (IZR X). generalize dependent (IZR Y).
    intros; nra. }
  assert (HX : (X < 2 ^ (53 + ex - ez))%Z).
  { unfold X. replace (53 + ex - ez)%Z with (53 + (ex - ez))%Z by lia.
    rewrite Z.pow_add_r by (unfold ez; lia).
    apply Z.mul_lt_mono_pos_r; [apply Z.pow_pos_nonneg; lia|exact Hmx]. }
  assert (HY : (0 < Y)%Z)
    by (unfold Y; apply Z.mul_pos_pos; [lia|apply Z.pow_pos_nonneg; unfold ez; lia]).
  replace (IZR X * pow2 ez - IZR Y * pow2 ez) with (IZR (X - Y) * pow2 ez)
    by (rewrite minus_IZR; ring).
  destruct (X - Y)%Z as [|p|p] eqn:E; try lia. unfold binary_normalize.
  apply binary_round_value; [unfold ez; lia|].
  assert (Zdigits2 (Zpos p) <= 53 + ex - ez)%Z; [|unfold ez in *; lia].
  apply Zdigits2_le_of_lt; [lia|unfold ez; lia].
Qed.

Lemma add_zero_l x m e s : Prim2SF x = S754_finite s m e -> (0 + x)%float = x.
Proof.
  intros Hx. apply Prim2SF_inj. rewrite add_spec, Hx. reflexivity.
Qed.

Lemma Rdiv_unit_interval (r M : R) : 0 <= r < M -> 0 <= r / M < 1.
Proof.
  intros [H0 HM]. assert (0 < / M) by (apply Rinv_0_lt_compat; lra).
  unfold Rdiv. split; [nra|].
  apply Rmult_lt_reg_r with M; [lra|].
  rewrite Rmult_assoc, Rinv_l by lra. lra.
Qed.

(** Rounding a mantissa of at least 53 bits that stands for a quantity
    between it and its successor (a quotient, a square root) has a
    relative error of at most [2 ^ -52] too. *)
Lemma binary_round_aux_inexact (n e : Z) (l : location) (Q : R) :
  (2 ^ 52 <= n)%Z -> (-1074 <= e <= 900)%Z -> (Zdigits2 n + e <= 1000)%Z ->
  IZR n <= Q < IZR n + 1 ->
  (1 - pow2 (-52)) * (Q * pow2 e)
  <= SF2R (binary_round_aux prec emax false n e l)
  <= (1 + pow2 (-52)) * (Q * pow2 e).
Proof.
  intros Hn He Hd HQ.
  assert (Hn0 : (0 < n)%Z) by (change (2 ^ 52)%Z with 4503599627370496%Z in Hn; lia).
  destruct (binary_round_aux_spec false n e l Hn0 He Hd)
    as (m & e' & t & -> & Et & He' & HV & H52 & _).
  unfold SF2R. change (cond_Zopp false ?z) with z.
  rewrite <- (IZR_scale (Zpos m) e e') by lia.
  pose proof (pow2_pos e) as Hp.
  assert (Hw : (0 < 2 ^ t)%Z) by (apply Z.pow_pos_nonneg; lia).
  pose proof (Z.mul_div_le n (2 ^ t) Hw) as Hlo.
  pose proof (Z.mul_succ_div_gt n (2 ^ t) Hw) as Hhi.
  assert (H : (2 ^ 52 * 2 ^ t <= n / 2 ^ t * 2 ^ t)%Z).
  { destruct (Z.eq_dec t 0%Z) as [->|E0].
    - change (2 ^ 0)%Z with 1%Z. rewrite Z.div_1_r. lia.
    - apply Z.mul_le_mono_nonneg_r; [lia|]. apply H52. lia. }
  rewrite Z.mul_add_distr_r, Z.mul_1_l in HV.
  rewrite (Z.mul_comm (2 ^ t)) in Hlo.
  replace (2 ^ t * Z.succ (n / 2 ^ t))%Z with (n / 2 ^ t * 2 ^ t + 2 ^ t)%Z in Hhi by ring.
  assert (Hrel : (1 - pow2 (-52)) * Q <= IZR (Zpos m * 2 ^ (e' - e)) <= (1 + pow2 (-52)) * Q).
  { remember (Zpos m * 2 ^ (e' - e))%Z as V eqn:EV.
    remember (n / 2 ^ t * 2 ^ t)%Z as P eqn:EP.
    remember (2 ^ t)%Z as W eqn:EW.
    clear EV EP EW. destruct HV as [HV1 HV2].
    assert (Hhi' : (n + 1 <= P + W)%Z) by lia. clear Hhi.
    apply IZR_le in HV1, HV2, Hlo, H, Hhi'.
    rewrite ?plus_IZR, ?mult_IZR in *.
    change (pow2 (-52)) with (/ IZR (2 ^ 52)).
    change (IZR (2 ^ 52)) with 4503599627370496 in *.
    generalize dependent (IZR V). generalize dependent (IZR P).
    generalize dependent (IZR W). generalize dependent (IZR n). intros. lra. }
  replace ((1 - pow2 (-52)) * (Q * pow2 e)) with ((1 - pow2 (-52)) * Q * pow2 e) by ring.
  replace ((1 + pow2 (-52)) * (Q * pow2 e)) with ((1 + pow2 (-52)) * Q * pow2 e) by ring.
  split; apply Rmult_le_compat_r; lra.
Qed.

(** A quotient is rounded with a relative error of at most [2 ^ -52]. *)
Lemma div_value x y :
  safe (value x) -> safe (value y) ->
  (1 - pow2 (-52)) * (value x / value y) <= value (x / y)
  <= (1 + pow2 (-52)) * (value x / value y).
Proof.
  intros Hx Hy.
  destruct (safe_finite x Hx) as (mx & ex & Ex & Hex & Hmx & Vx).
  destruct (safe_finite y Hy) as (my & ey & Ey & Hey & Hmy & Vy).
  rewrite Vx, Vy. unfold value. rewrite div_spec, Ex, Ey.
  unfold SF64div, SFdiv, SFdiv_core_binary. simpl xorb.
  set (d1 := Zdigits2 (Zpos mx)). set (d2 := Zdigits2 (Zpos my)).
  destruct (Zdigits2_bounds (Zpos mx)) as [Hx1 Hx2]; [lia|]. fold d1 in Hx1, Hx2.
  destruct (Zdigits2_bounds (Zpos my)) as [Hy1 Hy2]; [lia|]. fold d2 in Hy1, Hy2.
  assert (Hd1 : (1 <= d1 <= 53)%Z)
    by (split; [unfold d1; simpl; lia | apply Zdigits2_le_of_lt; lia]).
  assert (Hd2 : (1 <= d2 <= 53)%Z)
    by (split; [unfold d2; simpl; lia | apply Zdigits2_le_of_lt; lia]).
  rewrite fexp_eq.
  set (e' := Z.min (Z.max (d1 + ex - (d2 + ey) - 53) (-1074)) (ex - ey)).
  assert (He' : e' = (ex - ey + d1 - d2 - 53)%Z) by (unfold e'; lia).
  set (sh := (ex - ey - e')%Z).
  assert (Hsh : sh = (d2 - d1 + 53)%Z) by (unfold sh; lia).
  destruct sh as [|psh|psh] eqn:Esh; try lia.
  rewrite <- Esh. rewrite Z.shiftl_mul_pow2 by lia.
  set (m' := (Zpos mx * 2 ^ sh)%Z).
  assert (Hm1 : (2 ^ 52 * 2 ^ d2 <= m')%Z).
  { unfold m'. rewrite <- Z.pow_add_r by lia.
    replace (52 + d2)%Z with ((d1 - 1) + sh)%Z by lia.
    rewrite Z.pow_add_r by lia.
    apply Z.mul_le_mono_nonneg_r; [apply Z.pow_nonneg; lia|exact Hx1]. }
  assert (Hm2 : (m' < 2 ^ 106)%Z).
  { unfold m'. apply Z.lt_le_trans with (2 ^ d1 * 2 ^ sh)%Z.
    - apply Z.mul_lt_mono_pos_r; [apply Z.pow_pos_nonneg; lia|exact Hx2].
    - rewrite <- Z.pow_add_r by lia. apply Z.pow_le_mono_r; lia. }
  pose proof (Z_div_mod m' (Zpos my) ltac:(lia)) as Hdm.
  destruct (Z.div_eucl m' (Zpos my)) as [q r]. destruct Hdm as [Hdm Hr].
  assert (Hq1 : (2 ^ 52 <= q)%Z).
  { destruct (Z.le_gt_cases (2 ^ 52) q) as [|Hlt]; [assumption|exfalso].
    assert (Zpos my * q <= Zpos my * (2 ^ 52 - 1))%Z by (apply Z.mul_le_mono_nonneg_l; lia).
    assert (2 ^ 52 * Zpos my <= 2 ^ 52 * 2 ^ d2)%Z by (apply Z.mul_le_mono_nonneg_l; lia).
    lia. }
  assert (Hq2 : (q < 2 ^ 106)%Z).
  { assert (Zpos my * 1 <= Zpos my * q)%Z
      by (apply Z.mul_le_mono_nonneg_l; change (2 ^ 52)%Z with 4503599627370496%Z in Hq1; lia).
    assert (q <= Zpos my * q)%Z.
    { replace q with (1 * q)%Z at 1 by lia. apply Z.mul_le_mono_nonneg_r; lia. }
    lia. }
  replace (IZR (Zpos mx) * pow2 ex / (IZR (Zpos my) * pow2 ey))
    with (IZR m' / IZR (Zpos my) * pow2 e').
  2:{ unfold m'. rewrite mult_IZR, <- pow2_IZR by lia.
      assert (Hpe : pow2 ex = pow2 sh * pow2 e' * pow2 ey)
        by (rewrite <- !pow2_add; f_equal; lia).
      rewrite Hpe.
      pose proof (pow2_pos ey). pose proof (pow2_pos sh). pose proof (pow2_pos e').
      assert (0 < IZR (Zpos my)) by (apply IZR_lt; lia).
      field. split; lra. }
  apply binary_round_aux_inexact; [exact Hq1|lia| |].
  - assert (Zdigits2 q <= 106)%Z; [|lia].
    apply Zdigits2_le_of_lt; [|lia].
    change (2 ^ 52)%Z with 4503599627370496%Z in Hq1. lia.
  - assert (Hmy0 : 0 < IZR (Zpos my)) by (apply IZR_lt; lia).
    rewrite Hdm, plus_IZR, mult_IZR.
    destruct Hr as [Hr1 Hr2]. apply IZR_le in Hr1. apply IZR_lt in Hr2.
    replace ((IZR (Zpos my) * IZR q + IZR r) / IZR (Zpos my))
      with (IZR q + IZR r / IZR (Zpos my)) by (field; lra).
    pose proof (Rdiv_unit_interval (IZR r) (IZR (Zpos my)) ltac:(lra)). lra.
Qed.

Lemma sqrt_between_squares (q n : Z) :
  (0 <= q)%Z -> (q * q <= n < (q + 1) * (q + 1))%Z ->
  IZR q <= R_sqrt.sqrt (IZR n) < IZR q + 1.
Proof.
  intros Hq [H1 H2]. apply IZR_le in Hq, H1. apply IZR_lt in H2.
  rewrite mult_IZR in H1. rewrite mult_IZR, plus_IZR in H2.
  generalize dependent (IZR n). generalize dependent (IZR q). intros Q HQ N H1 H2.
  split.
  - rewrite <- (sqrt_square Q) at 1 by lra. apply sqrt_le_1; nra.
  - rewrite <- (sqrt_square (Q + 1)) by lra. apply sqrt_lt_1; nra.
Qed.

(** A square root is rounded with a relative error of at most [2 ^ -52]. *)
Lemma sqrt_value x :
  safe (value x) ->
  (1 - pow2 (-52)) * R_sqrt.sqrt (value x) <= value (Math_sqrt x)
  <= (1 + pow2 (-52)) * R_sqrt.sqrt (value x).
Proof.
  intros Hx.
  destruct (safe_finite x Hx) as (m & e & Ex & He & Hm & Vx).
  rewrite Vx. unfold value, Math_sqrt. rewrite sqrt_spec, Ex.
  unfold SF64sqrt, SFsqrt, SFsqrt_core_binary.
  set (d := Zdigits2 (Zpos m)).
  destruct (Zdigits2_bounds (Zpos m)) as [Hm1 Hm2]; [lia|]. fold d in Hm1, Hm2.
  assert (Hd : (1 <= d <= 53)%Z)
    by (split; [unfold d; simpl; lia | apply Zdigits2_le_of_lt; lia]).
  rewrite fexp_eq, !Z.div2_div.
  pose proof (Z.mul_div_le (d + e + 1) 2 ltac:(lia)) as HA1.
  pose proof (Z.mul_succ_div_gt (d + e + 1) 2 ltac:(lia)) as HA2.
  pose proof (Z.mul_div_le e 2 ltac:(lia)) as HB1.
  pose proof (Z.mul_succ_div_gt e 2 ltac:(lia)) as HB2.
  set (A := ((d + e + 1) / 2)%Z) in *. set (B := (e / 2)%Z) in *.
  replace (Z.min (Z.max (A - 53) (-1074)) B) with (A - 53)%Z by lia.
  set (e' := (A - 53)%Z).
  set (sh := (e - 2 * e')%Z).
  assert (Hsh : (105 - d <= sh <= 106 - d)%Z) by (unfold sh, e'; lia).
  destruct sh as [|psh|psh] eqn:Esh; try lia.
  rewrite <- Esh. rewrite Z.shiftl_mul_pow2 by lia.
  set (m' := (Zpos m * 2 ^ sh)%Z).
  assert (Hm'1 : (2 ^ 104 <= m')%Z).
  { unfold m'. apply Z.le_trans with (2 ^ (d - 1) * 2 ^ sh)%Z.
    - rewrite <- Z.pow_add_r by lia. apply Z.pow_le_mono_r; lia.
    - apply Z.mul_le_mono_nonneg_r; [apply Z.pow_nonneg; lia|exact Hm1]. }
  assert (Hm'2 : (m' < 2 ^ 106)%Z).
  { unfold m'. apply Z.lt_le_trans with (2 ^ d * 2 ^ sh)%Z.
    - apply Z.mul_lt_mono_pos_r; [apply Z.pow_pos_nonneg; lia|exact Hm2].
    - rewrite <- Z.pow_add_r by lia. apply Z.pow_le_mono_r; lia. }
  pose proof (Z.sqrtrem_spec m' ltac:(lia)) as Hsq.
  destruct (Z.sqrtrem m') as [q r]. destruct Hsq as [Hsq Hr].
  assert (Hq0 : (0 <= q)%Z) by lia.
  assert (Hq1 : (2 ^ 52 <= q)%Z).
  { destruct (Z.le_gt_cases (2 ^ 52) q) as [|Hlt]; [assumption|exfalso].
    assert (q * q <= (2 ^ 52 - 1) * (2 ^ 52 - 1))%Z by (apply Z.mul_le_mono_nonneg; lia).
    change (2 ^ 104)%Z with (2 ^ 52 * 2 ^ 52)%Z in Hm'1.
    change (2 ^ 52)%Z with 4503599627370496%Z in *. lia. }
  assert (Hq2 : (q < 2 ^ 53)%Z).
  { destruct (Z.lt_ge_cases q (2 ^ 53)) as [|Hge]; [assumption|exfalso].
    assert (2 ^ 53 * 2 ^ 53 <= q * q)%Z by (apply Z.mul_le_mono_nonneg; lia).
    change (2 ^ 106)%Z with (2 ^ 53 * 2 ^ 53)%Z in Hm'2. lia. }
  replace (IZR (Zpos m) * pow2 e) with (IZR m' * (pow2 e' * pow2 e')).
  2:{ unfold m'. rewrite mult_IZR, <- pow2_IZR, <- !pow2_add by lia.
      rewrite Rmult_assoc, <- pow2_add. do 2 f_equal. lia. }
  pose proof (pow2_pos e') as Hp.
  assert (Hm'0 : 0 <= IZR m') by (apply IZR_le; lia).
  rewrite sqrt_mult by nra. rewrite sqrt_square by lra.
  set (l := if (r =? 0)%Z then loc_Exact else loc_Inexact (if (r <=? q)%Z then Lt else Gt)).
  apply binary_round_aux_inexact; [exact Hq1|unfold e'; lia| |].
  - assert (Zdigits2 q <= 53)%Z; [|unfold e'; lia].
    apply Zdigits2_le_of_lt; lia.
  - apply sqrt_between_squares; [exact Hq0|]. lia.
Qed.
End Values.

Section Intervals.
Local Open Scope R_scope.
Implicit Types (x y : number).

Lemma SFleb_value m1 e1 m2 e2 :
  valid_binary (S754_finite false m1 e1) = true ->
  valid_binary (S754_finite false m2 e2) = true ->
  SFleb (S754_finite false m1 e1) (S754_finite false m2 e2) = true
  <-> SF2R (S754_finite false m1 e1) <= SF2R (S754_finite false m2 e2).
Proof.
  intros V1 V2. unfold SFleb. rewrite SFcompare_finite by assumption.
  unfold SF2R. change (cond_Zopp false ?z) with z.
  destruct (valid_finite _ _ _ V1) as (He1 & _), (valid_finite _ _ _ V2) as (He2 & _).
  rewrite <- (IZR_scale (Zpos m1) (Z.min e1 e2) e1) by lia.
  rewrite <- (IZR_scale (Zpos m2) (Z.min e1 e2) e2) by lia.
  pose proof (pow2_pos (Z.min e1 e2)) as Hp.
  generalize (Zpos m1 * 2 ^ (e1 - Z.min e1 e2))%Z (Zpos m2 * 2 ^ (e2 - Z.min e1 e2))%Z.
  intros X Y.
  destruct (Z.compare_spec X Y) as [E|E|E].
  - split; [intros _|reflexivity]. rewrite E. lra.
  - split; [intros _|reflexivity]. apply IZR_lt in E. nra.
  - split; [discriminate|]. intros H. apply IZR_lt in E. nra.
Qed.

(** A number between two safe numbers has its value between theirs. *)
Lemma between_value lo hi x :
  safe (value lo) -> safe (value hi) ->
  (lo <=? x)%float = true -> (x <=? hi)%float = true ->
  value lo <= value x <= value hi.
Proof.
  intros Hlo Hhi.
  destruct (safe_finite lo Hlo) as (ml & el & El & _).
  destruct (safe_finite hi Hhi) as (mh & eh & Eh & _).
  rewrite !FloatAxioms.leb_spec. unfold value.
  pose proof (Prim2SF_valid lo) as Vl. pose proof (Prim2SF_valid hi) as Vh.
  pose proof (Prim2SF_valid x) as Vx.
  rewrite El in *. rewrite Eh in *.
  destruct (Prim2SF x) as [s|[]| |[] m e]; try discriminate;
    try (intros _ H; discriminate H).
  intros H1 H2. split; apply SFleb_value; assumption.
Qed.

Lemma safe_of_bounds (v : R) : pow2 (-30) <= v <= pow2 30 -> safe v.
Proof.
  intros [H1 H2]. split.
  - eapply Rle_trans; [|exact H1]. apply pow2_le. lia.
  - eapply Rle_trans; [exact H2|]. apply pow2_le. lia.
Qed.

Lemma mul_interval x y (lx hx ly hy : R) :
  pow2 (-30) <= lx -> hx <= pow2 30 -> pow2 (-30) <= ly -> hy <= pow2 30 ->
  lx <= value x <= hx -> ly <= value y <= hy ->
  (1 - pow2 (-52)) * (lx * ly) <= value (x * y) <= (1 + pow2 (-52)) * (hx * hy).
Proof.
  intros Hlx Hhx Hly Hhy Hx Hy.
  pose proof (pow2_pos (-30)) as Hp.
  destruct (mul_value x y) as [H1 H2]; try (apply safe_of_bounds; lra).
  assert (Hd : 0 < pow2 (-52) < 1) by (change (pow2 (-52)) with (/ 4503599627370496); lra).
  assert (Hlo : lx * ly <= value x * value y) by (apply Rmult_le_compat; lra).
  assert (Hhi : value x * value y <= hx * hy) by (apply Rmult_le_compat; lra).
  split.
  - eapply Rle_trans; [|exact H1]. apply Rmult_le_compat_l; lra.
  - eapply Rle_trans; [exact H2|]. apply Rmult_le_compat_l; lra.
Qed.

Lemma sub_interval x y (lx hx ly hy : R) :
  pow2 (-30) <= ly -> hx <= pow2 30 -> hy < lx ->
  lx <= value x <= hx -> ly <= value y <= hy ->
  (1 - pow2 (-52)) * (lx - hy) <= value (x - y) <= (1 + pow2 (-52)) * (hx - ly).
Proof.
  intros Hly Hhx Hlt Hx Hy.
  pose proof (pow2_pos (-30)) as Hp.
  destruct (sub_value x y) as [H1 H2]; try (apply safe_of_bounds; lra); [lra|].
  assert (Hd : 0 < pow2 (-52) < 1) by (change (pow2 (-52)) with (/ 4503599627370496); lra).
  split.
  - eapply Rle_trans; [|exact H1]. apply Rmult_le_compat_l; lra.
  - eapply Rle_trans; [exact H2|]. apply Rmult_le_compat_l; lra.
Qed.

Lemma div_interval x y (lx hx ly hy : R) :
  pow2 (-30) <= lx -> hx <= pow2 30 -> pow2 (-30) <= ly -> hy <= pow2 30 ->
  lx <= value x <= hx -> ly <= value y <= hy ->
  (1 - pow2 (-52)) * (lx / hy) <= value (x / y) <= (1 + pow2 (-52)) * (hx / ly).
Proof.
  intros Hlx Hhx Hly Hhy Hx Hy.
  pose proof (pow2_pos (-30)) as Hp.
  destruct (div_value x y) as [H1 H2]; try (apply safe_of_bounds; lra).
  assert (Hd : 0 < pow2 (-52) < 1) by (change (pow2 (-52)) with (/ 4503599627370496); lra).
  assert (Hi1 : / hy <= / value y) by (apply Rinv_le_contravar; lra).
  assert (Hi2 : / value y <= / ly) by (apply Rinv_le_contravar; lra).
  assert (Hi0 : 0 < / hy) by (apply Rinv_0_lt_compat; lra).
  assert (Hlo : lx / hy <= value x / value y) by (unfold Rdiv; apply Rmult_le_compat; lra).
  assert (Hhi : value x / value y <= hx / ly)
    by (unfold Rdiv; apply Rmult_le_compat; lra).
  split.
  - eapply Rle_trans; [|exact H1]. apply Rmult_le_compat_l; lra.
  - eapply Rle_trans; [exact H2|]. apply Rmult_le_compat_l; lra.
Qed.

Lemma sqrt_interval x (lo hi l h : R) :
  pow2 (-30) <= lo -> hi <= pow2 30 -> 0 <= l -> 0 <= h ->
  l * l <= lo -> hi <= h * h ->
  lo <= value x <= hi ->
  (1 - pow2 (-52)) * l <= value (Math_sqrt x) <= (1 + pow2 (-52)) * h.
Proof.
  intros Hlo Hhi Hl Hh Hll Hhh Hx.
  pose proof (pow2_pos (-30)) as Hp.
  destruct (sqrt_value x) as [H1 H2]; [apply safe_of_bounds; lra|].
  assert (Hd : 0 < pow2 (-52) < 1) by (change (pow2 (-52)) with (/ 4503599627370496); lra).
  assert (Hs1 : l <= R_sqrt.sqrt (value x)).
  { rewrite <- (sqrt_square l) by assumption. apply sqrt_le_1; nra. }
  assert (Hs2 : R_sqrt.sqrt (value x) <= h).
  { rewrite <- (sqrt_square h) by assumption. apply sqrt_le_1; nra. }
  split.
  - eapply Rle_trans; [|exact H1]. apply Rmult_le_compat_l; lra.
  - eapply Rle_trans; [exact H2|]. apply Rmult_le_compat_l; lra.
Qed.

(** [Math.round] of a number between [2 ^ -30] and [2 ^ 30]: the integer [n]
    with [n <= x + 1/2 < n + 1]. *)
Lemma Math_round_value x :
  pow2 (-30) <= value x <= pow2 30 ->
  exists n : Z, Math_round x = signed_integer false n
    /\ IZR n <= value x + / 2 < IZR n + 1.
Proof.
  intros Hx.
  destruct (safe_finite x (safe_of_bounds _ Hx)) as (m & e & Ex & He & Hm & Vx).
  pose proof (Prim2SF_valid x) as Hv. rewrite Ex in Hv.
  destruct (valid_finite _ _ _ Hv) as (_ & _ & Hn).
  unfold Math_round. rewrite Ex. exists (round_half_up false m e).
  split; [reflexivity|].
  assert (He0 : (e < 0)%Z).
  { destruct (Z.lt_ge_cases e 0) as [|Hge]; [assumption|exfalso].
    specialize (Hn ltac:(lia)). apply IZR_le in Hn.
    assert (1 <= pow2 e) by (change 1 with (pow2 0); apply pow2_le; lia).
    assert (pow2 30 < IZR (2 ^ 52)).
    { rewrite pow2_IZR by lia. apply IZR_lt. reflexivity. }
    rewrite Vx in Hx. generalize dependent (IZR (Zpos m)). intros; nra. }
  unfold round_half_up. destruct (Z.leb_spec 0 e) as [|_]; [lia|].
  change (cond_Zopp false (Zpos m)) with (Zpos m).
  set (D := (2 ^ (1 - e))%Z). set (N := (2 * Zpos m + 2 ^ (- e))%Z).
  assert (HD : (0 < D)%Z) by (apply Z.pow_pos_nonneg; lia).
  pose proof (Z.mul_div_le N D HD) as H1.
  pose proof (Z.mul_succ_div_gt N D HD) as H2.
  assert (HDe : IZR D = 2 * IZR (2 ^ (- e))).
  { unfold D. replace (1 - e)%Z with (1 + - e)%Z by lia.
    rewrite Z.pow_add_r, mult_IZR by lia. reflexivity. }
  assert (Hpe : pow2 e = / IZR (2 ^ (- e))).
  { unfold pow2. destruct (Z.leb_spec 0 e); [lia|reflexivity]. }
  assert (Hpp : 0 < IZR (2 ^ (- e))) by (apply IZR_pow2_pos; lia).
  assert (HN : value x + / 2 = IZR N / IZR D).
  { rewrite Vx, Hpe, HDe. unfold N. rewrite plus_IZR, mult_IZR. field. lra. }
  rewrite HN.
  apply IZR_le in H1. apply IZR_lt in H2.
  unfold Z.succ in H2. rewrite mult_IZR in H1. rewrite mult_IZR, plus_IZR in H2.
  assert (HD0 : 0 < IZR D) by (apply IZR_lt; exact HD).
  generalize dependent (IZR (N / D)). generalize dependent (IZR N).
  generalize dependent (IZR D). intros Dr _ HDr Nr _ Qr H1 H2.
  split.
  - apply Rmult_le_reg_r with Dr; [exact HDr|].
    unfold Rdiv. rewrite Rmult_assoc, Rinv_l by lra. lra.
  - apply Rmult_lt_reg_r with Dr; [exact HDr|].
    unfold Rdiv. rewrite Rmult_assoc, Rinv_l by lra. lra.
Qed.
End Intervals.

(** ** Literals *)

(** The value of a literal: its mantissa over a power of two. *)
Ltac literal_value c :=
  let f := eval vm_compute in (Prim2SF c) in
  lazymatch f with
  | S754_finite false ?m ?e =>
      let k := eval vm_compute in (2 ^ (- e))%Z in
      let k' := eval vm_compute in (2 ^ e)%Z in
      let b := eval vm_compute in (0 <=? e)%Z in
      lazymatch b with
      | true => change (value c) with (IZR (Zpos m) * IZR k')%R in *
      | false => change (value c) with (IZR (Zpos m) * / IZR k)%R in *
      end
  end.

Lemma pow2_m30 : pow2 (-30) = (/ 1073741824)%R.
Proof. reflexivity. Qed.

Lemma pow2_30 : pow2 30 = 1073741824%R.
Proof. reflexivity. Qed.

Lemma pow2_m52 : pow2 (-52) = (/ 4503599627370496)%R.
Proof. reflexivity. Qed.

Ltac numbers := rewrite ?pow2_m30, ?pow2_30, ?pow2_m52 in *; lra.

(** A number between two literals. *)
Ltac between_literals lo hi H1 H2 :=
  let H := fresh "H" in
  assert (H : (value lo <= value _ <= value hi)%R)
    by (apply between_value; [apply safe_of_bounds; literal_value lo; numbers
                             |apply safe_of_bounds; literal_value hi; numbers
                             |exact H1|exact H2]);
  revert H; literal_value lo; literal_value hi; intros H.

Lemma hundredth_near_111_spec (n : Z) :
  11072 <= n <= 11163 -> hundredth_near_111 n = true.
Proof.
  intros Hn.
  assert (H : forallb (fun k => hundredth_near_111 (11072 + Z.of_nat k)) (seq 0 92) = true)
    by (vm_compute; reflexivity).
  rewrite forallb_forall in H.
  replace n with (11072 + Z.of_nat (Z.to_nat (n - 11072))) by lia.
  apply H, in_seq. lia.
Qed.

(** A number is at least a literal below it, and at most one above it. *)
Lemma literal_leb (lo x : number) (l h : R) :
  (pow2 (-30) <= value lo <= pow2 30)%R -> (pow2 (-30) <= l)%R -> (h <= pow2 30)%R ->
  (l <= value x <= h)%R -> (value lo <= l)%R -> (lo <=? x)%float = true.
Proof.
  intros Hlo Hl Hh Hx Hle. apply leb_value; try (apply safe_of_bounds; lra). lra.
Qed.

Lemma leb_literal (hi x : number) (l h : R) :
  (pow2 (-30) <= value hi <= pow2 30)%R -> (pow2 (-30) <= l)%R -> (h <= pow2 30)%R ->
  (l <= value x <= h)%R -> (h <= value hi)%R -> (x <=? hi)%float = true.
Proof.
  intros Hhi Hl Hh Hx Hle. apply leb_value; try (apply safe_of_bounds; lra). lra.
Qed.

Ltac above_literal c Hx :=
  refine (literal_leb c _ _ _ _ _ _ Hx _); literal_value c; numbers.

Ltac below_literal c Hx :=
  refine (leb_literal c _ _ _ _ _ _ Hx _); literal_value c; numbers.

(** ** [Math.round] *)

Section RoundFloor.
Local Open Scope R_scope.

End RoundFloor.

(** * The host to compute with meets what is assumed of a host *)

Section SmallAngleHost.
Local Open Scope float_scope.

Lemma small_angle_sin_of_zero : sin_of_zero small_angle_host.
Proof. reflexivity. Qed.

Lemma small_angle_atan2_of_zero : atan2_of_zero small_angle_host.
Proof. intros x Hx. now apply zero_div_positive. Qed.

Lemma small_angle_cos_bounded : cos_bounded small_angle_host.
Proof.
  intros x _. simpl. unfold small_angle_cos.
  destruct (abs (1 - x * x / 2) <=? 1) eqn:E; [exact E|reflexivity].
Qed.
Lemma small_angle_sin_odd : sin_odd small_angle_host.
Proof.
  intros x. simpl. unfold small_angle_sin.
  now rewrite mul_opp_opp, mul_opp_l.
Qed.

Lemma small_angle_cos_of_zero : cos_of_zero small_angle_host.
Proof. reflexivity. Qed.

Lemma small_angle_sin_at_half_degree : sin_at_half_degree small_angle_host.
Proof. split; reflexivity. Qed.

Lemma small_angle_atan2_near_half_degree : atan2_near_half_degree small_angle_host.
Proof.
  intros y x Hy1 Hy2 Hx1 Hx2. simpl. unfold small_angle_atan2.
  between_literals (87 / 10000)%float (875 / 100000)%float Hy1 Hy2.
  between_literals (9999 / 10000)%float 1%float Hx1 Hx2.
  assert (Hq : (86999 / 10000000 <= value (y / x) <= 87509 / 10000000)%R).
  { destruct (div_interval y x (86999999 / 10000000000) (875001 / 100000000)
                (99989999 / 100000000) 1) as [Hl Hh]; numbers. }
  split.
  - above_literal (869 / 100000)%float Hq.
  - below_literal (876 / 100000)%float Hq.
Qed.

Lemma div_nan_r (y : number) : y / nan = nan.
Proof.
  apply Prim2SF_inj. rewrite div_spec.
  change (Prim2SF nan) with S754_nan. destruct (Prim2SF y); reflexivity.
Qed.

Lemma kernel_atan2_of_nan : atan2_of_nan kernel_host.
Proof. intros y. apply div_nan_r. Qed.

Lemma kernel_sin_cos_at_two_and_a_half_degrees :
  sin_cos_at_two_and_a_half_degrees kernel_host.
Proof. repeat split; vm_compute; reflexivity. Qed.
End SmallAngleHost.

(** * The distance to the other side of the globe *)

Section Antipodal.
Context (host : Host).
Hypothesis Hnan : atan2_of_nan host.
Hypothesis Hval : sin_cos_at_two_and_a_half_degrees host.
Local Open Scope float_scope.

Lemma Part0_antipodal_nan : Part0.calculateDistance (-2.5) 0 2.5 180 = nan.
Proof.
  destruct Hval as (Hs & Hc & Hc' & Hr).
  unfold Part0.calculateDistance, Part0.central_angle. cbv zeta.
  change ((2.5 - -2.5) * (Math_PI / 180) / 2) with two_and_a_half_degrees.
  change (-2.5 * (Math_PI / 180)) with (- two_and_a_half_degrees).
  change (2.5 * (Math_PI / 180)) with two_and_a_half_degrees.
  change ((180 - 0) * (Math_PI / 180) / 2) with right_angle.
  rewrite Hs, Hc, Hc', Hr.
  change (Math_sqrt (1 - _)) with nan. rewrite Hnan. reflexivity.
Qed.

Lemma Page_antipodal_nan : Page.calculateDistance (-2.5) 0 2.5 180 = nan.
Proof.
  destruct Hval as (Hs & Hc & Hc' & Hr).
  unfold Page.calculateDistance, Page.central_angle. cbv zeta.
  change ((2.5 - -2.5) * Math_PI / 180 / 2) with two_and_a_half_degrees.
  change (-2.5 * Math_PI / 180) with (- two_and_a_half_degrees).
  change (2.5 * Math_PI / 180) with two_and_a_half_degrees.
  change ((180 - 0) * Math_PI / 180 / 2) with right_angle.
  rewrite Hs, Hc, Hc', Hr.
  change (Math_sqrt (1 - _)) with nan. rewrite Hnan. reflexivity.
Qed.

Lemma Part0_north_cafe_nan :
  is_nan (Part0.distance (Part0.shop_of south north_cafe)) = true.
Proof. simpl. now rewrite Part0_antipodal_nan. Qed.

Lemma Page_north_cafe_nan :
  is_nan (Page.distance (Page.shop_of south north_cafe)) = true.
Proof. simpl. now rewrite Page_antipodal_nan. Qed.
End Antipodal.

(** * The pages as they run: invariants of the events *)

Section Names.

Lemma or_default_spec (name : option string) (fallback : string) :
  or_default name fallback
  = match name with
    | Some s => if String.eqb s EmptyString then fallback else s
    | None => fallback
    end.
Proof. reflexivity. Qed.

Lemma or_default_nonempty (name : option string) (fallback : string) :
  fallback <> EmptyString -> or_default name fallback <> EmptyString.
Proof.
  intros Hf. unfold or_default. destruct name as [s|]; [|assumption].
  destruct (String.eqb_spec s EmptyString); assumption.
Qed.

Lemma In_nearest_of {Shop : Type} (mk : Element -> Shop) (distance : Shop -> number)
    (elements : list Element) (k : Z) (s : Shop) :
  In s (nearest_of mk distance elements k) -> exists node, In node elements /\ s = mk node.
Proof.
  unfold nearest_of. rewrite Array_slice_0_firstn. intros Hs.
  assert (Hin : In s (map mk elements)).
  { apply (Permutation_in _ (Array_sort_Permutation (by_distance distance) (map mk elements))).
    revert Hs. generalize (Array_sort (by_distance distance) (map mk elements)).
    intros l. generalize (Z.to_nat (relative_index (Z.of_nat (length l)) k)).
    intros n Hs. rewrite <- (firstn_skipn n l). apply in_or_app. now left. }
  apply in_map_iff in Hin as (node & <- & Hn). eauto.
Qed.
End Names.

Section PageRuns.
Context {host : Host}.
Implicit Types (sys : Page.System) (ev : Page.Event) (evs : list Page.Event).

Lemma Page_run_snoc evs ev sys :
  Page.run (evs ++ [ev]) sys
  = match Page.run evs sys with
    | Some sys' => Page.handle ev sys'
    | None => None
    end.
Proof.
  revert sys. induction evs as [|e evs IH]; intros sys; simpl.
  - now destruct (Page.handle ev sys).
  - destruct (Page.handle e sys); [apply IH|reflexivity].
Qed.

(** An invariant of the events holds of every state that a run reaches. *)
Lemma Page_run_invariant (P : Page.System -> Prop) :
  (forall ev sys sys', P sys -> Page.handle ev sys = Some sys' -> P sys') ->
  forall evs sys sys', P sys -> Page.run evs sys = Some sys' -> P sys'.
Proof.
  intros Hstep evs. induction evs as [|ev evs IH]; intros sys sys' HP; simpl.
  - now intros [= <-].
  - destruct (Page.handle ev sys) as [sys1|] eqn:E; [|discriminate].
    apply IH. eapply Hstep; eassumption.
Qed.

(** What an event does to the state. *)
Lemma Page_handle_state ev sys sys' :
  Page.handle ev sys = Some sys' ->
  match ev with
  | Page.Click g => Page.state sys' = Page.getUserLocation g (Page.state sys)
  | Page.PositionFound la lo => Page.state sys' = Page.positionFound la lo (Page.state sys)
  | Page.PositionRefused => Page.state sys' = Page.positionRefused (Page.state sys)
  | Page.EffectRuns => Page.state sys' = Page.fetchStarted (Page.state sys)
  | Page.FetchSettles i r =>
      exists here, Page.fetches sys !! i = Some here
                   /\ Page.state sys' = Page.fetchCoffeeShops here r (Page.state sys)
  end.
Proof.
  destruct ev; unfold Page.handle.
  - destruct (Page.button _); [|discriminate]. now intros [= <-].
  - destruct (Page.requests sys); [discriminate|]. now intros [= <-].
  - destruct (Page.requests sys); [discriminate|]. now intros [= <-].
  - destruct (Page.effectDue sys); [|discriminate]. now intros [= <-].
  - destruct (Page.fetches sys !! i) as [here|]; [|discriminate].
    intros [= <-]. eauto.
Qed.

Definition Page_listed_ok (l : list Page.CoffeeShop) : Prop :=
  l = [] \/ exists here elements, l = Page.shops here elements.

Lemma Page_fetch_listed here r st :
  Page_listed_ok (Page.coffeeShops st) ->
  Page_listed_ok (Page.coffeeShops (Page.fetchCoffeeShops here r st)).
Proof.
  intros H. destruct r as [|ok [elements|]]; simpl; auto.
  right. eauto.
Qed.

Lemma Page_handle_listed ev sys sys' :
  Page_listed_ok (Page.coffeeShops (Page.state sys)) ->
  Page.handle ev sys = Some sys' ->
  Page_listed_ok (Page.coffeeShops (Page.state sys')).
Proof.
  intros H Hh. apply Page_handle_state in Hh. destruct ev.
  - rewrite Hh. unfold Page.getUserLocation. now destruct geolocation.
  - now rewrite Hh.
  - now rewrite Hh.
  - rewrite Hh. unfold Page.fetchStarted. now destruct (Page.location _).
  - destruct Hh as (here & _ & ->). now apply Page_fetch_listed.
Qed.

Lemma Page_shops_names here elements :
  Forall (fun s => Page.name s <> EmptyString) (Page.shops here elements).
Proof.
  apply List.Forall_forall. intros s (node & _ & ->)%In_nearest_of.
  simpl. now apply or_default_nonempty.
Qed.

Lemma Page_shops_length here elements : (length (Page.shops here elements) <= 5)%nat.
Proof.
  pose proof (nearest_of_length (Page.shop_of here) Page.distance elements 5 ltac:(lia)).
  unfold Page.shops, Page.nearest. lia.
Qed.
End PageRuns.

Section PageInvariants.
Context {host : Host}.
Implicit Types (sys : Page.System) (ev : Page.Event) (evs : list Page.Event).

Lemma truthy_Some (s : option string) : Page.truthy s <> None -> s <> None.
Proof. now destruct s. Qed.

(** An error that is shown stays shown. *)
Lemma Page_handle_error ev sys sys' :
  Page.truthy (Page.error (Page.state sys)) <> None ->
  Page.handle ev sys = Some sys' ->
  Page.truthy (Page.error (Page.state sys')) <> None.
Proof.
  intros H Hh. apply Page_handle_state in Hh. destruct ev.
  - rewrite Hh. unfold Page.getUserLocation. destruct geolocation; [assumption|discriminate].
  - now rewrite Hh.
  - rewrite Hh. discriminate.
  - rewrite Hh. unfold Page.fetchStarted. now destruct (Page.location _).
  - destruct Hh as (here & _ & ->). destruct r as [|ok [elements|]]; simpl; auto; discriminate.
Qed.

(** A position that is known stays known. *)
Lemma Page_handle_location ev sys sys' :
  Page.location (Page.state sys) <> None ->
  Page.handle ev sys = Some sys' ->
  Page.location (Page.state sys') <> None.
Proof.
  intros H Hh. apply Page_handle_state in Hh. destruct ev.
  - rewrite Hh. unfold Page.getUserLocation. now destruct geolocation.
  - rewrite Hh. discriminate.
  - now rewrite Hh.
  - rewrite Hh. unfold Page.fetchStarted. now destruct (Page.location _).
  - destruct Hh as (here & _ & ->). now destruct r as [|ok [elements|]].
Qed.

(** Fetches are on their way, and shops are listed, only for a known
    position. *)
Definition Page_positioned sys : Prop :=
  (Page.fetches sys <> [] \/ Page.coffeeShops (Page.state sys) <> []) ->
  Page.location (Page.state sys) <> None.

Lemma Page_handle_positioned ev sys sys' :
  Page_positioned sys -> Page.handle ev sys = Some sys' -> Page_positioned sys'.
Proof.
  unfold Page_positioned. intros H Hh.
  destruct (Page.location (Page.state sys)) as [here0|] eqn:El.
  - intros _. eapply Page_handle_location; [|exact Hh]. now rewrite El.
  - assert (Hf : Page.fetches sys = []).
    { destruct (Page.fetches sys); [reflexivity|]. exfalso. apply H; [now left|reflexivity]. }
    assert (Hc : Page.coffeeShops (Page.state sys) = []).
    { destruct (Page.coffeeShops (Page.state sys)); [reflexivity|].
      exfalso. apply H; [now right|reflexivity]. }
    clear H. revert Hh. destruct ev; unfold Page.handle.
    + destruct (Page.button _); [|discriminate]. intros [= <-]. simpl.
      rewrite Hf. unfold Page.getUserLocation. destruct geolocation; simpl; rewrite Hc; tauto.
    + destruct (Page.requests sys); [discriminate|]. intros [= <-]. simpl. discriminate.
    + destruct (Page.requests sys); [discriminate|]. intros [= <-]. simpl.
      rewrite Hf, Hc. tauto.
    + destruct (Page.effectDue sys); [|discriminate]. intros [= <-]. simpl.
      unfold Page.fetchStarted. rewrite El, Hf, Hc. tauto.
    + rewrite Hf. discriminate.
Qed.

(** [Loading...] is shown only while something is still to come. *)
Definition Page_waiting sys : Prop :=
  Page.loading (Page.state sys) = true ->
  (0 < Page.requests sys)%nat
  \/ Page.fetches sys <> []
  \/ (Page.effectDue sys = true /\ Page.location (Page.state sys) <> None).

Lemma Page_handle_waiting ev sys sys' :
  Page_waiting sys -> Page.handle ev sys = Some sys' -> Page_waiting sys'.
Proof.
  unfold Page_waiting. intros H. destruct ev; unfold Page.handle.
  - destruct (Page.button _); [|discriminate]. intros [= <-]. simpl.
    unfold Page.getUserLocation. destruct geolocation; simpl; [left; lia|exact H].
  - destruct (Page.requests sys); [discriminate|]. intros [= <-]. simpl.
    intros _. right. right. split; [reflexivity|discriminate].
  - destruct (Page.requests sys); [discriminate|]. intros [= <-]. simpl. discriminate.
  - destruct (Page.effectDue sys); [|discriminate]. intros [= <-]. simpl.
    unfold Page.fetchStarted. destruct (Page.location (Page.state sys)) as [here|] eqn:El; simpl.
    + intros _. right. left. now destruct (Page.fetches sys).
    + intros Hl. destruct (H Hl) as [?|[?|[_ ?]]]; auto; congruence.
  - destruct (Page.fetches sys !! i) as [here|]; [|discriminate]. intros [= <-]. simpl.
    destruct r as [|ok [elements|]]; simpl; discriminate.
Qed.
End PageInvariants.

Section FirstRuns.
Context {host : Host}.
Import Part0.
Implicit Types (sys : First.System) (ev : First.Event) (evs : list First.Event).

Lemma First_run_snoc evs ev sys :
  First.run (evs ++ [ev]) sys
  = match First.run evs sys with
    | Some sys' => First.handle ev sys'
    | None => None
    end.
Proof.
  revert sys. induction evs as [|e evs IH]; intros sys; simpl.
  - now destruct (First.handle ev sys).
  - destruct (First.handle e sys); [apply IH|reflexivity].
Qed.

(** An invariant of the events and of what has happened so far holds of
    every state that a run reaches. *)
Lemma First_run_invariant (P : list First.Event -> First.System -> Prop) sys0 :
  P [] sys0 ->
  (forall evs ev sys sys',
     P evs sys -> First.handle ev sys = Some sys' -> P (evs ++ [ev]) sys') ->
  forall evs sys, First.run evs sys0 = Some sys -> P evs sys.
Proof.
  intros H0 Hstep evs. induction evs as [|ev evs IH] using rev_ind; intros sys.
  - simpl. now intros [= <-].
  - rewrite First_run_snoc. destruct (First.run evs sys0) as [sys1|]; [|discriminate].
    intros Hh. eapply Hstep; [|exact Hh]. now apply IH.
Qed.

Lemma Part0_sortedShops_nil here elements :
  sortedShops here elements = [] -> elements = [].
Proof.
  intros H.
  pose proof (nearest_of_length (shop_of here) distance elements 5 ltac:(lia)) as Hl.
  unfold sortedShops, nearest in H. rewrite H in Hl. simpl in Hl.
  destruct elements; [reflexivity|simpl in Hl; lia].
Qed.

(** The number of things that can still lead to a fetch, with the fetches
    on their way. *)
Definition First_pending sys : nat :=
  (if First.mountDue sys then 1 else 0)
  + First.requests sys
  + (if First.effectDue sys
     then match location (First.state sys) with Some _ => 1 | None => 0 end
     else 0)
  + length (First.fetches sys).

Lemma length_delete_lookup {A} (l : list A) i x :
  l !! i = Some x -> length l = S (length (delete i l)).
Proof.
  intros H. rewrite length_delete; [|eauto].
  apply lookup_lt_Some in H. lia.
Qed.

Lemma First_handle_pending evs ev sys sys' :
  (First_pending sys + length (List.filter First_settles evs) <= 1)%nat ->
  First.handle ev sys = Some sys' ->
  (First_pending sys' + length (List.filter First_settles (evs ++ [ev])) <= 1)%nat.
Proof.
  unfold First_pending. rewrite List.filter_app, length_app.
  destruct ev; unfold First.handle; simpl.
  - destruct (First.mountDue sys); [|discriminate]. intros H [= <-]. simpl.
    unfold First.mounted. destruct geolocation; simpl; lia.
  - destruct (First.requests sys); [discriminate|]. intros H [= <-]. simpl.
    destruct (First.effectDue sys), (location (First.state sys)); lia.
  - destruct (First.requests sys); [discriminate|]. intros H [= <-]. simpl. lia.
  - destruct (First.effectDue sys); [|discriminate]. intros H [= <-]. simpl.
    destruct (location (First.state sys)); rewrite ?length_app; simpl; lia.
  - destruct (First.fetches sys !! i) as [here|] eqn:E; [|discriminate].
    intros H [= <-]. simpl. apply length_delete_lookup in E.
    assert (El : location (fetchCoffeeShops here r (First.state sys))
                 = location (First.state sys)) by now destruct r as [|[] [|]].
    rewrite El. lia.
Qed.

(** When nothing is loading, an error is shown or a fetch has given the
    list. *)
Definition First_settled evs sys : Prop :=
  loading (First.state sys) = false ->
  truthy (error (First.state sys)) = true
  \/ exists i here elements,
       In (First.FetchSettles i (FetchResponse true (Some elements))) evs
       /\ coffeeShops (First.state sys) = sortedShops here elements.

Lemma First_handle_settled evs ev sys sys' :
  First_settled evs sys -> First.handle ev sys = Some sys' ->
  First_settled (evs ++ [ev]) sys'.
Proof.
  unfold First_settled. intros H.
  assert (Hkeep : loading (First.state sys) = false ->
            truthy (error (First.state sys)) = true
            \/ exists i here elements,
                 In (First.FetchSettles i (FetchResponse true (Some elements))) (evs ++ [ev])
                 /\ coffeeShops (First.state sys) = sortedShops here elements).
  { intros Hl. destruct (H Hl) as [?|(i & here & es & Hin & Hc)]; [now left|right].
    exists i, here, es. split; [apply in_or_app; now left|assumption]. }
  clear H. destruct ev; unfold First.handle.
  - destruct (First.mountDue sys); [|discriminate]. intros [= <-]. simpl.
    unfold First.mounted. destruct geolocation; [exact Hkeep|]. now left.
  - destruct (First.requests sys); [discriminate|]. intros [= <-]. exact Hkeep.
  - destruct (First.requests sys); [discriminate|]. intros [= <-]. now left.
  - destruct (First.effectDue sys); [|discriminate]. intros [= <-]. exact Hkeep.
  - destruct (First.fetches sys !! i) as [here|]; [|discriminate]. intros [= <-]. simpl.
    intros _. destruct r as [|[] [elements|]]; simpl; try now left.
    right. exists i, here, elements. split; [|reflexivity].
    apply in_or_app. right. now left.
Qed.
End FirstRuns.

Section SecondRuns.
Context {host : Host}.
Import Part0.
Implicit Types (sys : Second.System) (ev : Second.Event) (evs : list Second.Event).

Lemma Second_run_snoc evs ev sys :
  Second.run (evs ++ [ev]) sys
  = match Second.run evs sys with
    | Some sys' => Second.handle ev sys'
    | None => None
    end.
Proof.
  revert sys. induction evs as [|e evs IH]; intros sys; simpl.
  - now destruct (Second.handle ev sys).
  - destruct (Second.handle e sys); [apply IH|reflexivity].
Qed.

Lemma Second_run_invariant (P : list Second.Event -> Second.System -> Prop) sys0 :
  P [] sys0 ->
  (forall evs ev sys sys',
     P evs sys -> Second.handle ev sys = Some sys' -> P (evs ++ [ev]) sys') ->
  forall evs sys, Second.run evs sys0 = Some sys -> P evs sys.
Proof.
  intros H0 Hstep evs. induction evs as [|ev evs IH] using rev_ind; intros sys.
  - simpl. now intros [= <-].
  - rewrite Second_run_snoc. destruct (Second.run evs sys0) as [sys1|]; [|discriminate].
    intros Hh. eapply Hstep; [|exact Hh]. now apply IH.
Qed.

Definition Second_pending sys : nat :=
  (if Second.requestDue sys && Second.isLocationRequested (Second.state sys) then 1 else 0)
  + Second.requests sys
  + (if Second.effectDue sys
     then match location (Second.page (Second.state sys)) with Some _ => 1 | None => 0 end
     else 0)
  + length (Second.fetches sys).

(** While the button is there nothing is under way and nothing has been
    fetched; once it is gone, one thing at most. *)
Definition Second_single evs sys : Prop :=
  if Second.isLocationRequested (Second.state sys)
  then (Second_pending sys + length (List.filter Second_settles evs) <= 1)%nat
  else (Second_pending sys + length (List.filter Second_settles evs) = 0)%nat.

(** While the position is asked for, [Loading...] is shown. *)
Definition Second_asking sys : Prop :=
  (Second.requestDue sys && Second.isLocationRequested (Second.state sys) = true
   \/ (0 < Second.requests sys)%nat) ->
  loading (Second.page (Second.state sys)) = true.

Definition Second_settled evs sys : Prop :=
  loading (Second.page (Second.state sys)) = false ->
  location (Second.page (Second.state sys)) <> None ->
  truthy (error (Second.page (Second.state sys))) = true
  \/ exists i here elements,
       In (Second.FetchSettles i (FetchResponse true (Some elements))) evs
       /\ coffeeShops (Second.page (Second.state sys)) = sortedShops here elements.

Definition Second_inv evs sys : Prop :=
  Second_single evs sys /\ Second_asking sys /\ Second_settled evs sys.

Lemma Second_handle_single evs ev sys sys' :
  Second_single evs sys -> Second.handle ev sys = Some sys' ->
  Second_single (evs ++ [ev]) sys'.
Proof.
  unfold Second_single, Second_pending. rewrite List.filter_app, length_app.
  destruct ev; unfold Second.handle; simpl.
  - unfold Second.render; simpl.
    destruct (Second.isLocationRequested (Second.state sys)) eqn:Er; simpl; [discriminate|].
    intros H [= <-]. unfold Second.requestLocation.
    destruct geolocation; simpl; rewrite ?Er, ?andb_false_r in *; simpl.
    + destruct (Second.effectDue sys), (location (Second.page (Second.state sys))); lia.
    + lia.
  - destruct (Second.requestDue sys); [|discriminate]. intros H [= <-]. simpl.
    destruct (Second.isLocationRequested (Second.state sys)); simpl in *; lia.
  - destruct (Second.requests sys); [discriminate|]. intros H [= <-]. simpl.
    destruct (Second.isLocationRequested (Second.state sys));
      destruct (Second.requestDue sys), (Second.effectDue sys),
        (location (Second.page (Second.state sys))); simpl in *; lia.
  - destruct (Second.requests sys); [discriminate|]. intros H [= <-]. simpl.
    rewrite andb_false_r.
    destruct (Second.isLocationRequested (Second.state sys));
      destruct (Second.requestDue sys); simpl in *; lia.
  - destruct (Second.effectDue sys); [|discriminate]. intros H [= <-]. simpl.
    destruct (Second.isLocationRequested (Second.state sys));
      destruct (location (Second.page (Second.state sys)));
      rewrite ?length_app; simpl in *; lia.
  - destruct (Second.fetches sys !! i) as [here|] eqn:E; [|discriminate].
    intros H [= <-]. simpl. apply length_delete_lookup in E.
    assert (El : location (fetchCoffeeShops here r (Second.page (Second.state sys)))
                 = location (Second.page (Second.state sys))) by now destruct r as [|[] [|]].
    rewrite El.
    destruct (Second.isLocationRequested (Second.state sys)); lia.
Qed.

Lemma Second_handle_inv evs ev sys sys' :
  Second_inv evs sys -> Second.handle ev sys = Some sys' ->
  Second_inv (evs ++ [ev]) sys'.
Proof.
  intros (Hs & Ha & Hf) Hh. split; [now apply (Second_handle_single evs ev sys)|].
  assert (Hkeep : loading (Second.page (Second.state sys)) = false ->
            location (Second.page (Second.state sys)) <> None ->
            truthy (error (Second.page (Second.state sys))) = true
            \/ exists i here elements,
                 In (Second.FetchSettles i (FetchResponse true (Some elements))) (evs ++ [ev])
                 /\ coffeeShops (Second.page (Second.state sys)) = sortedShops here elements).
  { intros Hl Hp. destruct (Hf Hl Hp) as [?|(i & here & es & Hin & Hc)]; [now left|right].
    exists i, here, es. split; [apply in_or_app; now left|assumption]. }
  clear Hf. unfold Second_single, Second_pending in Hs. unfold Second_asking in Ha.
  unfold Second_asking, Second_settled.
  revert Hh. destruct ev; unfold Second.handle.
  - destruct (button _); [|discriminate]. intros [= <-]. simpl.
    unfold Second.requestLocation. destruct geolocation; simpl.
    + split; [reflexivity|discriminate].
    + split; [exact Ha|]. intros _ _. now left.
  - destruct (Second.requestDue sys) eqn:Ed; [|discriminate]. intros [= <-]. simpl.
    split; [|exact Hkeep].
    destruct (Second.isLocationRequested (Second.state sys)) eqn:Er.
    + intros _. apply Ha. now left.
    + intros [?|?]; [discriminate|]. apply Ha. now right.
  - destruct (Second.requests sys) as [|n] eqn:En; [discriminate|]. intros [= <-]. simpl.
    assert (Hl : loading (Second.page (Second.state sys)) = true) by (apply Ha; right; lia).
    split; [intros _; exact Hl|]. rewrite Hl. discriminate.
  - destruct (Second.requests sys) as [|n] eqn:En; [discriminate|]. intros [= <-]. simpl.
    split; [|intros _ _; now left].
    rewrite andb_false_r. intros [?|Hn]; [discriminate|]. exfalso.
    destruct (Second.isLocationRequested (Second.state sys)); lia.
  - destruct (Second.effectDue sys); [|discriminate]. intros [= <-]. simpl.
    split; [exact Ha|exact Hkeep].
  - destruct (Second.fetches sys !! i) as [here|] eqn:E; [|discriminate].
    intros [= <-]. simpl. apply length_delete_lookup in E. split.
    + intros Hp. exfalso.
      destruct (Second.isLocationRequested (Second.state sys)), (Second.requestDue sys);
        simpl in *; destruct Hp; try discriminate; lia.
    + intros _ _. destruct r as [|[] [elements|]]; simpl; try now left.
      right. exists i, here, elements. split; [|reflexivity].
      apply in_or_app. right. now left.
Qed.

Lemma Second_boot_inv : Second_inv [] Second.boot.
Proof.
  split; [reflexivity|]. split.
  - intros [?|?]; [discriminate|]. simpl in *. lia.
  - intros _ H. now contradiction H.
Qed.
End SecondRuns.

Section Part0Lists.
Context {host : Host}.

Definition Part0_listed_ok (l : list Part0.CoffeeShop) : Prop :=
  l = [] \/ exists here elements, l = Part0.sortedShops here elements.

Lemma Part0_fetch_listed here r st :
  Part0_listed_ok (Part0.coffeeShops st) ->
  Part0_listed_ok (Part0.coffeeShops (Part0.fetchCoffeeShops here r st)).
Proof.
  intros H. destruct r as [|[] [elements|]]; simpl; auto.
  right. eauto.
Qed.

Lemma Part0_fetch_error here r st :
  Part0.truthy (Part0.error st) = true ->
  Part0.truthy (Part0.error (Part0.fetchCoffeeShops here r st)) = true.
Proof. intros H. now destruct r as [|[] [elements|]]. Qed.

Lemma Part0_listed_facts l :
  Part0_listed_ok l ->
  (length l <= 5)%nat /\ Forall (fun s => Part0.name s <> EmptyString) l.
Proof.
  intros [->|(here & es & ->)]; [split; [simpl; lia|constructor]|]. split.
  - pose proof (nearest_of_length (Part0.shop_of here) Part0.distance es 5 ltac:(lia)).
    unfold Part0.sortedShops, Part0.nearest. lia.
  - apply List.Forall_forall. intros s (node & _ & ->)%In_nearest_of.
    simpl. now apply or_default_nonempty.
Qed.

Definition First_sound (sys sys' : Part0.First.System) : Prop :=
  (Part0_listed_ok (Part0.coffeeShops (Part0.First.state sys)) ->
   Part0_listed_ok (Part0.coffeeShops (Part0.First.state sys')))
  /\ (Part0.truthy (Part0.error (Part0.First.state sys)) = true ->
      Part0.truthy (Part0.error (Part0.First.state sys')) = true).

Lemma First_handle_sound ev sys sys' :
  Part0.First.handle ev sys = Some sys' -> First_sound sys sys'.
Proof.
  unfold First_sound. destruct ev; unfold Part0.First.handle.
  - destruct (Part0.First.mountDue sys); [|discriminate]. intros [= <-]. simpl.
    unfold Part0.First.mounted. now destruct geolocation.
  - destruct (Part0.First.requests sys); [discriminate|]. now intros [= <-].
  - destruct (Part0.First.requests sys); [discriminate|]. now intros [= <-].
  - destruct (Part0.First.effectDue sys); [|discriminate]. now intros [= <-].
  - destruct (Part0.First.fetches sys !! i) as [here|]; [|discriminate]. intros [= <-].
    simpl. split; [apply Part0_fetch_listed|apply Part0_fetch_error].
Qed.

Lemma First_run_sound evs sys sys' :
  Part0.First.run evs sys = Some sys' -> First_sound sys sys'.
Proof.
  revert sys. induction evs as [|ev evs IH]; intros sys; simpl.
  - intros [= <-]. now split.
  - destruct (Part0.First.handle ev sys) as [sys1|] eqn:E; [|discriminate].
    intros H. destruct (First_handle_sound _ _ _ E), (IH _ H). split; auto.
Qed.

Definition Second_sound (sys sys' : Part0.Second.System) : Prop :=
  (Part0_listed_ok (Part0.coffeeShops (Part0.Second.page (Part0.Second.state sys))) ->
   Part0_listed_ok (Part0.coffeeShops (Part0.Second.page (Part0.Second.state sys'))))
  /\ (Part0.truthy (Part0.error (Part0.Second.page (Part0.Second.state sys))) = true ->
      Part0.truthy (Part0.error (Part0.Second.page (Part0.Second.state sys'))) = true).

Lemma Second_handle_sound ev sys sys' :
  Part0.Second.handle ev sys = Some sys' -> Second_sound sys sys'.
Proof.
  unfold Second_sound. destruct ev; unfold Part0.Second.handle.
  - destruct (Part0.button _); [|discriminate]. intros [= <-]. simpl.
    unfold Part0.Second.requestLocation. now destruct geolocation.
  - destruct (Part0.Second.requestDue sys); [|discriminate]. now intros [= <-].
  - destruct (Part0.Second.requests sys); [discriminate|]. now intros [= <-].
  - destruct (Part0.Second.requests sys); [discriminate|]. now intros [= <-].
  - destruct (Part0.Second.effectDue sys); [|discriminate]. now intros [= <-].
  - destruct (Part0.Second.fetches sys !! i) as [here|]; [|discriminate]. intros [= <-].
    simpl. split; [apply Part0_fetch_listed|apply Part0_fetch_error].
Qed.

Lemma Second_run_sound evs sys sys' :
  Part0.Second.run evs sys = Some sys' -> Second_sound sys sys'.
Proof.
  revert sys. induction evs as [|ev evs IH]; intros sys; simpl.
  - intros [= <-]. now split.
  - destruct (Part0.Second.handle ev sys) as [sys1|] eqn:E; [|discriminate].
    intros H. destruct (Second_handle_sound _ _ _ E), (IH _ H). split; auto.
Qed.
End Part0Lists.

Section Part0Busy.
Context {host : Host}.
Import Part0.

(** In the first page something is under way exactly while [Loading...]
    is shown. *)
Definition First_busy (sys : First.System) : Prop :=
  loading (First.state sys) = true <-> (0 < First_pending sys)%nat.

Lemma First_handle_busy evs ev sys sys' :
  (First_pending sys + length (List.filter First_settles evs) <= 1)%nat ->
  First_busy sys -> First.handle ev sys = Some sys' -> First_busy sys'.
Proof.
  unfold First_busy, First_pending. intros Hp [H1 H2].
  destruct ev; unfold First.handle; simpl.
  - destruct (First.mountDue sys); [|discriminate]. intros [= <-]. simpl.
    unfold First.mounted. destruct geolocation; simpl.
    + split; [lia|]. intros _. apply H2. lia.
    + split; [discriminate|].
      destruct (First.effectDue sys), (location (First.state sys)); simpl in *; lia.
  - destruct (First.requests sys) as [|n]; [discriminate|]. intros [= <-]. simpl.
    split; [intros _; destruct (First.effectDue sys); lia|].
    intros _. apply H2. lia.
  - destruct (First.requests sys) as [|n]; [discriminate|]. intros [= <-]. simpl.
    split; [discriminate|].
    destruct (First.mountDue sys), (First.effectDue sys), (location (First.state sys));
      simpl in *; lia.
  - destruct (First.effectDue sys); [|discriminate]. intros [= <-]. simpl.
    destruct (location (First.state sys)); rewrite ?length_app; simpl in *.
    + split; [lia|]. intros _. apply H2. lia.
    + split; [intros H; specialize (H1 H); lia|intros H; apply H2; lia].
  - destruct (First.fetches sys !! i) as [here|] eqn:E; [|discriminate].
    intros [= <-]. simpl. apply length_delete_lookup in E.
    assert (El : location (fetchCoffeeShops here r (First.state sys))
                 = location (First.state sys)) by now destruct r as [|[] [|]].
    assert (Ef : loading (fetchCoffeeShops here r (First.state sys)) = false)
      by now destruct r as [|[] [|]].
    rewrite El, Ef. split; [discriminate|].
    destruct (First.mountDue sys), (First.effectDue sys), (location (First.state sys));
      simpl in *; lia.
Qed.

(** So it is in the second page. *)
Definition Second_busy (sys : Second.System) : Prop :=
  loading (Second.page (Second.state sys)) = true <-> (0 < Second_pending sys)%nat.

Lemma Second_handle_busy evs ev sys sys' :
  Second_single evs sys ->
  Second_busy sys -> Second.handle ev sys = Some sys' -> Second_busy sys'.
Proof.
  unfold Second_busy, Second_single, Second_pending. intros Hp [H1 H2].
  destruct ev; unfold Second.handle; simpl.
  - unfold Second.render; simpl.
    destruct (Second.isLocationRequested (Second.state sys)) eqn:Er; simpl; [discriminate|].
    intros [= <-]. unfold Second.requestLocation.
    destruct geolocation; simpl; rewrite ?Er, ?andb_false_r in *; simpl.
    + split; [lia|reflexivity].
    + split; assumption.
  - destruct (Second.requestDue sys) eqn:Ed; [|discriminate]. intros [= <-]. simpl.
    destruct (Second.isLocationRequested (Second.state sys)); simpl in *.
    + split; [lia|]. intros _. apply H2. lia.
    + split; assumption.
  - destruct (Second.requests sys) as [|n]; [discriminate|]. intros [= <-]. simpl.
    split; [intros _; destruct (Second.effectDue sys); lia|].
    intros _. apply H2. lia.
  - destruct (Second.requests sys) as [|n]; [discriminate|]. intros [= <-]. simpl.
    rewrite andb_false_r. split; [discriminate|].
    destruct (Second.isLocationRequested (Second.state sys)), (Second.requestDue sys),
      (Second.effectDue sys), (location (Second.page (Second.state sys)));
      simpl in *; lia.
  - destruct (Second.effectDue sys); [|discriminate]. intros [= <-]. simpl.
    destruct (location (Second.page (Second.state sys))); rewrite ?length_app; simpl in *.
    + split; [lia|]. intros _. apply H2. lia.
    + split; [intros H; specialize (H1 H); lia|intros H; apply H2; lia].
  - destruct (Second.fetches sys !! i) as [here|] eqn:E; [|discriminate].
    intros [= <-]. simpl. apply length_delete_lookup in E.
    assert (El : location (fetchCoffeeShops here r (Second.page (Second.state sys)))
                 = location (Second.page (Second.state sys))) by now destruct r as [|[] [|]].
    assert (Ef : loading (fetchCoffeeShops here r (Second.page (Second.state sys))) = false)
      by now destruct r as [|[] [|]].
    rewrite El, Ef. split; [discriminate|].
    destruct (Second.isLocationRequested (Second.state sys)), (Second.requestDue sys),
      (Second.effectDue sys), (location (Second.page (Second.state sys)));
      simpl in *; lia.
Qed.
End Part0Busy.

(** * The ranking of the pages *)

(** C1. The order by distance is lost when a distance is NaN, as it is
    for a cafe on the other side of the globe: with the position
    (-2.5, 0) and a response of the cafe at (2.5, 180) and any other
    cafe, both are listed, and in whatever order [sort] leaves them the
    two distances are not in ascending order, as NaN is neither below nor
    equal to a number, nor a number to NaN.  The hypotheses are those of
    C6: the sine and the cosine of two and a half degrees rounded to
    nearest, and the arc tangent of NaN. *)
Theorem nan_distance_breaks_the_order (host : Host) (c : Element) :
  atan2_of_nan host -> sin_cos_at_two_and_a_half_degrees host ->
  (is_nan (Page.distance (Page.shop_of south north_cafe)) = true
   /\ (forall l : list Page.CoffeeShop,
         Permutation l (map (Page.shop_of south) [north_cafe; c]) ->
         ~ ascending (map Page.distance l))
   /\ length (Page.shops south [north_cafe; c]) = 2%nat
   /\ ~ ascending (map Page.distance (Page.shops south [north_cafe; c])))
  /\
  (is_nan (Part0.distance (Part0.shop_of south north_cafe)) = true
   /\ (forall l : list Part0.CoffeeShop,
         Permutation l (map (Part0.shop_of south) [north_cafe; c]) ->
         ~ ascending (map Part0.distance l))
   /\ length (Part0.sortedShops south [north_cafe; c]) = 2%nat
   /\ ~ ascending (map Part0.distance (Part0.sortedShops south [north_cafe; c]))).
Proof.
  intros Hnan Hval.
  pose proof (Page_north_cafe_nan host Hnan Hval) as Hpage.
  pose proof (Part0_north_cafe_nan host Hnan Hval) as Hpart.
  split; (split; [assumption|]).
  - split; [intros l; now apply not_ascending_nan|].
    pose proof (nearest_of_two (Page.shop_of south) Page.distance north_cafe c) as Hp.
    split; [exact (Permutation_length Hp)|]. exact (not_ascending_nan Page.distance _ _ _ Hpage Hp).
  - split; [intros l; now apply not_ascending_nan|].
    pose proof (nearest_of_two (Part0.shop_of south) Part0.distance north_cafe c) as Hp.
    split; [exact (Permutation_length Hp)|]. exact (not_ascending_nan Part0.distance _ _ _ Hpart Hp).
Qed.

Lemma nan_distance_breaks_the_order_witness :
  ~ ascending (map Page.distance
                 (Page.shops (host := kernel_host) south [north_cafe; cafe 2 2.5 0 None]))
  /\ ~ ascending (map Part0.distance
                    (Part0.sortedShops (host := kernel_host) south
                       [north_cafe; cafe 2 2.5 0 None])).
Proof.
  destruct (nan_distance_breaks_the_order kernel_host (cafe 2 2.5 0 None)
              kernel_atan2_of_nan kernel_sin_cos_at_two_and_a_half_degrees)
    as [(_ & _ & _ & H1) (_ & _ & _ & H2)].
  split; assumption.
Defined.

(** C2. For every origin, every list of candidates and every [k] that is
    not negative, [nearest] returns the first [k] entries of the
    candidates sorted by distance, all of them when there are fewer than
    [k]: it has at most [k] entries and at most as many as there are
    candidates.  The pages call it with [k = 5]. *)
Theorem nearest_returns_first_k (host : Host) (origin : Location)
    (candidates : list Element) (k : Z) :
  (0 <= k)%Z ->
  (Page.nearest origin candidates k
   = firstn (Z.to_nat k)
       (Array_sort (by_distance Page.distance) (map (Page.shop_of origin) candidates))
   /\ (Z.of_nat (length (Page.nearest origin candidates k)) <= k)%Z
   /\ (length (Page.nearest origin candidates k) <= length candidates)%nat
   /\ Z.of_nat (length (Page.nearest origin candidates k))
      = Z.min k (Z.of_nat (length candidates)))
  /\
  (Part0.nearest origin candidates k
   = firstn (Z.to_nat k)
       (Array_sort (by_distance Part0.distance) (map (Part0.shop_of origin) candidates))
   /\ (Z.of_nat (length (Part0.nearest origin candidates k)) <= k)%Z
   /\ (length (Part0.nearest origin candidates k) <= length candidates)%nat
   /\ Z.of_nat (length (Part0.nearest origin candidates k))
      = Z.min k (Z.of_nat (length candidates)))
  /\
  Page.shops origin candidates = Page.nearest origin candidates 5
  /\
  Part0.sortedShops origin candidates = Part0.nearest origin candidates 5.
Proof.
  intros Hk. unfold Page.nearest, Part0.nearest.
  pose proof (nearest_of_length (Page.shop_of origin) Page.distance candidates k Hk).
  pose proof (nearest_of_length (Part0.shop_of origin) Part0.distance candidates k Hk).
  repeat split;
    try (now apply nearest_of_first);
    try apply nearest_of_length_le; try assumption; lia.
Qed.

Lemma nearest_returns_first_k_witness :
  (0 <= 5)%Z /\
  Page.nearest (host := small_angle_host) berlin cafes 5
  = firstn 5 (Array_sort (by_distance Page.distance)
                (map (Page.shop_of (host := small_angle_host) berlin) cafes)).
Proof.
  split; [lia|].
  apply (nearest_returns_first_k small_angle_host berlin cafes 5). lia.
Defined.

(** C7. With no candidates [nearest] returns the empty sequence, for every
    origin and every [k]; [fetchCoffeeShops] then stores the empty list and
    ends loading without setting an error: it is a result, not a failure. *)
Theorem nearest_of_no_candidates (host : Host) (origin : Location) (k : Z)
    (ok : bool) (st : Page.State) (st0 : Part0.State) :
  Page.nearest origin [] k = []
  /\ Part0.nearest origin [] k = []
  /\ Page.fetchCoffeeShops origin (FetchResponse ok (Some [])) st
     = {| Page.location := Page.location st;
          Page.coffeeShops := [];
          Page.loading := false;
          Page.error := Page.error st |}
  /\ Part0.fetchCoffeeShops origin (FetchResponse true (Some [])) st0
     = {| Part0.coffeeShops := [];
          Part0.loading := false;
          Part0.error := Part0.error st0;
          Part0.location := Part0.location st0 |}.
Proof.
  repeat split; apply nearest_of_nil.
Qed.

(** C9. The ranking has no effect on what it is given: run on a heap that
    holds the position and the array of candidates, it returns a new array
    with the ranked shops, and every object that was on the heap, the
    position and the array of candidates among them, is as it was.  The
    array that [sort] changes in place is the one [map] has just made. *)
Theorem ranking_has_no_side_effects (host : Host)
    (h : heap Page.CoffeeShop) (h0 : heap Part0.CoffeeShop)
    (position elements : ref) (l : Location) (es : list Element) :
  h !! position = Some (LocationObject l) ->
  h !! elements = Some (ElementArray es) ->
  h0 !! position = Some (LocationObject l) ->
  h0 !! elements = Some (ElementArray es) ->
  (exists (out : ref) (h' : heap Page.CoffeeShop),
      Page.shops_on_heap position elements h = Some (out, h')
      /\ h' !! out = Some (ShopArray (Page.shops l es))
      /\ h !! out = None
      /\ h' !! position = Some (LocationObject l)
      /\ h' !! elements = Some (ElementArray es)
      /\ preserved h h')
  /\
  (exists (out : ref) (h' : heap Part0.CoffeeShop),
      Part0.shops_on_heap position elements h0 = Some (out, h')
      /\ h' !! out = Some (ShopArray (Part0.sortedShops l es))
      /\ h0 !! out = None
      /\ h' !! position = Some (LocationObject l)
      /\ h' !! elements = Some (ElementArray es)
      /\ preserved h0 h').
Proof.
  intros Hl He Hl0 He0. split.
  - eexists _, _. split.
    + unfold Page.shops_on_heap.
      apply (ranking_on_heap Page.shop_of Page.distance 5 _ _ l es); assumption.
    + repeat split.
      * rewrite (lookup_app_r h) by lia.
        now replace (S (length h) - length h)%nat with 1%nat by lia.
      * apply lookup_ge_None_2. lia.
      * now apply lookup_app_l_Some.
      * now apply lookup_app_l_Some.
      * apply preserved_app.
  - eexists _, _. split.
    + unfold Part0.shops_on_heap.
      apply (ranking_on_heap Part0.shop_of Part0.distance 5 _ _ l es); assumption.
    + repeat split.
      * rewrite (lookup_app_r h0) by lia.
        now replace (S (length h0) - length h0)%nat with 1%nat by lia.
      * apply lookup_ge_None_2. lia.
      * now apply lookup_app_l_Some.
      * now apply lookup_app_l_Some.
      * apply preserved_app.
Qed.

Lemma ranking_has_no_side_effects_witness :
  exists (out : ref) (h' : heap Page.CoffeeShop),
    Page.shops_on_heap (host := small_angle_host) 0%nat 1%nat
      [LocationObject berlin; ElementArray cafes] = Some (out, h')
    /\ h' !! 1%nat = Some (ElementArray cafes).
Proof.
  destruct (ranking_has_no_side_effects small_angle_host
              [LocationObject berlin; ElementArray cafes]
              [LocationObject berlin; ElementArray cafes]
              0%nat 1%nat berlin cafes
              eq_refl eq_refl eq_refl eq_refl)
    as [(out & h' & Hrun & _ & _ & _ & He & _) _].
  exists out, h'. split; assumption.
Defined.

(** * The distance of the pages *)

Section DistanceFacts.
Context {host : Host}.
Local Open Scope float_scope.

Lemma latitude_finite_below (x : number) :
  (-90 <=? x) = true -> (x <=? 90) = true -> finite_below (-46) (Prim2SF x).
Proof. apply (between_finite_below x 90 6333186975989760 (-46) eq_refl). Qed.

Lemma longitude_finite_below (x : number) :
  (-180 <=? x) = true -> (x <=? 180) = true -> finite_below (-45) (Prim2SF x).
Proof. apply (between_finite_below x 180 6333186975989760 (-45) eq_refl). Qed.

(** [x * (Math.PI / 180)] is finite for a latitude [x]. *)
Lemma radians_finite (x : number) :
  finite_below (-46) (Prim2SF x) -> is_finite (x * (Math_PI / 180)) = true.
Proof.
  intros Hx. eapply finite_below_is_finite.
  apply (mul_finite_below (-46) (-58)); [exact Hx| |lia].
  vm_compute. discriminate.
Qed.

(** [(x * Math.PI) / 180] is finite for a latitude [x]. *)
Lemma radians_finite' (x : number) :
  finite_below (-46) (Prim2SF x) -> is_finite (x * Math_PI / 180) = true.
Proof.
  intros Hx. eapply finite_below_is_finite.
  apply (div_finite_below 43 _ 180 false 6333186975989760 (-45) eq_refl).
  - apply (mul_finite_below (-46) (-51)); [exact Hx| |lia].
    vm_compute. discriminate.
  - vm_compute. discriminate.
Qed.
(** The haversine terms do not change when the two points are swapped:
    the difference changes sign, or is +0 both ways, and the sine is
    squared. *)
Section Swap.
Hypothesis Hodd : sin_odd host.

Lemma sine_pair_swap (f : number -> number) (c x y : number) :
  (forall d, f (- d) = - f d) ->
  c * Math_sin (f (y - x)) * Math_sin (f (y - x))
  = c * Math_sin (f (x - y)) * Math_sin (f (x - y)).
Proof.
  intros Hf. destruct (sub_antisym x y) as [->|[-> ->]]; [|reflexivity].
  now rewrite Hf, Hodd, (mul_opp_r c), mul_opp_opp.
Qed.

Lemma sine_square_swap (f : number -> number) (x y : number) :
  (forall d, f (- d) = - f d) ->
  Math_sin (f (y - x)) * Math_sin (f (y - x))
  = Math_sin (f (x - y)) * Math_sin (f (x - y)).
Proof.
  intros Hf. destruct (sub_antisym x y) as [->|[-> ->]]; [|reflexivity].
  now rewrite Hf, Hodd, mul_opp_opp.
Qed.

Lemma Page_central_angle_swap (lat1 lon1 lat2 lon2 : number) :
  Page.central_angle lat1 lon1 lat2 lon2 = Page.central_angle lat2 lon2 lat1 lon1.
Proof.
  unfold Page.central_angle. cbv zeta.
  pose (f := fun d : number => d * Math_PI / 180 / 2).
  assert (Hf : forall d, f (- d) = - f d)
    by (intros d; unfold f; now rewrite mul_opp_l, !div_opp_l).
  change ((lat2 - lat1) * Math_PI / 180 / 2) with (f (lat2 - lat1)).
  change ((lon2 - lon1) * Math_PI / 180 / 2) with (f (lon2 - lon1)).
  change ((lat1 - lat2) * Math_PI / 180 / 2) with (f (lat1 - lat2)).
  change ((lon1 - lon2) * Math_PI / 180 / 2) with (f (lon1 - lon2)).
  rewrite (sine_square_swap f lat1 lat2 Hf), (sine_pair_swap f _ lon1 lon2 Hf).
  now rewrite (mul_comm (Math_cos (lat1 * Math_PI / 180))).
Qed.

Lemma Part0_central_angle_swap (lat1 lon1 lat2 lon2 : number) :
  Part0.central_angle lat1 lon1 lat2 lon2 = Part0.central_angle lat2 lon2 lat1 lon1.
Proof.
  unfold Part0.central_angle. cbv zeta.
  pose (f := fun d : number => d * (Math_PI / 180) / 2).
  assert (Hf : forall d, f (- d) = - f d)
    by (intros d; unfold f; now rewrite mul_opp_l, div_opp_l).
  change ((lat2 - lat1) * (Math_PI / 180) / 2) with (f (lat2 - lat1)).
  change ((lon2 - lon1) * (Math_PI / 180) / 2) with (f (lon2 - lon1)).
  change ((lat1 - lat2) * (Math_PI / 180) / 2) with (f (lat1 - lat2)).
  change ((lon1 - lon2) * (Math_PI / 180) / 2) with (f (lon1 - lon2)).
  rewrite (sine_square_swap f lat1 lat2 Hf), (sine_pair_swap f _ lon1 lon2 Hf).
  now rewrite (mul_comm (Math_cos (lat1 * (Math_PI / 180)))).
Qed.
End Swap.
End DistanceFacts.

(** C4. For every coordinate [a] with its latitude in [-90, 90] and its
    longitude in [-180, 180], [distance(a, a)] is [+0], on a host whose
    sine and arc tangent are [+0] at [+0] and whose cosine is between -1
    and 1. *)
Theorem distance_to_self_is_zero (host : Host) (lat lon : number) :
  sin_of_zero host -> atan2_of_zero host -> cos_bounded host ->
  (-90 <=? lat)%float = true -> (lat <=? 90)%float = true ->
  (-180 <=? lon)%float = true -> (lon <=? 180)%float = true ->
  Page.calculateDistance lat lon lat lon = 0%float
  /\ Part0.calculateDistance lat lon lat lon = 0%float.
Proof.
  intros Hsin Hatan Hcos Hlat1 Hlat2 Hlon1 Hlon2.
  pose proof (latitude_finite_below lat Hlat1 Hlat2) as Hlat.
  pose proof (longitude_finite_below lon Hlon1 Hlon2) as Hlon.
  red in Hsin. split.
  - unfold Page.calculateDistance, Page.central_angle. cbv zeta.
    rewrite (sub_diag _ lat Hlat), (sub_diag _ lon Hlon).
    change (0 * Math_PI / 180 / 2)%float with 0%float.
    rewrite Hsin.
    rewrite haversine_sum_zero by (apply Hcos, radians_finite', Hlat).
    change (Math_sqrt 0) with 0%float. change (Math_sqrt (1 - 0)) with 1%float.
    rewrite (Hatan 1%float eq_refl). reflexivity.
  - unfold Part0.calculateDistance, Part0.central_angle. cbv zeta.
    rewrite (sub_diag _ lat Hlat), (sub_diag _ lon Hlon).
    change (0 * (Math_PI / 180) / 2)%float with 0%float.
    rewrite Hsin.
    rewrite haversine_sum_zero by (apply Hcos, radians_finite, Hlat).
    change (Math_sqrt 0) with 0%float. change (Math_sqrt (1 - 0)) with 1%float.
    rewrite (Hatan 1%float eq_refl). reflexivity.
Qed.

Lemma distance_to_self_is_zero_witness :
  Page.calculateDistance (host := small_angle_host) 52.5 13.5 52.5 13.5 = 0%float
  /\ Part0.calculateDistance (host := small_angle_host) 52.5 13.5 52.5 13.5 = 0%float.
Proof.
  apply (distance_to_self_is_zero small_angle_host 52.5 13.5
           small_angle_sin_of_zero small_angle_atan2_of_zero small_angle_cos_bounded);
    reflexivity.
Defined.

(** C5. The two distances between (-2.5, 0) and (2.5, 180) are within no
    tolerance of each other, 1e-9 among them: the one from (-2.5, 0) is
    NaN, and a comparison with NaN is false.  The hypotheses are those
    of C6. *)
Theorem nan_distance_is_within_no_tolerance (host : Host) (tol : number) :
  atan2_of_nan host -> sin_cos_at_two_and_a_half_degrees host ->
  (within_relative_tolerance tol
     (Page.calculateDistance (-2.5) 0 2.5 180)
     (Page.calculateDistance 2.5 180 (-2.5) 0) = false
   /\ within_relative_tolerance (1 / 1000000000)
        (Page.calculateDistance (-2.5) 0 2.5 180)
        (Page.calculateDistance 2.5 180 (-2.5) 0) = false)
  /\
  (within_relative_tolerance tol
     (Part0.calculateDistance (-2.5) 0 2.5 180)
     (Part0.calculateDistance 2.5 180 (-2.5) 0) = false
   /\ within_relative_tolerance (1 / 1000000000)
        (Part0.calculateDistance (-2.5) 0 2.5 180)
        (Part0.calculateDistance 2.5 180 (-2.5) 0) = false).
Proof.
  intros Hnan Hval.
  rewrite (Page_antipodal_nan host Hnan Hval), (Part0_antipodal_nan host Hnan Hval).
  repeat split; apply within_relative_tolerance_nan.
Qed.

Lemma nan_distance_is_within_no_tolerance_witness :
  within_relative_tolerance (1 / 1000000000)
    (Page.calculateDistance (host := kernel_host) (-2.5) 0 2.5 180)
    (Page.calculateDistance (host := kernel_host) 2.5 180 (-2.5) 0) = false
  /\ within_relative_tolerance (1 / 1000000000)
       (Part0.calculateDistance (host := kernel_host) (-2.5) 0 2.5 180)
       (Part0.calculateDistance (host := kernel_host) 2.5 180 (-2.5) 0) = false.
Proof.
  destruct (nan_distance_is_within_no_tolerance kernel_host (1 / 1000000000)
              kernel_atan2_of_nan kernel_sin_cos_at_two_and_a_half_degrees)
    as [[H1 _] [H2 _]].
  split; assumption.
Defined.


(** On the host to compute with, one degree of longitude on the equator:
    [page.tsx] gives 11120 hundredths of a kilometre, [part_000] a
    distance that rounding to two decimals would change. *)
Example one_degree_on_the_equator :
  Page.calculateDistance (host := small_angle_host) 0 0 0 1 = (11120 / 100)%float
  /\ (Math_round (Part0.calculateDistance (host := small_angle_host) 0 0 0 1 * 100) / 100
      =? Part0.calculateDistance (host := small_angle_host) 0 0 0 1)%float = false.
Proof. split; vm_compute; reflexivity. Qed.

(** * One degree of longitude, and the other side of the globe *)

Section OneDegree.
Context (host : Host).
Hypothesis sin0 : sin_of_zero host.
Hypothesis cos0 : cos_of_zero host.
Hypothesis sin_acc : sin_at_half_degree host.
Hypothesis atan2_acc : atan2_near_half_degree host.
Local Open Scope R_scope.

(** The values of [Math.sin(dLon / 2)], of [a], of the two square roots, of
    the arc tangent and of [c], each within an interval that allows for
    the rounding of the operation that computes it. *)
Lemma sin_value : 8719 / 1000000 <= value (Math_sin half_degree) <= 8731 / 1000000.
Proof.
  destruct sin_acc as [H1 H2].
  between_literals (872 / 100000)%float (873 / 100000)%float H1 H2. lra.
Qed.

Lemma one_value : value 1 = 1.
Proof. literal_value 1%float. lra. Qed.

Lemma one_degree_a_value : 760 / 10000000 <= value one_degree_a <= 763 / 10000000.
Proof.
  pose proof sin_value as Hs. pose proof one_value as H1.
  assert (Hp : 8718 / 1000000 <= value (1 * Math_sin half_degree) <= 8732 / 1000000).
  { pose proof (mul_interval 1 (Math_sin half_degree) 1 1 (8719 / 1000000) (8731 / 1000000)) as H.
    destruct H as [Ha Hb]; numbers. }
  assert (Hq : 760 / 10000000
               <= value (1 * Math_sin half_degree * Math_sin half_degree)
               <= 763 / 10000000).
  { pose proof (mul_interval (1 * Math_sin half_degree) (Math_sin half_degree)
                  (8718 / 1000000) (8732 / 1000000) (8719 / 1000000) (8731 / 1000000)) as H.
    destruct H as [Ha Hb]; numbers. }
  unfold one_degree_a.
  destruct (safe_finite (1 * Math_sin half_degree * Math_sin half_degree))
    as (m & e & E & _); [apply safe_of_bounds; numbers|].
  rewrite (add_zero_l _ _ _ _ E). exact Hq.
Qed.

Lemma sqrt_a_value :
  8716 / 1000000 <= value (Math_sqrt one_degree_a) <= 8737 / 1000000.
Proof.
  pose proof one_degree_a_value as Ha.
  destruct (sqrt_interval one_degree_a (760 / 10000000) (763 / 10000000)
              (8717 / 1000000) (8736 / 1000000)) as [H1 H2]; numbers.
Qed.

Lemma one_minus_a_value :
  9999236 / 10000000 <= value (1 - one_degree_a) <= 9999241 / 10000000.
Proof.
  pose proof one_degree_a_value as Ha. pose proof one_value as H1.
  destruct (sub_interval 1 one_degree_a 1 1 (760 / 10000000) (763 / 10000000))
    as [Hl Hh]; numbers.
Qed.

Lemma sqrt_one_minus_a_value :
  99995 / 100000 <= value (Math_sqrt (1 - one_degree_a)) <= 99998 / 100000.
Proof.
  pose proof one_minus_a_value as Hb.
  destruct (sqrt_interval (1 - one_degree_a) (9999236 / 10000000) (9999241 / 10000000)
              (99996 / 100000) (99997 / 100000)) as [H1 H2]; numbers.
Qed.

Lemma atan2_value :
  86899 / 10000000
  <= value (Math_atan2 (Math_sqrt one_degree_a) (Math_sqrt (1 - one_degree_a)))
  <= 87601 / 10000000.
Proof.
  pose proof sqrt_a_value as Hy. pose proof sqrt_one_minus_a_value as Hx.
  destruct (atan2_acc (Math_sqrt one_degree_a) (Math_sqrt (1 - one_degree_a)))
    as [H1 H2].
  - above_literal (87 / 10000)%float Hy.
  - below_literal (875 / 100000)%float Hy.
  - above_literal (9999 / 10000)%float Hx.
  - below_literal 1%float Hx.
  - between_literals (869 / 100000)%float (876 / 100000)%float H1 H2. lra.
Qed.

Lemma one_degree_c_value :
  173797 / 10000000 <= value one_degree_c <= 175203 / 10000000.
Proof.
  pose proof atan2_value as Ht.
  assert (H2 : value 2 = 2) by (literal_value 2%float; lra).
  destruct (mul_interval 2 (Math_atan2 (Math_sqrt one_degree_a) (Math_sqrt (1 - one_degree_a)))
              2 2 (86899 / 10000000) (87601 / 10000000)) as [Hl Hh]; try numbers.
  unfold one_degree_c. numbers.
Qed.

(** Both pages compute that [c] from (0, 0) to (0, 1). *)
Lemma Part0_central_angle_one_degree :
  Part0.central_angle 0 0 0 1 = one_degree_c.
Proof.
  unfold Part0.central_angle, one_degree_c, one_degree_a. cbv zeta.
  change ((0 - 0) * (Math_PI / 180) / 2)%float with 0%float.
  change (0 * (Math_PI / 180))%float with 0%float.
  change ((1 - 0) * (Math_PI / 180) / 2)%float with half_degree.
  rewrite sin0, cos0.
  change (0 * 0)%float with 0%float. change (1 * 1)%float with 1%float.
  reflexivity.
Qed.

Lemma Page_central_angle_one_degree :
  Page.central_angle 0 0 0 1 = one_degree_c.
Proof.
  unfold Page.central_angle, one_degree_c, one_degree_a. cbv zeta.
  change ((0 - 0) * Math_PI / 180 / 2)%float with 0%float.
  change (0 * Math_PI / 180)%float with 0%float.
  change ((1 - 0) * Math_PI / 180 / 2)%float with half_degree.
  rewrite sin0, cos0.
  change (0 * 0)%float with 0%float. change (1 * 1)%float with 1%float.
  reflexivity.
Qed.

(** The distances, in kilometres. *)
Lemma Part0_one_degree_value :
  11069 / 100 <= value (Part0.calculateDistance 0 0 0 1) <= 11169 / 100.
Proof.
  pose proof one_degree_c_value as Hc.
  unfold Part0.calculateDistance. cbv zeta. rewrite Part0_central_angle_one_degree.
  unfold Part0.R.
  assert (HR : value 6371 = 6371) by (literal_value 6371%float; lra).
  destruct (mul_interval 6371 one_degree_c 6371 6371
              (173797 / 10000000) (175203 / 10000000)) as [Hl Hh];
    numbers.
Qed.

Lemma Page_one_degree_value :
  11069 / 100 <= value (Page.calculateDistance 0 0 0 1) <= 11169 / 100.
Proof.
  pose proof one_degree_c_value as Hc.
  unfold Page.calculateDistance. cbv zeta. rewrite Page_central_angle_one_degree.
  unfold Page.R.
  assert (HR : value 6371e3 = 6371000) by (literal_value 6371e3%float; lra).
  assert (Hk : value 1000 = 1000) by (literal_value 1000%float; lra).
  assert (Hh : value 100 = 100) by (literal_value 100%float; lra).
  assert (H1 : 110726 <= value (6371e3 * one_degree_c) <= 111622).
  { destruct (mul_interval 6371e3 one_degree_c 6371000 6371000
                (173797 / 10000000) (175203 / 10000000)) as [Hl Hu];
      numbers. }
  assert (H2 : 110725 / 1000 <= value (6371e3 * one_degree_c / 1000) <= 111623 / 1000).
  { destruct (div_interval (6371e3 * one_degree_c) 1000 110726 111622 1000 1000)
      as [Hl Hu]; numbers. }
  assert (H3 : 11072 <= value (6371e3 * one_degree_c / 1000 * 100) <= 11163).
  { destruct (mul_interval (6371e3 * one_degree_c / 1000) 100
                (110725 / 1000) (111623 / 1000) 100 100)
      as [Hl Hu]; numbers. }
  destruct (Math_round_value (6371e3 * one_degree_c / 1000 * 100)) as (n & -> & Hn1 & Hn2).
  { numbers. }
  assert (Hn : (11072 <= n <= 11163)%Z).
  { assert (11071 < n)%Z by (apply lt_IZR; lra).
    assert (n < 11164)%Z by (apply lt_IZR; lra). lia. }
  pose proof (hundredth_near_111_spec n Hn) as Hb.
  unfold hundredth_near_111 in Hb. apply andb_prop in Hb as [Hb1 Hb2].
  assert (H : value (1107 / 10)%float <= value (signed_integer false n / 100)
              <= value (11165 / 100)%float).
  { apply between_value; [| |exact Hb1|exact Hb2]; apply safe_of_bounds.
    - literal_value (1107 / 10)%float. numbers.
    - literal_value (11165 / 100)%float. numbers. }
  revert H. literal_value (1107 / 10)%float. literal_value (11165 / 100)%float. lra.
Qed.
End OneDegree.

(** C3. [calculateDistance] is the haversine formula: on a sphere of radius
    6371 km in [part_000]; on a sphere of radius 6371000 m in [page.tsx],
    where the metres are then divided by 1000 and the kilometres rounded
    to two decimals.  From (0, 0) to (0, 1) both return a number within
    0.5 of 111.19, on a host whose sine and cosine are 0 and 1 at zero and
    whose sine and arc tangent are right to five decimals near half a
    degree. *)
Theorem one_degree_of_longitude (host : Host) :
  sin_of_zero host -> cos_of_zero host ->
  sin_at_half_degree host -> atan2_near_half_degree host ->
  (forall lat1 lon1 lat2 lon2 : number,
     Part0.calculateDistance lat1 lon1 lat2 lon2
     = haversine (fun d => d * (Math_PI / 180))%float 6371 lat1 lon1 lat2 lon2
     /\ Page.calculateDistance lat1 lon1 lat2 lon2
        = (Math_round
             (haversine (fun d => d * Math_PI / 180) 6371e3 lat1 lon1 lat2 lon2
              / 1000 * 100) / 100)%float)
  /\ (Rabs (value (Part0.calculateDistance 0 0 0 1) - 11119 / 100) <= 1 / 2)%R
  /\ (Rabs (value (Page.calculateDistance 0 0 0 1) - 11119 / 100) <= 1 / 2)%R.
Proof.
  intros sin0 cos0 sin_acc atan2_acc. split; [|split].
  - intros lat1 lon1 lat2 lon2. split; reflexivity.
  - pose proof (Part0_one_degree_value host sin0 cos0 sin_acc atan2_acc) as H.
    apply Rabs_le. lra.
  - pose proof (Page_one_degree_value host sin0 cos0 sin_acc atan2_acc) as H.
    apply Rabs_le. lra.
Qed.

Lemma one_degree_of_longitude_witness :
  (Rabs (value (Part0.calculateDistance (host := small_angle_host) 0 0 0 1)
         - 11119 / 100) <= 1 / 2)%R
  /\ (Rabs (value (Page.calculateDistance (host := small_angle_host) 0 0 0 1)
            - 11119 / 100) <= 1 / 2)%R.
Proof.
  apply (one_degree_of_longitude small_angle_host
           small_angle_sin_of_zero small_angle_cos_of_zero
           small_angle_sin_at_half_degree small_angle_atan2_near_half_degree).
Defined.

Section Antipodes.
Local Open Scope float_scope.

(** C6. From (-2.5, 0) to (2.5, 180), the point opposite on the globe,
    [a] is rounded to the number after 1, [1 - a] is negative, its square
    root is NaN and so is the distance that both pages return, on a host
    whose sine and cosine round to nearest at two and a half degrees. *)
Theorem antipodal_distance_is_nan (host : Host) :
  atan2_of_nan host -> sin_cos_at_two_and_a_half_degrees host ->
  Part0.calculateDistance (-2.5) 0 2.5 180 = nan
  /\ Page.calculateDistance (-2.5) 0 2.5 180 = nan.
Proof.
  intros Hnan (Hs & Hc & Hc' & Hr). split.
  - unfold Part0.calculateDistance, Part0.central_angle. cbv zeta.
    change ((2.5 - -2.5) * (Math_PI / 180) / 2) with two_and_a_half_degrees.
    change (-2.5 * (Math_PI / 180)) with (- two_and_a_half_degrees).
    change (2.5 * (Math_PI / 180)) with two_and_a_half_degrees.
    change ((180 - 0) * (Math_PI / 180) / 2) with right_angle.
    rewrite Hs, Hc, Hc', Hr.
    change (Math_sqrt (1 - _)) with nan. rewrite Hnan. reflexivity.
  - unfold Page.calculateDistance, Page.central_angle. cbv zeta.
    change ((2.5 - -2.5) * Math_PI / 180 / 2) with two_and_a_half_degrees.
    change (-2.5 * Math_PI / 180) with (- two_and_a_half_degrees).
    change (2.5 * Math_PI / 180) with two_and_a_half_degrees.
    change ((180 - 0) * Math_PI / 180 / 2) with right_angle.
    rewrite Hs, Hc, Hc', Hr.
    change (Math_sqrt (1 - _)) with nan. rewrite Hnan. reflexivity.
Qed.

Lemma antipodal_distance_is_nan_witness :
  Part0.calculateDistance (host := kernel_host) (-2.5) 0 2.5 180 = nan
  /\ Page.calculateDistance (host := kernel_host) (-2.5) 0 2.5 180 = nan.
Proof.
  apply (antipodal_distance_is_nan kernel_host
           kernel_atan2_of_nan kernel_sin_cos_at_two_and_a_half_degrees).
Defined.
End Antipodes.

(** * More on the ranking *)

(** X1. The shops that the pages list are candidates of the response, each
    made by the callback of [map] and none twice: with the ones left out
    they are the candidates, in another order. *)
Theorem shops_are_candidates (host : Host) (here : Location) (elements : list Element) :
  ((exists rest,
       Permutation (map (Page.shop_of here) elements) (Page.shops here elements ++ rest))
   /\ forall s, In s (Page.shops here elements) ->
                exists node, In node elements /\ s = Page.shop_of here node)
  /\
  ((exists rest,
       Permutation (map (Part0.shop_of here) elements)
         (Part0.sortedShops here elements ++ rest))
   /\ forall s, In s (Part0.sortedShops here elements) ->
                exists node, In node elements /\ s = Part0.shop_of here node).
Proof.
  split; split.
  - apply nearest_of_Permutation. lia.
  - intros s. apply In_nearest_of.
  - apply nearest_of_Permutation. lia.
  - intros s. apply In_nearest_of.
Qed.

(** X2. When no distance is NaN, a candidate that is left out is at least as
    far as every shop that is listed. *)
Theorem shops_left_out_are_no_nearer (host : Host) (here : Location)
    (elements : list Element) :
  Forall (fun c =>
            is_nan (Page.calculateDistance (Location.lat here) (Location.lon here)
                      (node_lat c) (node_lon c)) = false) elements ->
  Forall (fun c =>
            is_nan (Part0.calculateDistance (Location.lat here) (Location.lon here)
                      (node_lat c) (node_lon c)) = false) elements ->
  (exists rest,
      Permutation (map (Page.shop_of here) elements) (Page.shops here elements ++ rest)
      /\ forall a b, In a (Page.shops here elements) -> In b rest ->
                     (Page.distance a <=? Page.distance b)%float = true)
  /\
  (exists rest,
      Permutation (map (Part0.shop_of here) elements)
        (Part0.sortedShops here elements ++ rest)
      /\ forall a b, In a (Part0.sortedShops here elements) -> In b rest ->
                     (Part0.distance a <=? Part0.distance b)%float = true).
Proof.
  intros Hpage Hpart. split.
  - apply nearest_of_nearest; [lia|exact Hpage].
  - apply nearest_of_nearest; [lia|exact Hpart].
Qed.

Lemma shops_left_out_are_no_nearer_witness :
  exists rest,
    Permutation (map (Page.shop_of (host := small_angle_host) berlin)
                   (cafes ++ cafes_apart))
      (Page.shops (host := small_angle_host) berlin (cafes ++ cafes_apart) ++ rest)
    /\ forall a b,
         In a (Page.shops (host := small_angle_host) berlin (cafes ++ cafes_apart)) ->
         In b rest -> (Page.distance a <=? Page.distance b)%float = true.
Proof.
  apply (shops_left_out_are_no_nearer small_angle_host berlin (cafes ++ cafes_apart));
    repeat constructor.
Defined.

(** X3. When no distance is NaN and no two candidates are at the same
    distance, the order of the elements in the response does not matter
    to what is listed. *)
Theorem ranking_ignores_response_order (host : Host) (here : Location)
    (elements elements' : list Element) :
  Permutation elements elements' ->
  Forall (fun c =>
            is_nan (Page.calculateDistance (Location.lat here) (Location.lon here)
                      (node_lat c) (node_lon c)) = false) elements ->
  ForallOrdPairs (fun c c' =>
            (Page.calculateDistance (Location.lat here) (Location.lon here)
               (node_lat c) (node_lon c)
             =? Page.calculateDistance (Location.lat here) (Location.lon here)
                  (node_lat c') (node_lon c'))%float = false) elements ->
  Forall (fun c =>
            is_nan (Part0.calculateDistance (Location.lat here) (Location.lon here)
                      (node_lat c) (node_lon c)) = false) elements ->
  ForallOrdPairs (fun c c' =>
            (Part0.calculateDistance (Location.lat here) (Location.lon here)
               (node_lat c) (node_lon c)
             =? Part0.calculateDistance (Location.lat here) (Location.lon here)
                  (node_lat c') (node_lon c'))%float = false) elements ->
  Page.shops here elements = Page.shops here elements'
  /\ Part0.sortedShops here elements = Part0.sortedShops here elements'.
Proof.
  intros Hp Hn1 Ha1 Hn2 Ha2. split.
  - now apply nearest_of_order_free.
  - now apply nearest_of_order_free.
Qed.

Lemma ranking_ignores_response_order_witness :
  Page.shops (host := small_angle_host) berlin cafes_apart
  = Page.shops (host := small_angle_host) berlin (rev cafes_apart)
  /\ Part0.sortedShops (host := small_angle_host) berlin cafes_apart
     = Part0.sortedShops (host := small_angle_host) berlin (rev cafes_apart).
Proof.
  apply (ranking_ignores_response_order small_angle_host berlin cafes_apart (rev cafes_apart));
    [apply Permutation_rev| | | |]; repeat constructor.
Defined.

(** X4. In [part_000] the array [shops] that [map] returns is sorted by the
    call of [sort] on it.  When no distance is NaN it holds, after the
    ranking, all its shops in ascending order of distance (before, it
    held them in the order of the response), and what is listed is
    another array, made by [slice] of its first five. *)
Theorem sort_is_in_place (host : Host) (h : heap Part0.CoffeeShop)
    (position elements : ref) (l : Location) (es : list Element) :
  h !! position = Some (LocationObject l) ->
  h !! elements = Some (ElementArray es) ->
  Forall (fun c =>
            is_nan (Part0.calculateDistance (Location.lat l) (Location.lon l)
                      (node_lat c) (node_lon c)) = false) es ->
  exists (shops out : ref) (h1 h' : heap Part0.CoffeeShop),
    (let* here := read_location position in map_array (Part0.shop_of here) elements) h
    = Some (shops, h1)
    /\ h1 !! shops = Some (ShopArray (map (Part0.shop_of l) es))
    /\ Part0.shops_on_heap position elements h = Some (out, h')
    /\ h' !! shops
       = Some (ShopArray (Array_sort (by_distance Part0.distance) (map (Part0.shop_of l) es)))
    /\ Permutation (Array_sort (by_distance Part0.distance) (map (Part0.shop_of l) es))
         (map (Part0.shop_of l) es)
    /\ ascending
         (map Part0.distance
            (Array_sort (by_distance Part0.distance) (map (Part0.shop_of l) es)))
    /\ h' !! out = Some (ShopArray (Part0.sortedShops l es))
    /\ Part0.sortedShops l es
       = firstn 5 (Array_sort (by_distance Part0.distance) (map (Part0.shop_of l) es))
    /\ out <> shops.
Proof.
  intros Hl He Hnan.
  exists (length h), (S (length h)). eexists. eexists. split; [|split; [|split]].
  - unfold bind, read_location. rewrite Hl. cbv beta iota.
    apply (map_array_run _ _ es). exact He.
  - apply lookup_new.
  - unfold Part0.shops_on_heap.
    apply (ranking_on_heap Part0.shop_of Part0.distance 5 _ _ l es); assumption.
  - split; [apply lookup_new|]. split; [apply Array_sort_Permutation|]. split.
    + apply Sorted_ascending, Array_sort_Sorted. now rewrite List.Forall_map.
    + split; [|split; [|lia]].
      * rewrite lookup_app_r by lia.
        now replace (S (length h) - length h)%nat with 1%nat by lia.
      * unfold Part0.sortedShops, Part0.nearest. now rewrite nearest_of_first by lia.
Qed.

Lemma sort_is_in_place_witness :
  exists (shops out : ref) (h' : heap Part0.CoffeeShop) (sorted : list Part0.CoffeeShop),
    Part0.shops_on_heap (host := small_angle_host) 0%nat 1%nat
      [LocationObject berlin; ElementArray (cafes ++ cafes_apart)] = Some (out, h')
    /\ h' !! shops = Some (ShopArray sorted)
    /\ length sorted = 7%nat
    /\ ascending (map Part0.distance sorted)
    /\ h' !! out = Some (ShopArray (firstn 5 sorted))
    /\ out <> shops.
Proof.
  destruct (sort_is_in_place small_angle_host
              [LocationObject berlin; ElementArray (cafes ++ cafes_apart)]
              0%nat 1%nat berlin (cafes ++ cafes_apart) eq_refl eq_refl)
    as (shops & out & h1 & h' & _ & _ & Hrun & Hs & Hp & Ha & Ho & Hf & Hne).
  { repeat constructor. }
  exists shops, out, h'. eexists. rewrite Hf in Ho.
  repeat split; try eassumption.
  now rewrite (Permutation_length Hp).
Defined.

(** X18. For every position and every list of candidates whose computed
    distances are numbers (none is NaN), what the ranking returns is in
    ascending order of distance: of two adjacent entries the first is not
    farther than the second.  Candidates at equal distance come in the
    output in the order they have in the input: the sort is stable.  This
    holds for every [k], as [slice(0, k)] takes a prefix. *)
Theorem nearest_sorted_and_stable (host : Host) (origin : Location)
    (candidates : list Element) (k : Z) :
  Forall (fun c =>
            is_nan (Page.calculateDistance (Location.lat origin) (Location.lon origin)
                      (node_lat c) (node_lon c)) = false) candidates ->
  Forall (fun c =>
            is_nan (Part0.calculateDistance (Location.lat origin) (Location.lon origin)
                      (node_lat c) (node_lon c)) = false) candidates ->
  (ascending (map Page.distance (Page.nearest origin candidates k))
   /\ (forall a b : Page.CoffeeShop,
         (Page.distance a =? Page.distance b)%float = true ->
         before a b (Page.nearest origin candidates k) ->
         before a b (map (Page.shop_of origin) candidates))
   /\ (forall d : number,
         at_distance Page.distance d (Page.nearest origin candidates k)
         `prefix_of` at_distance Page.distance d (map (Page.shop_of origin) candidates)))
  /\
  (ascending (map Part0.distance (Part0.nearest origin candidates k))
   /\ (forall a b : Part0.CoffeeShop,
         (Part0.distance a =? Part0.distance b)%float = true ->
         before a b (Part0.nearest origin candidates k) ->
         before a b (map (Part0.shop_of origin) candidates))
   /\ (forall d : number,
         at_distance Part0.distance d (Part0.nearest origin candidates k)
         `prefix_of` at_distance Part0.distance d (map (Part0.shop_of origin) candidates))).
Proof.
  intros Hpage Hpart. unfold Page.nearest, Part0.nearest. split; split.
  - now apply nearest_of_ascending.
  - split.
    + intros a b. apply nearest_of_stable.
    + intros d. apply nearest_of_at_distance.
  - now apply nearest_of_ascending.
  - split.
    + intros a b. apply nearest_of_stable.
    + intros d. apply nearest_of_at_distance.
Qed.

Lemma nearest_sorted_and_stable_witness :
  ascending (map Page.distance (Page.nearest (host := small_angle_host) berlin cafes 5))
  /\ ascending (map Part0.distance (Part0.nearest (host := small_angle_host) berlin cafes 5)).
Proof.
  assert (Hpage : Forall (fun c =>
            is_nan (Page.calculateDistance (host := small_angle_host)
                      (Location.lat berlin) (Location.lon berlin)
                      (node_lat c) (node_lon c)) = false) cafes)
    by (repeat constructor).
  assert (Hpart : Forall (fun c =>
            is_nan (Part0.calculateDistance (host := small_angle_host)
                      (Location.lat berlin) (Location.lon berlin)
                      (node_lat c) (node_lon c)) = false) cafes)
    by (repeat constructor).
  destruct (nearest_sorted_and_stable small_angle_host berlin cafes 5 Hpage Hpart)
    as [[H1 _] [H2 _]].
  split; assumption.
Defined.

(** * More on the distance *)

Section SignFacts.
Local Open Scope float_scope.

Lemma get_sign_nan_or_nonneg (x : number) :
  get_sign x = false -> is_nan x = true \/ (0 <=? x) = true.
Proof.
  rewrite get_sign_Prim2SF. intros H.
  destruct (is_nan x) eqn:En; [now left|right].
  rewrite FloatAxioms.leb_spec. change (Prim2SF 0) with (S754_zero false).
  destruct (Prim2SF x) as [s|s| |s m e] eqn:E; try (subst s; reflexivity).
  apply not_nan_Prim2SF in En. congruence.
Qed.

Lemma abs_sign (x : number) : get_sign (abs x) = false.
Proof. rewrite get_sign_Prim2SF, abs_spec. now destruct (Prim2SF x). Qed.

Lemma quadrant_atan2_sign : atan2_sign quadrant_host.
Proof. intros y x Hy. simpl. unfold quadrant_atan2. rewrite Hy. apply abs_sign. Qed.
End SignFacts.

(** X5. The distance is never below zero: it is NaN, or [+0], or positive,
    whatever the coordinates are, on a host whose arc tangent of a [y]
    that is not negative is not negative. *)
Theorem distance_is_never_negative (host : Host) (lat1 lon1 lat2 lon2 : number) :
  atan2_sign host ->
  ((Page.calculateDistance lat1 lon1 lat2 lon2 <? 0)%float = false
   /\ (is_nan (Page.calculateDistance lat1 lon1 lat2 lon2) = true
       \/ (0 <=? Page.calculateDistance lat1 lon1 lat2 lon2)%float = true))
  /\
  ((Part0.calculateDistance lat1 lon1 lat2 lon2 <? 0)%float = false
   /\ (is_nan (Part0.calculateDistance lat1 lon1 lat2 lon2) = true
       \/ (0 <=? Part0.calculateDistance lat1 lon1 lat2 lon2)%float = true)).
Proof.
  intros Hatan.
  assert (Hpage : get_sign (Page.calculateDistance lat1 lon1 lat2 lon2) = false).
  { unfold Page.calculateDistance, Page.central_angle. cbv zeta.
    apply div_sign; [|reflexivity]. apply Math_round_sign.
    apply mul_sign; [|reflexivity]. apply div_sign; [|reflexivity].
    apply mul_sign; [reflexivity|]. apply mul_sign; [reflexivity|].
    apply Hatan, sqrt_haversine_sign. }
  assert (Hpart : get_sign (Part0.calculateDistance lat1 lon1 lat2 lon2) = false).
  { unfold Part0.calculateDistance, Part0.central_angle. cbv zeta.
    apply mul_sign; [reflexivity|]. apply mul_sign; [reflexivity|].
    apply Hatan, sqrt_haversine_sign. }
  split; split;
    auto using get_sign_not_below_0, get_sign_nan_or_nonneg.
Qed.

Lemma distance_is_never_negative_witness :
  (Page.calculateDistance (host := quadrant_host) 52.5 13.5 52.53125 13.25 <? 0)%float = false
  /\ (Part0.calculateDistance (host := quadrant_host) (-2.5) 0 2.5 180 <? 0)%float = false.
Proof.
  split.
  - apply (distance_is_never_negative quadrant_host 52.5 13.5 52.53125 13.25
             quadrant_atan2_sign).
  - apply (distance_is_never_negative quadrant_host (-2.5) 0 2.5 180 quadrant_atan2_sign).
Defined.

(** X19. For every pair of coordinates, [calculateDistance] gives the same
    number from [a] to [b] as from [b] to [a], on a host whose sine is odd;
    when that number is finite the two are then within the relative
    tolerance 1e-9 of each other, as within any other. *)
Theorem distance_symmetric (host : Host) (lat1 lon1 lat2 lon2 : number) :
  sin_odd host ->
  (Page.calculateDistance lat1 lon1 lat2 lon2 = Page.calculateDistance lat2 lon2 lat1 lon1
   /\ (is_finite (Page.calculateDistance lat1 lon1 lat2 lon2) = true ->
       within_relative_tolerance (1 / 1000000000)
         (Page.calculateDistance lat1 lon1 lat2 lon2)
         (Page.calculateDistance lat2 lon2 lat1 lon1) = true))
  /\
  (Part0.calculateDistance lat1 lon1 lat2 lon2 = Part0.calculateDistance lat2 lon2 lat1 lon1
   /\ (is_finite (Part0.calculateDistance lat1 lon1 lat2 lon2) = true ->
       within_relative_tolerance (1 / 1000000000)
         (Part0.calculateDistance lat1 lon1 lat2 lon2)
         (Part0.calculateDistance lat2 lon2 lat1 lon1) = true)).
Proof.
  intros Hodd.
  assert (Hpage : Page.calculateDistance lat1 lon1 lat2 lon2
                  = Page.calculateDistance lat2 lon2 lat1 lon1)
    by (unfold Page.calculateDistance; cbv zeta; now rewrite Page_central_angle_swap).
  assert (Hpart : Part0.calculateDistance lat1 lon1 lat2 lon2
                  = Part0.calculateDistance lat2 lon2 lat1 lon1)
    by (unfold Part0.calculateDistance; cbv zeta; now rewrite Part0_central_angle_swap).
  split; (split; [assumption|]).
  - rewrite <- Hpage.
    apply (within_relative_tolerance_refl (1 / 1000000000) 4835703278458517 (-82) _ eq_refl).
  - rewrite <- Hpart.
    apply (within_relative_tolerance_refl (1 / 1000000000) 4835703278458517 (-82) _ eq_refl).
Qed.

Lemma distance_symmetric_witness :
  Part0.calculateDistance (host := small_angle_host) 52.5 13.5 52.53125 13.25
  = Part0.calculateDistance (host := small_angle_host) 52.53125 13.25 52.5 13.5
  /\ within_relative_tolerance (1 / 1000000000)
       (Page.calculateDistance (host := small_angle_host) 52.5 13.5 52.53125 13.25)
       (Page.calculateDistance (host := small_angle_host) 52.53125 13.25 52.5 13.5) = true.
Proof.
  destruct (distance_symmetric small_angle_host 52.5 13.5 52.53125 13.25
              small_angle_sin_odd) as [[_ Hpage] [Hpart _]].
  split; [exact Hpart|]. apply Hpage. reflexivity.
Defined.

(** * More on the pages *)

(** The system that a run ends in, computed. *)
Ltac exists_run r :=
  let s := eval vm_compute in r in
  lazymatch s with
  | Some ?x => exists x
  end.

(** The first equation of the goal, a run to a system that is known, by
    computation. *)
Ltac run_known H :=
  lazymatch goal with
  | |- ?r = Some ?x /\ _ =>
      assert (H : r = Some x) by (vm_compute; reflexivity); split; [exact H|]
  end.

(** What a run gives, by computation. *)
Ltac run_of r H :=
  let s := eval vm_compute in r in
  assert (H : r = s) by (vm_compute; reflexivity).

(** X6. The page of [page.tsx], from its first render: the list is empty or
    the ranking of some response from some position, so it has at most
    five shops and none without a name; and shops are listed only once a
    position is known, when the button is gone. *)
Theorem Page_lists_ranked_shops (host : Host) (evs : list Page.Event) (sys : Page.System) :
  Page.run evs Page.boot = Some sys ->
  (Page.coffeeShops (Page.state sys) = []
   \/ exists here elements, Page.coffeeShops (Page.state sys) = Page.shops here elements)
  /\ (length (Page.listed (Page.render (Page.state sys))) <= 5)%nat
  /\ Forall (fun s => Page.name s <> EmptyString) (Page.listed (Page.render (Page.state sys)))
  /\ (Page.listed (Page.render (Page.state sys)) <> [] ->
      Page.location (Page.state sys) <> None
      /\ Page.button (Page.render (Page.state sys)) = false).
Proof.
  intros Hrun.
  assert (Hl : Page_listed_ok (Page.coffeeShops (Page.state sys))).
  { apply (Page_run_invariant (fun s => Page_listed_ok (Page.coffeeShops (Page.state s)))
             Page_handle_listed evs Page.boot); [now left|assumption]. }
  assert (Hp : Page_positioned sys).
  { apply (Page_run_invariant Page_positioned Page_handle_positioned evs Page.boot);
      [|assumption]. intros [H|H]; now contradiction H. }
  assert (Hv : Page.listed (Page.render (Page.state sys)) = Page.coffeeShops (Page.state sys)).
  { simpl. now destruct (Page.coffeeShops (Page.state sys)). }
  rewrite Hv. split; [exact Hl|]. split; [|split].
  - destruct Hl as [->|(here & es & ->)]; [simpl; lia|apply Page_shops_length].
  - destruct Hl as [->|(here & es & ->)]; [constructor|apply Page_shops_names].
  - intros Hne. assert (Hloc := Hp (or_intror Hne)). split; [assumption|].
    simpl. now destruct (Page.location (Page.state sys)).
Qed.

Lemma Page_lists_ranked_shops_witness :
  exists sys,
    Page.run (host := small_angle_host) a_visit Page.boot = Some sys
    /\ (length (Page.listed (Page.render (Page.state sys))) <= 5)%nat
    /\ Page.button (Page.render (Page.state sys)) = false.
Proof.
  exists_run (Page.run (host := small_angle_host) a_visit Page.boot).
  run_known Hr.
  destruct (Page_lists_ranked_shops small_angle_host a_visit _ Hr)
    as (_ & Hlen & _ & Hb).
  split; [exact Hlen|]. apply Hb. vm_compute. discriminate.
Defined.

(** X7. Nothing in [page.tsx] clears the error: once a message is shown, a
    message is shown after every further event, a fetch that succeeds
    among them. *)
Theorem Page_error_stays (host : Host) (evs : list Page.Event) (sys sys' : Page.System) :
  Page.run evs sys = Some sys' ->
  Page.errorText (Page.render (Page.state sys)) <> None ->
  Page.errorText (Page.render (Page.state sys')) <> None.
Proof.
  intros Hrun H.
  apply (Page_run_invariant (fun s => Page.truthy (Page.error (Page.state s)) <> None)
           Page_handle_error evs sys); assumption.
Qed.

Lemma Page_error_stays_witness :
  exists sys sys',
    Page.run (host := small_angle_host) a_refusal Page.boot = Some sys
    /\ Page.run (host := small_angle_host) (tail a_visit) sys = Some sys'
    /\ Page.errorText (Page.render (Page.state sys')) <> None
    /\ Page.listed (Page.render (Page.state sys')) <> [].
Proof.
  exists_run (Page.run (host := small_angle_host) a_refusal Page.boot).
  exists_run (Page.run (host := small_angle_host) (a_refusal ++ tail a_visit) Page.boot).
  split; [vm_compute; reflexivity|]. run_known Hr. split.
  - apply (Page_error_stays small_angle_host _ _ _ Hr). vm_compute. discriminate.
  - vm_compute. discriminate.
Defined.

(** X8. Once a position is known the button is gone for good: it is not
    rendered after any further event, and [getUserLocation] is not called
    again. *)
Theorem Page_button_gone_for_good (host : Host) (evs : list Page.Event)
    (sys sys' : Page.System) :
  Page.run evs sys = Some sys' ->
  Page.button (Page.render (Page.state sys)) = false ->
  Page.button (Page.render (Page.state sys')) = false
  /\ Forall (fun ev => forall g, ev <> Page.Click g) evs.
Proof.
  revert sys. induction evs as [|ev evs IH]; intros sys; simpl.
  - intros [= <-] H. split; [assumption|constructor].
  - destruct (Page.handle ev sys) as [sys1|] eqn:Eh; [|discriminate].
    intros Hrun Hb.
    assert (Hloc : Page.location (Page.state sys) <> None).
    { revert Hb. simpl. now destruct (Page.location (Page.state sys)). }
    assert (Hb1 : Page.button (Page.render (Page.state sys1)) = false).
    { pose proof (Page_handle_location ev sys sys1 Hloc Eh) as H1.
      simpl. now destruct (Page.location (Page.state sys1)). }
    destruct (IH sys1 Hrun Hb1) as [Hfin Hall]. split; [assumption|].
    constructor; [|assumption].
    intros g ->. unfold Page.handle, Page.render in Eh. simpl in Eh.
    destruct (Page.location (Page.state sys)); [discriminate|congruence].
Qed.

Lemma Page_button_gone_for_good_witness :
  exists sys sys',
    Page.run (host := small_angle_host) (firstn 3 a_visit) Page.boot = Some sys
    /\ Page.run (host := small_angle_host) (skipn 3 a_visit) sys = Some sys'
    /\ Page.button (Page.render (Page.state sys')) = false.
Proof.
  exists_run (Page.run (host := small_angle_host) (firstn 3 a_visit) Page.boot).
  exists_run (Page.run (host := small_angle_host) a_visit Page.boot).
  split; [vm_compute; reflexivity|]. run_known Hr.
  apply (Page_button_gone_for_good small_angle_host _ _ _ Hr). vm_compute. reflexivity.
Defined.

(** X9. [Loading...] is shown in [page.tsx] only while something is still to
    come: a position that was asked for, a fetch that has not settled, or
    the effect that starts one. *)
Theorem Page_loading_means_waiting (host : Host) (evs : list Page.Event) (sys : Page.System) :
  Page.run evs Page.boot = Some sys ->
  Page.loadingText (Page.render (Page.state sys)) = true ->
  (0 < Page.requests sys)%nat
  \/ Page.fetches sys <> []
  \/ (Page.effectDue sys = true /\ Page.location (Page.state sys) <> None).
Proof.
  intros Hrun.
  apply (Page_run_invariant Page_waiting Page_handle_waiting evs Page.boot); [|assumption].
  discriminate.
Qed.

Lemma Page_loading_means_waiting_witness :
  exists sys,
    Page.run (host := small_angle_host) (firstn 4 a_visit) Page.boot = Some sys
    /\ Page.fetches sys <> [].
Proof.
  exists_run (Page.run (host := small_angle_host) (firstn 4 a_visit) Page.boot).
  run_known Hr.
  destruct (Page_loading_means_waiting small_angle_host (firstn 4 a_visit) _ Hr eq_refl)
    as [H|[H|[H _]]]; [inversion H|exact H|discriminate H].
Defined.

(** X10. Two clicks before a position arrives start two fetches in
    [page.tsx], and the order in which they settle decides what is
    listed: when the response for the first position comes last, its
    shops are listed under the second position. *)
Theorem Page_stale_response (host : Host) (la1 lo1 la2 lo2 : number)
    (es1 es2 : list Element) :
  exists sys,
    Page.run
      [Page.EffectRuns; Page.Click true; Page.Click true;
       Page.PositionFound la1 lo1; Page.EffectRuns;
       Page.PositionFound la2 lo2; Page.EffectRuns;
       Page.FetchSettles 1 (FetchResponse true (Some es2));
       Page.FetchSettles 0 (FetchResponse true (Some es1))] Page.boot = Some sys
    /\ Page.location (Page.state sys)
       = Some {| Location.lat := la2; Location.lon := lo2 |}
    /\ Page.coffeeShops (Page.state sys)
       = Page.shops {| Location.lat := la1; Location.lon := lo1 |} es1
    /\ Page.fetches sys = [] /\ Page.requests sys = 0%nat.
Proof. eexists. repeat split. Qed.

(** X11. The two pages of [part_000], from their first render: at most five
    shops are listed and none without a name. *)
Theorem Part0_lists_ranked_shops (host : Host)
    (evs1 : list Part0.First.Event) (sys1 : Part0.First.System)
    (evs2 : list Part0.Second.Event) (sys2 : Part0.Second.System) :
  Part0.First.run evs1 Part0.First.boot = Some sys1 ->
  Part0.Second.run evs2 Part0.Second.boot = Some sys2 ->
  ((length (Part0.listed (Part0.First.render (Part0.First.state sys1))) <= 5)%nat
   /\ Forall (fun s => Part0.name s <> EmptyString)
        (Part0.listed (Part0.First.render (Part0.First.state sys1))))
  /\ ((length (Part0.listed (Part0.Second.render (Part0.Second.state sys2))) <= 5)%nat
      /\ Forall (fun s => Part0.name s <> EmptyString)
           (Part0.listed (Part0.Second.render (Part0.Second.state sys2)))).
Proof.
  intros H1 H2. split.
  - apply First_run_sound in H1 as [H1 _].
    replace (Part0.listed (Part0.First.render (Part0.First.state sys1)))
      with (Part0.coffeeShops (Part0.First.state sys1))
      by (simpl; now destruct (Part0.coffeeShops (Part0.First.state sys1))).
    apply Part0_listed_facts, H1. now left.
  - apply Second_run_sound in H2 as [H2 _].
    replace (Part0.listed (Part0.Second.render (Part0.Second.state sys2)))
      with (Part0.coffeeShops (Part0.Second.page (Part0.Second.state sys2)))
      by (simpl; now destruct (Part0.coffeeShops (Part0.Second.page (Part0.Second.state sys2)))).
    apply Part0_listed_facts, H2. now left.
Qed.

Lemma Part0_lists_ranked_shops_witness :
  exists sys1 sys2,
    Part0.First.run (host := small_angle_host) a_first_visit_with_cafes Part0.First.boot
    = Some sys1
    /\ Part0.Second.run (host := small_angle_host) a_second_visit_with_cafes
         Part0.Second.boot = Some sys2
    /\ ((0 < length (Part0.listed (Part0.First.render (Part0.First.state sys1))) <= 5)%nat
        /\ Forall (fun s => Part0.name s <> EmptyString)
             (Part0.listed (Part0.First.render (Part0.First.state sys1))))
    /\ ((0 < length (Part0.listed (Part0.Second.render (Part0.Second.state sys2))) <= 5)%nat
        /\ Forall (fun s => Part0.name s <> EmptyString)
             (Part0.listed (Part0.Second.render (Part0.Second.state sys2)))).
Proof.
  exists_run (Part0.First.run (host := small_angle_host) a_first_visit_with_cafes
                Part0.First.boot).
  exists_run (Part0.Second.run (host := small_angle_host) a_second_visit_with_cafes
                Part0.Second.boot).
  run_known Hr1. run_known Hr2.
  destruct (Part0_lists_ranked_shops small_angle_host
              a_first_visit_with_cafes _ a_second_visit_with_cafes _ Hr1 Hr2)
    as [[H1 N1] [H2 N2]].
  split; (split; [split|]); try assumption; vm_compute; lia.
Defined.

(** X12. Nothing in [part_000] clears the error: in both pages a message
    that is shown is shown after every further event, a fetch that
    succeeds among them. *)
Theorem Part0_error_stays (host : Host)
    (evs1 : list Part0.First.Event) (sys1 sys1' : Part0.First.System)
    (evs2 : list Part0.Second.Event) (sys2 sys2' : Part0.Second.System) :
  Part0.First.run evs1 sys1 = Some sys1' ->
  Part0.Second.run evs2 sys2 = Some sys2' ->
  (Part0.errorText (Part0.First.render (Part0.First.state sys1)) <> None ->
   Part0.errorText (Part0.First.render (Part0.First.state sys1')) <> None)
  /\ (Part0.errorText (Part0.Second.render (Part0.Second.state sys2)) <> None ->
      Part0.errorText (Part0.Second.render (Part0.Second.state sys2')) <> None).
Proof.
  intros H1 H2.
  apply First_run_sound in H1 as [_ H1]. apply Second_run_sound in H2 as [_ H2].
  simpl. split.
  - destruct (Part0.truthy (Part0.error (Part0.First.state sys1))) eqn:E; [|congruence].
    intros _. rewrite (H1 eq_refl).
    destruct (Part0.error (Part0.First.state sys1')); [discriminate|].
    specialize (H1 eq_refl). discriminate.
  - destruct (Part0.truthy (Part0.error (Part0.Second.page (Part0.Second.state sys2)))) eqn:E;
      [|congruence].
    intros _. rewrite (H2 eq_refl).
    destruct (Part0.error (Part0.Second.page (Part0.Second.state sys2'))); [discriminate|].
    specialize (H2 eq_refl). discriminate.
Qed.

Lemma Part0_error_stays_witness :
  exists sys1 sys1' sys2 sys2',
    Part0.First.run (host := small_angle_host) a_first_refusal Part0.First.boot = Some sys1
    /\ Part0.First.run (host := small_angle_host) [Part0.First.EffectRuns] sys1 = Some sys1'
    /\ Part0.Second.run (host := small_angle_host) a_second_refusal Part0.Second.boot = Some sys2
    /\ Part0.Second.run (host := small_angle_host) (tail a_second_visit) sys2 = Some sys2'
    /\ Part0.errorText (Part0.First.render (Part0.First.state sys1')) <> None
    /\ Part0.errorText (Part0.Second.render (Part0.Second.state sys2')) <> None.
Proof.
  exists_run (Part0.First.run (host := small_angle_host) a_first_refusal Part0.First.boot).
  exists_run (Part0.First.run (host := small_angle_host)
                (a_first_refusal ++ [Part0.First.EffectRuns]) Part0.First.boot).
  exists_run (Part0.Second.run (host := small_angle_host) a_second_refusal Part0.Second.boot).
  exists_run (Part0.Second.run (host := small_angle_host)
                (a_second_refusal ++ tail a_second_visit) Part0.Second.boot).
  split; [vm_compute; reflexivity|]. run_known Hr1.
  split; [vm_compute; reflexivity|]. run_known Hr2.
  destruct (Part0_error_stays small_angle_host _ _ _ _ _ _ Hr1 Hr2) as [H1 H2].
  split; [apply H1|apply H2]; vm_compute; discriminate.
Defined.

(** X13. The first page of [part_000] asks for the position once and fetches
    once at most: in a run from the first render at most one fetch ever
    settles, and never is more than one request or one fetch under way.
    A response that is late cannot replace a newer one. *)
Theorem First_fetches_once (host : Host)
    (evs : list Part0.First.Event) (sys : Part0.First.System) :
  Part0.First.run evs Part0.First.boot = Some sys ->
  (length (List.filter First_settles evs) <= 1)%nat
  /\ (Part0.First.requests sys <= 1)%nat
  /\ (length (Part0.First.fetches sys) <= 1)%nat.
Proof.
  intros Hrun.
  assert (H : (First_pending sys + length (List.filter First_settles evs) <= 1)%nat).
  { apply (First_run_invariant
             (fun evs sys => (First_pending sys + length (List.filter First_settles evs) <= 1)%nat)
             Part0.First.boot); [simpl; lia| |assumption].
    intros. eapply First_handle_pending; eassumption. }
  unfold First_pending in H. lia.
Qed.

Lemma First_fetches_once_witness :
  (length (List.filter First_settles a_first_visit) <= 1)%nat.
Proof.
  run_of (Part0.First.run (host := small_angle_host) a_first_visit Part0.First.boot) Hr.
  exact (proj1 (First_fetches_once small_angle_host a_first_visit _ Hr)).
Defined.

(** X14. The second page of [part_000], where the button comes back when
    the position is refused, fetches once at most as well: while the
    button is there no request and no fetch is under way and nothing has
    been fetched, and in a run from the first render at most one fetch
    ever settles, with never more than one request or fetch under way. *)
Theorem Second_fetches_once (host : Host)
    (evs : list Part0.Second.Event) (sys : Part0.Second.System) :
  Part0.Second.run evs Part0.Second.boot = Some sys ->
  (length (List.filter Second_settles evs) <= 1)%nat
  /\ (Part0.Second.requests sys <= 1)%nat
  /\ (length (Part0.Second.fetches sys) <= 1)%nat
  /\ (Part0.button (Part0.Second.render (Part0.Second.state sys)) = true ->
      List.filter Second_settles evs = []
      /\ Part0.Second.requests sys = 0%nat
      /\ Part0.Second.fetches sys = []).
Proof.
  intros Hrun.
  assert (H : Second_inv evs sys).
  { apply (Second_run_invariant Second_inv Part0.Second.boot);
      [apply Second_boot_inv| |assumption].
    intros. eapply Second_handle_inv; eassumption. }
  destruct H as (H & _). unfold Second_single, Second_pending in H. simpl.
  destruct (Part0.Second.isLocationRequested (Part0.Second.state sys)); simpl.
  - repeat split; try lia; discriminate.
  - repeat split; try lia.
    + destruct (List.filter Second_settles evs); [reflexivity|simpl in H; lia].
    + destruct (Part0.Second.fetches sys); [reflexivity|simpl in H; lia].
Qed.

Lemma Second_fetches_once_witness :
  (length (List.filter Second_settles a_second_visit) <= 1)%nat.
Proof.
  run_of (Part0.Second.run (host := small_angle_host) a_second_visit Part0.Second.boot) Hr.
  exact (proj1 (Second_fetches_once small_angle_host a_second_visit _ Hr)).
Defined.

(** X15. [No coffee shops found nearby.] is shown by the first page only after
    a fetch has come back with a response that is [ok] and an empty list
    of elements. *)
Theorem First_empty_message (host : Host)
    (evs : list Part0.First.Event) (sys : Part0.First.System) :
  Part0.First.run evs Part0.First.boot = Some sys ->
  Part0.emptyText (Part0.First.render (Part0.First.state sys)) = true ->
  exists i, In (Part0.First.FetchSettles i (FetchResponse true (Some []))) evs.
Proof.
  intros Hrun.
  assert (H : First_settled evs sys).
  { apply (First_run_invariant First_settled Part0.First.boot); [discriminate| |assumption].
    intros. eapply First_handle_settled; eassumption. }
  simpl. intros He.
  apply andb_prop in He as [He Hlen]. apply andb_prop in He as [Hl Herr].
  apply negb_true_iff in Hl, Herr. apply Nat.eqb_eq in Hlen.
  destruct (H Hl) as [Ht|(i & here & es & Hin & Hc)]; [congruence|].
  assert (es = []) as ->.
  { apply (Part0_sortedShops_nil here). rewrite <- Hc.
    now destruct (Part0.coffeeShops (Part0.First.state sys)). }
  eauto.
Qed.

Lemma First_empty_message_witness :
  exists i, In (Part0.First.FetchSettles i (FetchResponse true (Some []))) a_first_visit.
Proof.
  run_of (Part0.First.run (host := small_angle_host) a_first_visit Part0.First.boot) Hr.
  apply (First_empty_message small_angle_host a_first_visit _ Hr). vm_compute. reflexivity.
Defined.

(** X16. [No coffee shops found nearby.] is shown by the second page, which
    also asks for a position to be known, only after a fetch has come
    back with a response that is [ok] and an empty list of elements: it
    is not shown before the button is clicked, although nothing is
    loading then. *)
Theorem Second_empty_message (host : Host)
    (evs : list Part0.Second.Event) (sys : Part0.Second.System) :
  Part0.Second.run evs Part0.Second.boot = Some sys ->
  Part0.emptyText (Part0.Second.render (Part0.Second.state sys)) = true ->
  exists i, In (Part0.Second.FetchSettles i (FetchResponse true (Some []))) evs.
Proof.
  intros Hrun.
  assert (H : Second_inv evs sys).
  { apply (Second_run_invariant Second_inv Part0.Second.boot);
      [apply Second_boot_inv| |assumption].
    intros. eapply Second_handle_inv; eassumption. }
  destruct H as (_ & _ & H). simpl. intros He.
  apply andb_prop in He as [He Hloc]. apply andb_prop in He as [He Hlen].
  apply andb_prop in He as [Hl Herr].
  apply negb_true_iff in Hl, Herr. apply Nat.eqb_eq in Hlen.
  destruct (H Hl) as [Ht|(i & here & es & Hin & Hc)]; [|congruence|].
  { now destruct (Part0.location (Part0.Second.page (Part0.Second.state sys))). }
  assert (es = []) as ->.
  { apply (Part0_sortedShops_nil here). rewrite <- Hc.
    now destruct (Part0.coffeeShops (Part0.Second.page (Part0.Second.state sys))). }
  eauto.
Qed.

Lemma Second_empty_message_witness :
  exists i, In (Part0.Second.FetchSettles i (FetchResponse true (Some []))) a_second_visit.
Proof.
  run_of (Part0.Second.run (host := small_angle_host) a_second_visit Part0.Second.boot) Hr.
  apply (Second_empty_message small_angle_host a_second_visit _ Hr). vm_compute. reflexivity.
Defined.

(** X17. In both pages of [part_000], [Loading...] is shown exactly while
    something is still to come: the effect that asks for the position, a
    position that was asked for, the effect that starts the fetch for a
    known position, or a fetch that has not settled. *)
Theorem Part0_loading_while_waiting (host : Host)
    (evs1 : list Part0.First.Event) (sys1 : Part0.First.System)
    (evs2 : list Part0.Second.Event) (sys2 : Part0.Second.System) :
  Part0.First.run evs1 Part0.First.boot = Some sys1 ->
  Part0.Second.run evs2 Part0.Second.boot = Some sys2 ->
  (Part0.loadingText (Part0.First.render (Part0.First.state sys1)) = true
   <-> (Part0.First.mountDue sys1 = true
        \/ (0 < Part0.First.requests sys1)%nat
        \/ (Part0.First.effectDue sys1 = true
            /\ Part0.location (Part0.First.state sys1) <> None)
        \/ Part0.First.fetches sys1 <> []))
  /\
  (Part0.loadingText (Part0.Second.render (Part0.Second.state sys2)) = true
   <-> ((Part0.Second.requestDue sys2 = true
         /\ Part0.Second.isLocationRequested (Part0.Second.state sys2) = true)
        \/ (0 < Part0.Second.requests sys2)%nat
        \/ (Part0.Second.effectDue sys2 = true
            /\ Part0.location (Part0.Second.page (Part0.Second.state sys2)) <> None)
        \/ Part0.Second.fetches sys2 <> [])).
Proof.
  intros Hrun1 Hrun2. split.
  - assert (H : (First_pending sys1 + length (List.filter First_settles evs1) <= 1)%nat
                /\ First_busy sys1).
    { apply (First_run_invariant
               (fun evs sys =>
                  (First_pending sys + length (List.filter First_settles evs) <= 1)%nat
                  /\ First_busy sys) Part0.First.boot);
        [unfold First_busy, First_pending; simpl; split; [lia|split; [lia|reflexivity]]
        | |assumption].
      intros evs ev sys sys' [Hp Hb] Hh. split.
      - eapply First_handle_pending; eassumption.
      - eapply First_handle_busy; eassumption. }
    destruct H as [_ H]. unfold First_busy, First_pending in H. simpl. rewrite H.
    destruct (Part0.First.mountDue sys1), (Part0.First.effectDue sys1),
      (Part0.location (Part0.First.state sys1)), (Part0.First.fetches sys1);
      simpl; split; intros; try lia; intuition (try congruence; try lia).
  - assert (H : Second_inv evs2 sys2 /\ Second_busy sys2).
    { apply (Second_run_invariant (fun evs sys => Second_inv evs sys /\ Second_busy sys)
               Part0.Second.boot);
        [split; [apply Second_boot_inv|]; unfold Second_busy, Second_pending; simpl;
         split; [discriminate|lia]
        | |assumption].
      intros evs ev sys sys' [Hi Hb] Hh. split.
      - eapply Second_handle_inv; eassumption.
      - destruct Hi as [Hs _]. eapply Second_handle_busy; eassumption. }
    destruct H as [_ H]. unfold Second_busy, Second_pending in H. simpl. rewrite H.
    destruct (Part0.Second.requestDue sys2),
      (Part0.Second.isLocationRequested (Part0.Second.state sys2)),
      (Part0.Second.effectDue sys2),
      (Part0.location (Part0.Second.page (Part0.Second.state sys2))),
      (Part0.Second.fetches sys2);
      simpl; split; intros; try lia; intuition (try congruence; try lia).
Qed.

Lemma Part0_loading_while_waiting_witness :
  exists sys1 sys2,
    Part0.First.run (host := small_angle_host) (firstn 4 a_first_visit) Part0.First.boot
    = Some sys1
    /\ Part0.Second.run (host := small_angle_host) a_second_visit Part0.Second.boot
       = Some sys2
    /\ Part0.loadingText (Part0.First.render (Part0.First.state sys1)) = true
    /\ Part0.loadingText (Part0.Second.render (Part0.Second.state sys2)) = false.
Proof.
  exists_run (Part0.First.run (host := small_angle_host) (firstn 4 a_first_visit)
                Part0.First.boot).
  exists_run (Part0.Second.run (host := small_angle_host) a_second_visit Part0.Second.boot).
  run_known Hr1. run_known Hr2.
  destruct (Part0_loading_while_waiting small_angle_host
              (firstn 4 a_first_visit) _ a_second_visit _ Hr1 Hr2) as [H1 H2].
  split.
  - apply H1. right. right. right. vm_compute. discriminate.
  - vm_compute. reflexivity.
Defined.
